(** * The bookmark and tag engine of the bookmark manager's server

    A shallow embedding of [packages/server/src]: the SQLite schema of
    [database.ts], the handlers of [routes/bookmarkRoutes.ts] and
    [routes/tagRoutes.ts], and the status mapping of
    [middleware/errorHandler.ts].

    Tables are sequences of rows in rowid order.  A handler is a function of
    the store that returns the store it leaves behind together with either
    the value it sends or the exception it throws: the handlers run their
    statements one after another on the shared connection, so whatever a
    statement wrote is still there when a later statement throws.

    Of the client the development has what it does to the data: the lists
    the hooks of [packages/shared] and [App] keep, the requests the form and
    the cards send, and the ids and the query the API functions write. *)

From Stdlib Require Import ZArith Lia Bool Ascii String Sorting.Sorted.
From Stdlib Require Import Structures.OrderedTypeEx.
From stdpp Require Import base tactics option list strings sorting.

Local Open Scope string_scope.
Local Open Scope list_scope.
Local Open Scope Z_scope.

(** ** JavaScript numbers and [Number(string)] *)

Module Js.

(** A JavaScript number.  A finite value is kept as [m * 2^e]; the sign of
    zero is not kept (no handler looks at it). *)
Inductive number : Type :=
  | NaN
  | Infinity (negative : bool)
  | Fin (m e : Z).

Definition isNaN (n : number) : bool :=
  match n with NaN => true | _ => false end.

Definition of_int (z : Z) : number := Fin z 0.

(** The integer a number is equal to, if there is one.  SQLite compares an
    INTEGER column with a bound number numerically, so this decides which
    rowid a bound parameter can match. *)
Definition to_int (n : number) : option Z :=
  match n with
  | Fin m e =>
      if 0 <=? e then Some (m * 2 ^ e)
      else if m mod 2 ^ (- e) =? 0 then Some (m / 2 ^ (- e)) else None
  | _ => None
  end.

(** *** Rounding a positive rational [n / d] to the nearest binary64 value,
    ties to even. *)

Definition ge_pow2 (n d k : Z) : bool :=
  if 0 <=? k then d * 2 ^ k <=? n else d <=? n * 2 ^ (- k).

Definition floor_log2 (n d : Z) : Z :=
  let k := Z.log2 n - Z.log2 d in
  if ge_pow2 n d k then k else k - 1.

Definition round_half_even (num den : Z) : Z :=
  let q := num / den in
  let r := num mod den in
  match 2 * r ?= den with
  | Lt => q
  | Gt => q + 1
  | Eq => if Z.even q then q else q + 1
  end.

Definition round_binary64 (negative : bool) (n d : Z) : number :=
  if n =? 0 then Fin 0 0 else
  let e := floor_log2 n d in
  let q := Z.max (e - 52) (-1074) in
  let m := if 0 <=? q then round_half_even n (d * 2 ^ q)
           else round_half_even (n * 2 ^ (- q)) d in
  if m =? 0 then Fin 0 0
  else if 1024 <=? Z.log2 m + q then Infinity negative
  else Fin (if negative then - m else m) q.

(** The value [mant * 10^e10] of a decimal literal. *)
Definition of_decimal (negative : bool) (mant e10 : Z) : number :=
  if 0 <=? e10 then round_binary64 negative (mant * 10 ^ e10) 1
  else round_binary64 negative mant (10 ^ (- e10)).

(** *** The grammar of [StringToNumber]

    A string is the sequence of the bytes of its UTF-8 encoding. *)

Definition code (c : ascii) : Z := Z.of_nat (nat_of_ascii c).

(** The white space and the line terminators of ECMAScript, which [Number]
    and [trim] skip, by their bytes: U+0009 to U+000D and U+0020 are one
    byte; U+00A0 is two, C2 A0; and three bytes are U+1680 (E1 9A 80),
    U+2000 to U+200A, U+2028, U+2029 and U+202F (E2 80 80 to 8A, A8, A9, AF),
    U+205F (E2 81 9F), U+3000 (E3 80 80) and U+FEFF (EF BB BF). *)
Definition is_white1 (c : ascii) : bool :=
  let n := code c in
  ((9 <=? n) && (n <=? 13)) || (n =? 32).

Definition is_white2 (c1 c2 : ascii) : bool :=
  (code c1 =? 194) && (code c2 =? 160).

Definition is_white3 (c1 c2 c3 : ascii) : bool :=
  let n1 := code c1 in
  let n2 := code c2 in
  let n3 := code c3 in
  ((n1 =? 225) && (n2 =? 154) && (n3 =? 128))
  || ((n1 =? 226) && (n2 =? 128)
      && (((128 <=? n3) && (n3 <=? 138))
          || (n3 =? 168) || (n3 =? 169) || (n3 =? 175)))
  || ((n1 =? 226) && (n2 =? 129) && (n3 =? 159))
  || ((n1 =? 227) && (n2 =? 128) && (n3 =? 128))
  || ((n1 =? 239) && (n2 =? 187) && (n3 =? 191)).

Definition digit_of (radix : Z) (c : ascii) : option Z :=
  let n := code c in
  let v := if (48 <=? n) && (n <=? 57) then n - 48
           else if (97 <=? n) && (n <=? 102) then n - 87
           else if (65 <=? n) && (n <=? 70) then n - 55
           else radix in
  if v <? radix then Some v else None.

(** [s] without the white space at its head. *)
Fixpoint trim_left (s : string) : string :=
  match s with
  | String c1 s1 =>
      if is_white1 c1 then trim_left s1 else
      match s1 with
      | String c2 s2 =>
          if is_white2 c1 c2 then trim_left s2 else
          match s2 with
          | String c3 s3 => if is_white3 c1 c2 c3 then trim_left s3 else s
          | EmptyString => s
          end
      | EmptyString => s
      end
  | EmptyString => EmptyString
  end.

(** [s] without the white space at its end: the bytes of [s] up to the
    point from where on there is white space only.  (No white space begins
    in the middle of another character: none begins with a continuation byte
    of UTF-8.) *)
Fixpoint trim_right (s : string) : string :=
  match s with
  | String c s' =>
      match trim_left s with
      | EmptyString => EmptyString
      | _ => String c (trim_right s')
      end
  | EmptyString => EmptyString
  end.

(** The longest run of digits at the head of [s]: its value after [acc], how
    many digits it has, and what follows it. *)
Fixpoint digits (radix : Z) (s : string) (acc : Z) (count : Z)
  : Z * Z * string :=
  match s with
  | String c s' =>
      match digit_of radix c with
      | Some v => digits radix s' (acc * radix + v) (count + 1)
      | None => (acc, count, s)
      end
  | EmptyString => (acc, count, s)
  end.

(** [0x], [0o] and [0b] literals: digits only, at least one, nothing after. *)
Definition non_decimal (radix : Z) (s : string) : number :=
  match digits radix s 0 0 with
  | (v, count, EmptyString) =>
      if 0 <? count then round_binary64 false v 1 else NaN
  | _ => NaN
  end.

(** The exponent part, [s] being what follows the [e]. *)
Definition exponent (s : string) : option Z :=
  let '(negative, s) :=
    match s with
    | String "+" s' => (false, s')
    | String "-" s' => (true, s')
    | _ => (false, s)
    end in
  match digits 10 s 0 0 with
  | (v, count, EmptyString) =>
      if 0 <? count then Some (if negative then - v else v) else None
  | _ => None
  end.

(** An unsigned decimal literal: [123], [123.], [123.45], [.45], each with an
    optional exponent. *)
Definition unsigned_decimal (negative : bool) (s : string) : number :=
  let '(ip, ni, r1) := digits 10 s 0 0 in
  let '(mant, nf, r2) :=
    match r1 with
    | String "." r => digits 10 r ip 0
    | _ => (ip, 0, r1)
    end in
  if ni + nf =? 0 then NaN else
  match r2 with
  | EmptyString => of_decimal negative mant (- nf)
  | String c r =>
      if (c =? "e")%char || (c =? "E")%char then
        match exponent r with
        | Some x => of_decimal negative mant (x - nf)
        | None => NaN
        end
      else NaN
  end.

Definition signed_decimal (negative : bool) (s : string) : number :=
  if (s =? "Infinity")%string then Infinity negative
  else unsigned_decimal negative s.

(** [Number(s)] for a string [s]. *)
Definition Number (s : string) : number :=
  match trim_right (trim_left s) with
  | EmptyString => Fin 0 0
  | String "+" t => signed_decimal false t
  | String "-" t => signed_decimal true t
  | String "0" (String c t) as u =>
      if (c =? "x")%char || (c =? "X")%char then non_decimal 16 t
      else if (c =? "o")%char || (c =? "O")%char then non_decimal 8 t
      else if (c =? "b")%char || (c =? "B")%char then non_decimal 2 t
      else signed_decimal false u
  | u => signed_decimal false u
  end.

End Js.

(** ** The schema of [initDatabase] *)

Module BookmarkRow.
(** A row of [bookmarks]; the timestamps are the text [datetime('now')]
    returns. *)
Record t : Type := mk {
  id : Z;
  title : string;
  url : string;
  description : string;
  favicon : string;
  created_at : string;
  updated_at : string
}.
End BookmarkRow.

Module Tag.
(** A row of [tags], which is also the [Tag] the handlers send. *)
Record t : Type := mk {
  id : Z;
  name : string;
  color : string
}.
End Tag.

Module BookmarkTag.
(** A row of [bookmark_tags]. *)
Record t : Type := mk {
  bookmark_id : Z;
  tag_id : Z
}.
End BookmarkTag.

Module BookmarkWithTags.
Record t : Type := mk {
  id : Z;
  title : string;
  url : string;
  description : string;
  favicon : string;
  createdAt : string;
  updatedAt : string;
  tags : list Tag.t
}.
End BookmarkWithTags.

#[global] Instance BookmarkRow_eq_dec : EqDecision BookmarkRow.t.
Proof. solve_decision. Defined.

#[global] Instance Tag_eq_dec : EqDecision Tag.t.
Proof. solve_decision. Defined.

#[global] Instance BookmarkTag_eq_dec : EqDecision BookmarkTag.t.
Proof. solve_decision. Defined.

(** The three tables, and for the two AUTOINCREMENT tables the largest rowid
    ever handed out (their entry in [sqlite_sequence]). *)
Record Database : Type := mkDatabase {
  bookmarks : list BookmarkRow.t;
  tags : list Tag.t;
  bookmark_tags : list BookmarkTag.t;
  seq_bookmarks : Z;
  seq_tags : Z
}.

(** A database file that has just been created: [CREATE TABLE IF NOT EXISTS]
    three times, with [foreign_keys = ON]. *)
Definition initDatabase : Database :=
  {| bookmarks := []; tags := []; bookmark_tags := [];
     seq_bookmarks := 0; seq_tags := 0 |}.

(** ** Exceptions and handlers *)

Inductive SqliteCode : Type :=
  | SQLITE_CONSTRAINT_UNIQUE
  | SQLITE_CONSTRAINT_FOREIGNKEY
  | SQLITE_FULL
  | SQLITE_IOERR
  | SQLITE_BUSY.

(** What a handler can throw: the [AppError] of [errorHandler.ts] (its message
    is left out), the [SqliteError] of the driver, and the [TypeError] of
    reading a field of [undefined]. *)
Inductive Exn : Type :=
  | AppError (statusCode : Z)
  | SqliteError (code : SqliteCode)
  | TypeError.

(** [errorHandler]: the status of the response to a thrown error. *)
Definition errorHandler (err : Exn) : Z :=
  match err with
  | AppError statusCode => statusCode
  | _ => 500
  end.

(** A computation on the connection: the database it leaves, and what it
    returns or throws.  The database of a computation that throws is the one
    at the throw. *)
Definition M (A : Type) : Type := Database → Database * (Exn + A).

#[global] Instance M_ret : MRet M := λ A x db, (db, inr x).

#[global] Instance M_bind : MBind M := λ A B f m db,
  match m db with
  | (db', inr x) => f x db'
  | (db', inl err) => (db', inl err)
  end.

Definition throw {A : Type} (err : Exn) : M A := λ db, (db, inl err).

(** [try { body } catch { handler }] *)
Definition try_catch {A : Type} (body : M A) (handler : Exn → M A) : M A :=
  λ db,
    match body db with
    | (db', inl err) => handler err db'
    | r => r
    end.

(** A statement that only reads. *)
Definition query {A : Type} (f : Database → A) : M A :=
  λ db, (db, inr (f db)).

(** [for (const x of l) body(x)] *)
Fixpoint for_of {A : Type} (l : list A) (body : A → M unit) : M unit :=
  match l with
  | [] => mret tt
  | x :: l' => body x ≫= λ _, for_of l' body
  end.

(** [l.map(f)] for an [f] that reads the database. *)
Fixpoint map_M {A B : Type} (f : A → M B) (l : list A) : M (list B) :=
  match l with
  | [] => mret []
  | x :: l' => y ← f x; ys ← map_M f l'; mret (y :: ys)
  end.

(** ** The statements *)

(** The largest rowid in use. *)
Definition max_rowid (ids : list Z) : Z := foldr Z.max 0 ids.

(** The rowid AUTOINCREMENT gives the next row: one more than the largest of
    the rowids in the table and the one recorded in [sqlite_sequence]. *)
Definition next_rowid (ids : list Z) (seq : Z) : Z :=
  Z.max (max_rowid ids) seq + 1.

(** [ORDER BY created_at DESC], on the text of the timestamp.  Rows with the
    same timestamp keep the order of the scan. *)
Fixpoint insert_desc (r : BookmarkRow.t) (l : list BookmarkRow.t)
  : list BookmarkRow.t :=
  match l with
  | [] => [r]
  | r' :: l' =>
      if String.leb (BookmarkRow.created_at r') (BookmarkRow.created_at r)
      then r :: l
      else r' :: insert_desc r l'
  end.

Definition order_by_created_at_desc (l : list BookmarkRow.t)
  : list BookmarkRow.t :=
  foldr insert_desc [] l.

(** [SELECT * FROM bookmarks WHERE id = ?] with [.get(id)] *)
Definition select_bookmark (id : Js.number) (db : Database)
  : option BookmarkRow.t :=
  match Js.to_int id with
  | Some z => find (λ r, BookmarkRow.id r =? z) (bookmarks db)
  | None => None
  end.

(** [SELECT * FROM bookmarks ORDER BY created_at DESC] *)
Definition select_bookmarks (db : Database) : list BookmarkRow.t :=
  order_by_created_at_desc (bookmarks db).

(** [SELECT DISTINCT b.* FROM bookmarks b JOIN bookmark_tags bt
     ON b.id = bt.bookmark_id WHERE bt.tag_id = ? ORDER BY b.created_at DESC].
    SQLite scans [bookmark_tags] and looks up the bookmark of each row, so
    that bookmarks with the same [created_at] come in the order of their
    rows in [bookmark_tags]. *)
Definition select_bookmarks_by_tag (tag : Js.number) (db : Database)
  : list BookmarkRow.t :=
  order_by_created_at_desc
    (remove_dups
       (bt ← bookmark_tags db;
        b ← bookmarks db;
        if decide (BookmarkRow.id b = BookmarkTag.bookmark_id bt
                   ∧ Js.to_int tag = Some (BookmarkTag.tag_id bt))
        then [b] else [])).

(** The upper case of a byte, for the 26 letters of ASCII, the only ones
    whose case LIKE folds. *)
Definition upper (c : ascii) : ascii :=
  let n := Js.code c in
  if (97 <=? n) && (n <=? 122) then ascii_of_nat (Z.to_nat (n - 32)) else c.

(** *** The characters that LIKE reads

    LIKE takes its pattern and its text as C strings of UTF-8 and reads them
    character by character: a string ends at its first NUL byte; a byte
    below C0 is a character; a byte from C0 on begins a character, which
    takes every continuation byte (80 to BF) that follows. *)

(** What a lead byte gives to its character. *)
Definition utf8_lead (b : Z) : Z :=
  if b <? 224 then b - 192
  else if b <? 240 then b - 224
  else if b <? 248 then b - 240
  else if b <? 252 then b - 248
  else if b <? 254 then b - 252
  else 0.

(** The character read from a lead byte and its continuation bytes: U+FFFD
    for what is below 80, a surrogate, U+FFFE or U+FFFF. *)
Definition utf8_char (c : Z) : Z :=
  if (c <? 128) || (Z.land c 4294965248 =? 55296)
     || (Z.land c 4294967294 =? 65534)
  then 65533 else c.

(** The characters of [s] that come after the character begun in [pending],
    with that character first. *)
Fixpoint utf8_chars (pending : option Z) (s : string) : list Z :=
  match s with
  | EmptyString =>
      match pending with Some c => [utf8_char c] | None => [] end
  | String b s' =>
      let n := Js.code b in
      if (128 <=? n) && (n <? 192) then
        match pending with
        | Some c =>
            utf8_chars (Some ((c * 64 + Z.land n 63) mod 2 ^ 32)) s'
        | None => n :: utf8_chars None s'
        end
      else
        match pending with Some c => [utf8_char c] | None => [] end ++
        (if n =? 0 then []
         else if 192 <=? n then utf8_chars (Some (utf8_lead n)) s'
         else n :: utf8_chars None s')
  end.

(** The lower case of a character, for the 26 letters of ASCII. *)
Definition tolower (c : Z) : Z :=
  if (65 <=? c) && (c <=? 90) then c + 32 else c.

(** The character [p] of a pattern stands for the character [c]: it is [c],
    or both are letters of ASCII that differ in case only. *)
Definition same_char (p c : Z) : bool :=
  (p =? c) || ((p <? 128) && (c <? 128) && (tolower p =? tolower c)).

(** LIKE on characters, without ESCAPE: [%] (37) stands for any run of
    characters, [_] (95) for any one character, every other character for
    itself up to case. *)
Fixpoint like_chars (pattern text : list Z) : bool :=
  match pattern with
  | [] =>
      match text with [] => true | _ => false end
  | p :: pattern' =>
      if p =? 37 then
        (fix skip (text : list Z) : bool :=
           like_chars pattern' text ||
           match text with
           | _ :: text' => skip text'
           | [] => false
           end) text
      else
        match text with
        | c :: text' =>
            ((p =? 95) || same_char p c) && like_chars pattern' text'
        | [] => false
        end
  end.

(** [text LIKE pattern] *)
Definition like (pattern text : string) : bool :=
  like_chars (utf8_chars None pattern) (utf8_chars None text).

(** [SELECT * FROM bookmarks WHERE title LIKE ? OR url LIKE ? OR
     description LIKE ? ORDER BY created_at DESC].  (SQLite refuses a
    pattern of more than 50000 bytes; a search that long does not reach
    the handler, the server of [app.listen] taking no request line and
    headers of more than 16 KiB.) *)
Definition select_bookmarks_like (p1 p2 p3 : string) (db : Database)
  : list BookmarkRow.t :=
  order_by_created_at_desc
    (filter (λ b, like p1 (BookmarkRow.title b)
                  || like p2 (BookmarkRow.url b)
                  || like p3 (BookmarkRow.description b))
            (bookmarks db)).

(** [SELECT t.* FROM tags t JOIN bookmark_tags bt ON t.id = bt.tag_id
     WHERE bt.bookmark_id = ?] *)
Definition select_tags_of (bookmark : Z) (db : Database) : list Tag.t :=
  t ← tags db;
  bt ← bookmark_tags db;
  if decide (Tag.id t = BookmarkTag.tag_id bt
             ∧ BookmarkTag.bookmark_id bt = bookmark)
  then [t] else [].

(** [SELECT * FROM tags WHERE id = ?] with [.get(id)] *)
Definition select_tag (id : Js.number) (db : Database) : option Tag.t :=
  match Js.to_int id with
  | Some z => find (λ t, Tag.id t =? z) (tags db)
  | None => None
  end.

(** [INSERT INTO bookmarks (title, url, description, favicon)
     VALUES (?, ?, ?, ?)], returning [lastInsertRowid].  Both timestamps
    default to [datetime('now')], which is one value within a statement. *)
Definition insert_bookmark (now title url description favicon : string)
  : M Z :=
  λ db,
    let id := next_rowid (BookmarkRow.id <$> bookmarks db) (seq_bookmarks db) in
    ({| bookmarks :=
          bookmarks db ++
            [BookmarkRow.mk id title url description favicon now now];
        tags := tags db;
        bookmark_tags := bookmark_tags db;
        seq_bookmarks := id;
        seq_tags := seq_tags db |},
     inr id).

(** [INSERT OR IGNORE INTO bookmark_tags (bookmark_id, tag_id) VALUES (?, ?)].
    A pair that is already there is passed over.  OR IGNORE does not cover
    the foreign keys: with [foreign_keys = ON] a pair whose bookmark or tag
    does not exist fails the statement. *)
Definition insert_bookmark_tag (bookmark : Js.number) (tag : Z) : M unit :=
  λ db,
    match bookmark with
    | Js.NaN => (db, inr tt)
    | _ =>
      match Js.to_int bookmark with
      | Some b =>
          let bt := BookmarkTag.mk b tag in
          if decide (bt ∈ bookmark_tags db) then (db, inr tt)
          else if decide (b ∈ BookmarkRow.id <$> bookmarks db
                          ∧ tag ∈ Tag.id <$> tags db)
          then ({| bookmarks := bookmarks db;
                   tags := tags db;
                   bookmark_tags := bookmark_tags db ++ [bt];
                   seq_bookmarks := seq_bookmarks db;
                   seq_tags := seq_tags db |},
                inr tt)
          else (db, inl (SqliteError SQLITE_CONSTRAINT_FOREIGNKEY))
      | None => (db, inl (SqliteError SQLITE_CONSTRAINT_FOREIGNKEY))
      end
    end.

(** [DELETE FROM bookmark_tags WHERE bookmark_id = ?] *)
Definition delete_bookmark_tags (bookmark : Js.number) : M unit :=
  λ db,
    ({| bookmarks := bookmarks db;
        tags := tags db;
        bookmark_tags :=
          filter (λ bt, Js.to_int bookmark ≠ Some (BookmarkTag.bookmark_id bt))
                 (bookmark_tags db);
        seq_bookmarks := seq_bookmarks db;
        seq_tags := seq_tags db |},
     inr tt).

(** [UPDATE bookmarks SET title = ?, url = ?, description = ?, favicon = ?,
     updated_at = datetime('now') WHERE id = ?] *)
Definition update_bookmark (title url description favicon now : string)
    (id : Js.number) : M unit :=
  λ db,
    ({| bookmarks :=
          (λ r, if decide (Js.to_int id = Some (BookmarkRow.id r))
                then BookmarkRow.mk (BookmarkRow.id r) title url description
                       favicon (BookmarkRow.created_at r) now
                else r) <$> bookmarks db;
        tags := tags db;
        bookmark_tags := bookmark_tags db;
        seq_bookmarks := seq_bookmarks db;
        seq_tags := seq_tags db |},
     inr tt).

(** [DELETE FROM bookmarks WHERE id = ?], with the ON DELETE CASCADE of
    [bookmark_tags.bookmark_id] in the same statement. *)
Definition delete_bookmark (id : Js.number) : M unit :=
  λ db,
    ({| bookmarks :=
          filter (λ r, Js.to_int id ≠ Some (BookmarkRow.id r)) (bookmarks db);
        tags := tags db;
        bookmark_tags :=
          filter (λ bt, Js.to_int id ≠ Some (BookmarkTag.bookmark_id bt))
                 (bookmark_tags db);
        seq_bookmarks := seq_bookmarks db;
        seq_tags := seq_tags db |},
     inr tt).

(** [INSERT INTO tags (name, color) VALUES (?, ?)], returning
    [lastInsertRowid].  [io] is what the storage below the statement does:
    [None] when it runs it, [Some code] when it fails it (a full disk, an I/O
    error, a locked file).  A name that is already there violates UNIQUE. *)
Definition insert_tag (io : option SqliteCode) (name color : string) : M Z :=
  λ db,
    match io with
    | Some code => (db, inl (SqliteError code))
    | None =>
        if decide (name ∈ Tag.name <$> tags db)
        then (db, inl (SqliteError SQLITE_CONSTRAINT_UNIQUE))
        else
          let id := next_rowid (Tag.id <$> tags db) (seq_tags db) in
          ({| bookmarks := bookmarks db;
              tags := tags db ++ [Tag.mk id name color];
              bookmark_tags := bookmark_tags db;
              seq_bookmarks := seq_bookmarks db;
              seq_tags := id |},
           inr id)
    end.

(** [DELETE FROM tags WHERE id = ?], with the ON DELETE CASCADE of
    [bookmark_tags.tag_id] in the same statement. *)
Definition delete_tag (id : Js.number) : M unit :=
  λ db,
    ({| bookmarks := bookmarks db;
        tags := filter (λ t, Js.to_int id ≠ Some (Tag.id t)) (tags db);
        bookmark_tags :=
          filter (λ bt, Js.to_int id ≠ Some (BookmarkTag.tag_id bt))
                 (bookmark_tags db);
        seq_bookmarks := seq_bookmarks db;
        seq_tags := seq_tags db |},
     inr tt).

(** ** The requests

    A body is the JSON of the request as [express.json()] leaves it, read
    without a check: each field is missing, [null], or a value of the type
    that [@bookmark/shared] declares for it. *)

Module CreateBookmarkRequest.
(** The body of POST /api/bookmarks.  The cast [req.body as
    CreateBookmarkRequest] checks nothing, so every field can be missing or
    [null]; the handler takes the two alike ([!title], [description ?? ""],
    [tagIds && ...]), and [None] is both. *)
Record t : Type := mk {
  title : option string;
  url : option string;
  description : option string;
  favicon : option string;
  tagIds : option (list Z)
}.
End CreateBookmarkRequest.

(** A field that the code compares with [undefined], so that [null] is a
    third case. *)
Inductive nullable (A : Type) : Type :=
  | Undefined
  | Null
  | Value (a : A).

Arguments Undefined {A}.
Arguments Null {A}.
Arguments Value {A} a.

(** The value of a field, [d] where it has none. *)
Definition value_or {A : Type} (d : A) (field : nullable A) : A :=
  match field with
  | Value a => a
  | _ => d
  end.

Module UpdateBookmarkRequest.
(** The body of PUT /api/bookmarks/:id.  [??] takes [null] as it takes
    [undefined], so [None] is both for the four strings; [tagIds] is compared
    with [undefined], and [null] passes as present. *)
Record t : Type := mk {
  title : option string;
  url : option string;
  description : option string;
  favicon : option string;
  tagIds : nullable (list Z)
}.
End UpdateBookmarkRequest.

Module CreateTagRequest.
(** The body of POST /api/tags, [Pick<Tag, "name" | "color">]; [None] is a
    field that is missing or [null] ([!name], [color ?? "#6366f1"]). *)
Record t : Type := mk {
  name : option string;
  color : option string
}.
End CreateTagRequest.

(** The truth value of a string that may be [undefined] or [null]: a string
    that is there and not empty. *)
Definition truthy (s : option string) : bool :=
  match s with
  | Some s => negb (s =? "")%string
  | None => false
  end.

(** ** [routes/bookmarkRoutes.ts] *)

(** [attachTags(row)] *)
Definition attachTags (row : BookmarkRow.t) : M BookmarkWithTags.t :=
  tags ← query (select_tags_of (BookmarkRow.id row));
  mret {| BookmarkWithTags.id := BookmarkRow.id row;
          BookmarkWithTags.title := BookmarkRow.title row;
          BookmarkWithTags.url := BookmarkRow.url row;
          BookmarkWithTags.description := BookmarkRow.description row;
          BookmarkWithTags.favicon := BookmarkRow.favicon row;
          BookmarkWithTags.createdAt := BookmarkRow.created_at row;
          BookmarkWithTags.updatedAt := BookmarkRow.updated_at row;
          BookmarkWithTags.tags := tags |}.

(** [attachTags(row)] for a [row] that [.get] may have left [undefined]. *)
Definition attachTags_of (row : option BookmarkRow.t) : M BookmarkWithTags.t :=
  match row with
  | Some row => attachTags row
  | None => throw TypeError
  end.

(** GET /api/bookmarks, [search] and [tagId] being [req.query.search] and
    [req.query.tagId], each a string or missing, as they are for a query
    that has the parameter once at most. *)
Definition listBookmarks (search tagId : option string)
  : M (list BookmarkWithTags.t) :=
  if truthy tagId then
    rows ← query (select_bookmarks_by_tag (Js.Number (default "" tagId)));
    map_M attachTags rows
  else if truthy search then
    let pattern := "%" +:+ default "" search +:+ "%" in
    rows ← query (select_bookmarks_like pattern pattern pattern);
    map_M attachTags rows
  else
    rows ← query select_bookmarks;
    map_M attachTags rows.

(** GET /api/bookmarks/:id, from [const id = Number(req.params.id)] on. *)
Definition getBookmark (id : Js.number) : M BookmarkWithTags.t :=
  if Js.isNaN id then throw (AppError 400) else
  row ← query (select_bookmark id);
  match row with
  | None => throw (AppError 404)
  | Some row => attachTags row
  end.

(** POST /api/bookmarks, [now] being the clock of the INSERT.  The rowid
    SQLite returns is a number as it is: [Number(result.lastInsertRowid)] is
    [Js.of_int newId]. *)
Definition createBookmark (now : string) (body : CreateBookmarkRequest.t)
  : M BookmarkWithTags.t :=
  let title := CreateBookmarkRequest.title body in
  let url := CreateBookmarkRequest.url body in
  let description := CreateBookmarkRequest.description body in
  let favicon := CreateBookmarkRequest.favicon body in
  let tagIds := CreateBookmarkRequest.tagIds body in
  if negb (truthy title) || negb (truthy url) then throw (AppError 400) else
  newId ← insert_bookmark now (default "" title) (default "" url)
            (default "" description) (default "" favicon);
  _ ← match tagIds with
      | Some tagIds =>
          if 0 <? Z.of_nat (length tagIds) then
            for_of tagIds (λ tagId,
              insert_bookmark_tag (Js.of_int newId) tagId)
          else mret tt
      | None => mret tt
      end;
  row ← query (select_bookmark (Js.of_int newId));
  attachTags_of row.

(** PUT /api/bookmarks/:id, from [const id = Number(req.params.id)] on, [now]
    being the clock of the UPDATE.  For [tagIds: null] the test
    [body.tagIds !== undefined] holds, the DELETE runs, and reading
    [body.tagIds.length] throws a TypeError. *)
Definition updateBookmark (now : string) (id : Js.number)
    (body : UpdateBookmarkRequest.t) : M BookmarkWithTags.t :=
  if Js.isNaN id then throw (AppError 400) else
  existing ← query (select_bookmark id);
  match existing with
  | None => throw (AppError 404)
  | Some existing =>
      let title :=
        default (BookmarkRow.title existing) (UpdateBookmarkRequest.title body) in
      let url :=
        default (BookmarkRow.url existing) (UpdateBookmarkRequest.url body) in
      let description :=
        default (BookmarkRow.description existing)
                (UpdateBookmarkRequest.description body) in
      let favicon :=
        default (BookmarkRow.favicon existing)
                (UpdateBookmarkRequest.favicon body) in
      _ ← update_bookmark title url description favicon now id;
      _ ← match UpdateBookmarkRequest.tagIds body with
          | Undefined => mret tt
          | tagIds =>
              _ ← delete_bookmark_tags id;
              match tagIds with
              | Value tagIds =>
                  if 0 <? Z.of_nat (length tagIds) then
                    for_of tagIds (λ tagId, insert_bookmark_tag id tagId)
                  else mret tt
              | _ => throw TypeError
              end
          end;
      row ← query (select_bookmark id);
      attachTags_of row
  end.

(** DELETE /api/bookmarks/:id, from [const id = Number(req.params.id)] on;
    it sends the [id]. *)
Definition deleteBookmark (id : Js.number) : M Js.number :=
  if Js.isNaN id then throw (AppError 400) else
  existing ← query (select_bookmark id);
  match existing with
  | None => throw (AppError 404)
  | Some _ =>
      _ ← delete_bookmark id;
      mret id
  end.

(** ** [routes/tagRoutes.ts] *)

(** POST /api/tags.  The inner [try] has the INSERT in it and its [catch]
    binds nothing. *)
Definition createTag (io : option SqliteCode) (body : CreateTagRequest.t)
  : M Tag.t :=
  let name := CreateTagRequest.name body in
  let color := CreateTagRequest.color body in
  if negb (truthy name) then throw (AppError 400) else
  try_catch
    (newId ← insert_tag io (default "" name) (default "#6366f1" color);
     mret {| Tag.id := newId;
             Tag.name := default "" name;
             Tag.color := default "#6366f1" color |})
    (λ _, throw (AppError 409)).

(** DELETE /api/tags/:id, from [const id = Number(req.params.id)] on. *)
Definition deleteTag (id : Js.number) : M Js.number :=
  if Js.isNaN id then throw (AppError 400) else
  existing ← query (select_tag id);
  match existing with
  | None => throw (AppError 404)
  | Some _ =>
      _ ← delete_tag id;
      mret id
  end.

(** ** The routes with an [:id], [params_id] being [req.params.id] *)

Definition get_bookmark_route (params_id : string) : M BookmarkWithTags.t :=
  getBookmark (Js.Number params_id).

Definition put_bookmark_route (now params_id : string)
    (body : UpdateBookmarkRequest.t) : M BookmarkWithTags.t :=
  updateBookmark now (Js.Number params_id) body.

Definition delete_bookmark_route (params_id : string) : M Js.number :=
  deleteBookmark (Js.Number params_id).

Definition delete_tag_route (params_id : string) : M Js.number :=
  deleteTag (Js.Number params_id).

(** ** The words of the specification *)

(** [s] is at the head of [text], up to the case of ASCII letters. *)
Fixpoint prefix_ci (s text : string) : bool :=
  match s with
  | EmptyString => true
  | String a s' =>
      match text with
      | String b text' => (upper a =? upper b)%char && prefix_ci s' text'
      | EmptyString => false
      end
  end.

(** [text] contains [s] as a case-insensitive substring. *)
Fixpoint contains_ci (s text : string) : bool :=
  prefix_ci s text ||
  match text with
  | String _ text' => contains_ci s text'
  | EmptyString => false
  end.

(** [s] has neither of the two characters LIKE reads as wildcards. *)
Fixpoint wildcard_free (s : string) : bool :=
  match s with
  | EmptyString => true
  | String c s' =>
      negb (c =? "%")%char && negb (c =? "_")%char && wildcard_free s'
  end.

(** Every byte of [s] is a character of ASCII other than NUL. *)
Fixpoint ascii_text (s : string) : bool :=
  match s with
  | EmptyString => true
  | String c s' => (0 <? Js.code c) && (Js.code c <? 128) && ascii_text s'
  end.

(** The bytes of [s] before its first NUL byte: the C string at [s]. *)
Fixpoint c_string (s : string) : string :=
  match s with
  | EmptyString => EmptyString
  | String c s' =>
      if Js.code c =? 0 then EmptyString else String c (c_string s')
  end.

(** The upper case of a character, for the 26 letters of ASCII. *)
Definition toupper (c : Z) : Z :=
  if (97 <=? c) && (c <=? 122) then c - 32 else c.

(** ** Stores used as examples *)

Module Examples.

Definition t0 : string := "2024-05-01 10:00:00".
Definition t1 : string := "2024-05-01 10:00:05".
Definition t2 : string := "2024-05-02 08:30:00".

(** Two tags, [work] with id 1 and [play] with id 2. *)
Definition two_tags : Database :=
  (createTag None (CreateTagRequest.mk (Some "play") None)
     (createTag None (CreateTagRequest.mk (Some "work") (Some "#ff0000"))
        initDatabase).1).1.

(** The two tags and a bookmark with the tag [work]. *)
Definition one_bookmark : Database :=
  (createBookmark t0
     (CreateBookmarkRequest.mk (Some "A") (Some "http://a") None None
        (Some [1]))
     two_tags).1.

(** Bookmarks titled GitHub and Example. *)
Definition github : Database :=
  (createBookmark t1
     (CreateBookmarkRequest.mk (Some "Example") (Some "https://example.com")
        (Some "a site") None None)
     (createBookmark t0
        (CreateBookmarkRequest.mk (Some "GitHub") (Some "https://github.com")
           None None None)
        initDatabase).1).1.

End Examples.

(** ** States and invariants *)

(** The requests that can write, each with what decides its outcome. *)
Inductive Request : Type :=
  | CreateBookmark (now : string) (body : CreateBookmarkRequest.t)
  | UpdateBookmark (now : string) (id : Js.number)
      (body : UpdateBookmarkRequest.t)
  | DeleteBookmark (id : Js.number)
  | CreateTag (io : option SqliteCode) (body : CreateTagRequest.t)
  | DeleteTag (id : Js.number).

(** The store a request leaves.  A request that throws leaves one too, with
    whatever it had written. *)
Definition handle (r : Request) (db : Database) : Database :=
  match r with
  | CreateBookmark now body => (createBookmark now body db).1
  | UpdateBookmark now id body => (updateBookmark now id body db).1
  | DeleteBookmark id => (deleteBookmark id db).1
  | CreateTag io body => (createTag io body db).1
  | DeleteTag id => (deleteTag id db).1
  end.

(** The stores the server gets to from a new database file by requests that
    are all [allowed]. *)
Inductive reachable_by (allowed : Request → Prop) : Database → Prop :=
  | reachable_init : reachable_by allowed initDatabase
  | reachable_step r db :
      reachable_by allowed db → allowed r →
      reachable_by allowed (handle r db).

(** The stores the server can be in. *)
Definition reachable : Database → Prop := reachable_by (λ _, True).

(** An update that sets the title or the url to the empty string is the
    request this excludes. *)
Definition sets_no_empty (r : Request) : Prop :=
  match r with
  | UpdateBookmark _ _ body =>
      UpdateBookmarkRequest.title body ≠ Some ""
      ∧ UpdateBookmarkRequest.url body ≠ Some ""
  | _ => True
  end.

(** Referential integrity of [bookmark_tags]. *)
Definition fk_ok (db : Database) : Prop :=
  ∀ bt, bt ∈ bookmark_tags db →
    BookmarkTag.bookmark_id bt ∈ BookmarkRow.id <$> bookmarks db
    ∧ BookmarkTag.tag_id bt ∈ Tag.id <$> tags db.

(** Every stored bookmark has a title and a url. *)
Definition titled (db : Database) : Prop :=
  ∀ r, r ∈ bookmarks db →
    BookmarkRow.title r ≠ "" ∧ BookmarkRow.url r ≠ "".

(** [m] keeps [P], whether it returns or throws. *)
Definition preserves {A : Type} (P : Database → Prop) (m : M A) : Prop :=
  ∀ db, P db → P (m db).1.

(** [m] only reads. *)
Definition read_only {A : Type} (m : M A) : Prop :=
  ∀ db, (m db).1 = db.

(** What [rows.map((row) => attachTags(row))] returns. *)
Definition attach (db : Database) (row : BookmarkRow.t) : BookmarkWithTags.t :=
  {| BookmarkWithTags.id := BookmarkRow.id row;
     BookmarkWithTags.title := BookmarkRow.title row;
     BookmarkWithTags.url := BookmarkRow.url row;
     BookmarkWithTags.description := BookmarkRow.description row;
     BookmarkWithTags.favicon := BookmarkRow.favicon row;
     BookmarkWithTags.createdAt := BookmarkRow.created_at row;
     BookmarkWithTags.updatedAt := BookmarkRow.updated_at row;
     BookmarkWithTags.tags := select_tags_of (BookmarkRow.id row) db |}.

(** The row an INSERT into [bookmarks] writes. *)
Definition new_row (now title url description favicon : string)
    (db : Database) : BookmarkRow.t :=
  BookmarkRow.mk
    (next_rowid (BookmarkRow.id <$> bookmarks db) (seq_bookmarks db))
    title url description favicon now now.

(** [a] may come before [b] under [ORDER BY created_at DESC]. *)
Definition created_not_before (a b : BookmarkRow.t) : Prop :=
  String.leb (BookmarkRow.created_at b) (BookmarkRow.created_at a) = true.

(** [a] may come before [b] in a list ordered by [createdAt] descending. *)
Definition not_older (a b : BookmarkWithTags.t) : Prop :=
  String.leb (BookmarkWithTags.createdAt b) (BookmarkWithTags.createdAt a)
  = true.

(** * The rest of the server, and the client *)

(** ** GET /api/tags *)

(** [ORDER BY name ASC], on the bytes of the name.  Rows with the same name
    keep the order of the scan. *)
Fixpoint insert_name_asc (t : Tag.t) (l : list Tag.t) : list Tag.t :=
  match l with
  | [] => [t]
  | t' :: l' =>
      if String.leb (Tag.name t) (Tag.name t')
      then t :: l
      else t' :: insert_name_asc t l'
  end.

Definition order_by_name_asc (l : list Tag.t) : list Tag.t :=
  foldr insert_name_asc [] l.

(** [SELECT * FROM tags ORDER BY name ASC] *)
Definition select_tags (db : Database) : list Tag.t :=
  order_by_name_asc (tags db).

(** GET /api/tags *)
Definition listTags : M (list Tag.t) := query select_tags.

(** ** Sequences of requests and the keys of the schema *)

(** The store after the requests [rs], the first of them first. *)
Fixpoint handle_all (rs : list Request) (db : Database) : Database :=
  match rs with
  | [] => db
  | r :: rs' => handle_all rs' (handle r db)
  end.

(** The PRIMARY KEY of each table and the UNIQUE of [tags.name]. *)
Definition keys_ok (db : Database) : Prop :=
  NoDup (BookmarkRow.id <$> bookmarks db)
  ∧ NoDup (Tag.id <$> tags db)
  ∧ NoDup (Tag.name <$> tags db)
  ∧ NoDup (bookmark_tags db).

(** [sqlite_sequence] is not behind the rowids in use. *)
Definition seq_ok (db : Database) : Prop :=
  (∀ z, z ∈ BookmarkRow.id <$> bookmarks db → z ≤ seq_bookmarks db)
  ∧ (∀ z, z ∈ Tag.id <$> tags db → z ≤ seq_tags db).

(** [t1] may come before [t2] under [ORDER BY name ASC]. *)
Definition name_not_after (t1 t2 : Tag.t) : Prop :=
  String.leb (Tag.name t1) (Tag.name t2) = true.

(** ** The rows [listBookmarks] sends *)

(** The rows of the SELECT that [listBookmarks] runs for its parameters. *)
Definition listed_rows (search tagId : option string) (db : Database)
  : list BookmarkRow.t :=
  if truthy tagId then
    select_bookmarks_by_tag (Js.Number (default "" tagId)) db
  else if truthy search then
    let pattern := "%" +:+ default "" search +:+ "%" in
    select_bookmarks_like pattern pattern pattern db
  else select_bookmarks db.

(** [s] with its ASCII letters in upper case. *)
Fixpoint upper_string (s : string) : string :=
  match s with
  | EmptyString => EmptyString
  | String c s' => String (upper c) (upper_string s')
  end.

(** ** The list of bookmarks the client keeps *)

(** [setBookmarks((prev) => [bookmark, ...prev])], in [addBookmark] of
    [useBookmarks] and in [handleSave] of [App]. *)
Definition addBookmark (bookmark : BookmarkWithTags.t)
    (prev : list BookmarkWithTags.t) : list BookmarkWithTags.t :=
  bookmark :: prev.

(** [setBookmarks((prev) => prev.map((b) => (b.id === bookmark.id ? bookmark
    : b)))], in [updateBookmarkInList] of [useBookmarks] and in [handleSave]
    of [App]. *)
Definition updateBookmarkInList (bookmark : BookmarkWithTags.t)
    (prev : list BookmarkWithTags.t) : list BookmarkWithTags.t :=
  (λ b, if decide (BookmarkWithTags.id b = BookmarkWithTags.id bookmark)
        then bookmark else b) <$> prev.

(** [setBookmarks((prev) => prev.filter((b) => b.id !== id))], in
    [removeBookmark] of [useBookmarks] and in [handleDelete] of [App]. *)
Definition removeBookmark (id : Z) (prev : list BookmarkWithTags.t)
  : list BookmarkWithTags.t :=
  filter (λ b, BookmarkWithTags.id b ≠ id) prev.

(** [handleSave] of [App]: with a bookmark being edited the saved one takes
    the place of the one with its id, without one it goes to the front. *)
Definition handleSave (editingBookmark : option BookmarkWithTags.t)
    (bookmark : BookmarkWithTags.t) (prev : list BookmarkWithTags.t)
  : list BookmarkWithTags.t :=
  match editingBookmark with
  | Some _ => updateBookmarkInList bookmark prev
  | None => addBookmark bookmark prev
  end.

(** The row the UPDATE of a PUT makes of a row [r] with the id of
    [existing], the row the handler read: the values of the request where
    it has them and those of [existing] where not, [updated_at] from the
    clock. *)
Definition patched_row (now : string) (body : UpdateBookmarkRequest.t)
    (existing r : BookmarkRow.t) : BookmarkRow.t :=
  BookmarkRow.mk (BookmarkRow.id r)
    (default (BookmarkRow.title existing) (UpdateBookmarkRequest.title body))
    (default (BookmarkRow.url existing) (UpdateBookmarkRequest.url body))
    (default (BookmarkRow.description existing)
       (UpdateBookmarkRequest.description body))
    (default (BookmarkRow.favicon existing)
       (UpdateBookmarkRequest.favicon body))
    (BookmarkRow.created_at r) now.

(** ** The tags chosen on the client *)

(** [prev.includes(tagId) ? prev.filter((id) => id !== tagId)
    : [...prev, tagId]], in [handleToggleTag] of [BookmarkForm] and in
    [handleQuickTag] of [BookmarkCard]. *)
Definition toggle (tagId : Z) (prev : list Z) : list Z :=
  if decide (tagId ∈ prev) then filter (λ id, id ≠ tagId) prev
  else prev ++ [tagId].

(** The body [handleQuickTag] of [BookmarkCard] sends to PUT
    /api/bookmarks/:id: [{ tagIds: newTagIds }]. *)
Definition quick_tag_request (bookmark : BookmarkWithTags.t) (tagId : Z)
  : UpdateBookmarkRequest.t :=
  let currentTagIds := Tag.id <$> BookmarkWithTags.tags bookmark in
  UpdateBookmarkRequest.mk None None None None
    (Value (toggle tagId currentTagIds)).

(** ** The form *)

(** [s.trim()], with the white space that [Number] skips. *)
Definition trim (s : string) : string := Js.trim_right (Js.trim_left s).

(** The [data] that [handleSubmit] of [BookmarkForm] sends, [None] when it
    sets the error for a missing title or url and sends nothing. *)
Definition form_data (title url description : string)
    (selectedTagIds : list Z) : option CreateBookmarkRequest.t :=
  if (trim title =? "")%string || (trim url =? "")%string then None
  else
    Some (CreateBookmarkRequest.mk
            (Some (trim title))
            (Some (trim url))
            (if (trim description =? "")%string then None
             else Some (trim description))
            None
            (if 0 <? Z.of_nat (length selectedTagIds)
             then Some selectedTagIds else None)).

(** The body of the PUT that [api.updateBookmark(editingBookmark.id, data)]
    sends for the [data] of the form: [JSON.stringify] leaves out what is
    [undefined]. *)
Definition as_update (data : CreateBookmarkRequest.t)
  : UpdateBookmarkRequest.t :=
  UpdateBookmarkRequest.mk
    (CreateBookmarkRequest.title data)
    (CreateBookmarkRequest.url data)
    (CreateBookmarkRequest.description data)
    (CreateBookmarkRequest.favicon data)
    (match CreateBookmarkRequest.tagIds data with
     | Some tagIds => Value tagIds
     | None => Undefined
     end).

(** ** The ids the client writes into a request *)

(** The character of a decimal digit. *)
Definition digit_char (d : Z) : ascii := ascii_of_nat (Z.to_nat (48 + d)).

(** The decimal digits of [n], a natural number of at most [fuel] digits,
    before [tail]. *)
Fixpoint decimal (fuel : nat) (n : Z) (tail : string) : string :=
  match fuel with
  | O => tail
  | S fuel' =>
      let tail' := String (digit_char (n mod 10)) tail in
      if n <? 10 then tail' else decimal fuel' (n / 10) tail'
  end.

(** [String(id)] and [`${id}`] for an [id] that is an integer below [10^21]
    in absolute value: its decimal digits, after a minus sign when it is
    negative.  (From [10^21] on JavaScript writes an exponent.) *)
Definition String_of_int (id : Z) : string :=
  if id <? 0 then String "-" (decimal 21 (- id) "") else decimal 21 id "".

(** Every character of [s] is a decimal digit. *)
Fixpoint all_digits (s : string) : bool :=
  match s with
  | String c s' =>
      (48 <=? Js.code c) && (Js.code c <=? 57) && all_digits s'
  | EmptyString => true
  end.

(** The [search] and the [tagId] of the query string [fetchBookmarks] of the
    client builds from its [params], of which either can be [undefined]:
    [if (params?.search) ...; if (params?.tagId) ...]. *)
Definition fetchBookmarks_query (search : option string) (tagId : option Z)
  : option string * option string :=
  (if truthy search then search else None,
   match tagId with
   | Some id => if id =? 0 then None else Some (String_of_int id)
   | None => None
   end).

(** ** The list of tags the client keeps *)

(** [setTags((prev) => [...prev, tag])], in [addTag] of [useTags] and in
    [handleTagCreated] of [App]. *)
Definition addTag (tag : Tag.t) (prev : list Tag.t) : list Tag.t :=
  prev ++ [tag].

(** The body [handleCreateTag] of [BookmarkForm] sends to POST /api/tags,
    [None] when the name is blank and it sends nothing. *)
Definition tag_data (newTagName newTagColor : string)
  : option CreateTagRequest.t :=
  if (trim newTagName =? "")%string then None
  else Some (CreateTagRequest.mk (Some (trim newTagName)) (Some newTagColor)).

(** ** What a handler throws *)


(** * Proofs *)

Ltac unfold_M :=
  unfold mbind, M_bind, mret, M_ret, query, throw, try_catch in *.

(** ** The monad *)

Lemma bind_query {A B} (f : Database → A) (k : A → M B) db :
  (query f ≫= k) db = k (f db) db.
Proof. done. Qed.

Lemma bind_ok {A B} (m : M A) (k : A → M B) db db' x :
  m db = (db', inr x) → (m ≫= k) db = k x db'.
Proof. intros Hm. unfold_M. by rewrite Hm. Qed.

Lemma bind_throws {A B} (m : M A) (k : A → M B) db db' err :
  m db = (db', inl err) → (m ≫= k) db = (db', inl err).
Proof. intros Hm. unfold_M. by rewrite Hm. Qed.

Section Preserves.
Context (P : Database → Prop).

Lemma preserves_ret {A} (x : A) : preserves P (mret x).
Proof. by intros db. Qed.

Lemma preserves_throw {A} err : preserves P (@throw A err).
Proof. by intros db. Qed.

Lemma preserves_query {A} (f : Database → A) : preserves P (query f).
Proof. by intros db. Qed.

Lemma preserves_bind {A B} (m : M A) (f : A → M B) :
  preserves P m → (∀ x, preserves P (f x)) → preserves P (m ≫= f).
Proof.
  intros Hm Hf db HP. specialize (Hm db HP). unfold_M.
  destruct (m db) as [db' [err|x]]; simpl in *; [done|]. by apply Hf.
Qed.

Lemma preserves_bind_at {A B} (m : M A) (f : A → M B) db :
  P (m db).1 → (∀ x, preserves P (f x)) → P ((m ≫= f) db).1.
Proof.
  intros Hm Hf. unfold_M.
  destruct (m db) as [db' [err|x]]; simpl in *; [done|]. by apply Hf.
Qed.

Lemma preserves_try_catch {A} (body : M A) handler :
  preserves P body → (∀ err, preserves P (handler err)) →
  preserves P (try_catch body handler).
Proof.
  intros Hm Hh db HP. specialize (Hm db HP). unfold_M.
  destruct (body db) as [db' [err|x]]; simpl in *; [|done]. by apply Hh.
Qed.

Lemma preserves_for_of {A} (body : A → M unit) l :
  (∀ x, preserves P (body x)) → preserves P (for_of l body).
Proof.
  intros Hbody. induction l as [|x l IH]; simpl.
  - apply preserves_ret.
  - apply preserves_bind; [apply Hbody|]. by intros _.
Qed.

End Preserves.

Lemma read_only_preserves {A} (m : M A) P : read_only m → preserves P m.
Proof. intros Hm db HP. by rewrite Hm. Qed.



Lemma read_only_attachTags row : read_only (attachTags row).
Proof. by intros db. Qed.

Lemma attachTags_eq row db : attachTags row db = (db, inr (attach db row)).
Proof. done. Qed.

Lemma map_M_attachTags rows db :
  map_M attachTags rows db = (db, inr (attach db <$> rows)).
Proof.
  induction rows as [|row rows IH]; simpl; [done|].
  unfold_M. rewrite attachTags_eq, IH. done.
Qed.

(** ** Referential integrity, statement by statement *)

Lemma fk_insert_bookmark now title url description favicon :
  preserves fk_ok (insert_bookmark now title url description favicon).
Proof.
  intros db Hfk bt Hbt. simpl in *. destruct (Hfk bt Hbt) as [Hb Ht].
  split; [|done]. rewrite fmap_app. apply elem_of_app. by left.
Qed.

Lemma fk_insert_bookmark_tag bookmark tag :
  preserves fk_ok (insert_bookmark_tag bookmark tag).
Proof.
  intros db Hfk. unfold insert_bookmark_tag.
  destruct bookmark as [| |m e]; [done|done|].
  destruct (Js.to_int (Js.Fin m e)) as [b|]; [|done].
  repeat case_decide; [done| |done].
  intros bt Hbt. simpl in *. apply elem_of_app in Hbt as [Hbt|Hbt].
  - by apply Hfk.
  - apply list_elem_of_singleton in Hbt as ->. done.
Qed.

Lemma fk_delete_bookmark_tags bookmark :
  preserves fk_ok (delete_bookmark_tags bookmark).
Proof.
  intros db Hfk bt Hbt. simpl in *.
  apply list_elem_of_filter in Hbt as [_ Hbt]. by apply Hfk.
Qed.

Lemma update_bookmark_ids title url description favicon now id db :
  BookmarkRow.id <$>
    bookmarks (update_bookmark title url description favicon now id db).1
  = BookmarkRow.id <$> bookmarks db.
Proof.
  simpl. rewrite <- list_fmap_compose. apply list_fmap_ext.
  intros i r _. simpl. by case_decide.
Qed.

Lemma fk_update_bookmark title url description favicon now id :
  preserves fk_ok (update_bookmark title url description favicon now id).
Proof.
  intros db Hfk bt Hbt. rewrite update_bookmark_ids. by apply Hfk.
Qed.

Lemma fk_delete_bookmark id : preserves fk_ok (delete_bookmark id).
Proof.
  intros db Hfk bt Hbt. simpl in *.
  apply list_elem_of_filter in Hbt as [Hne Hbt].
  destruct (Hfk bt Hbt) as [Hb Ht]. split; [|done].
  apply list_elem_of_fmap in Hb as (r & Hr & Hin).
  apply list_elem_of_fmap. exists r. split; [done|].
  apply list_elem_of_filter. split; [|done]. by rewrite <- Hr.
Qed.

Lemma fk_insert_tag io name color : preserves fk_ok (insert_tag io name color).
Proof.
  intros db Hfk. unfold insert_tag. destruct io; [done|].
  case_decide; [done|]. intros bt Hbt. simpl in *.
  destruct (Hfk bt Hbt) as [Hb Ht]. split; [done|].
  rewrite fmap_app. apply elem_of_app. by left.
Qed.

Lemma fk_delete_tag id : preserves fk_ok (delete_tag id).
Proof.
  intros db Hfk bt Hbt. simpl in *.
  apply list_elem_of_filter in Hbt as [Hne Hbt].
  destruct (Hfk bt Hbt) as [Hb Ht]. split; [done|].
  apply list_elem_of_fmap in Ht as (t & Ht & Hin).
  apply list_elem_of_fmap. exists t. split; [done|].
  apply list_elem_of_filter. split; [|done]. by rewrite <- Ht.
Qed.

(** ** Invariants, handler by handler *)

Section Handlers.
Context (P : Database → Prop).
Context (P_insert_bookmark : ∀ now title url description favicon,
  title ≠ "" → url ≠ "" →
  preserves P (insert_bookmark now title url description favicon)).
Context (P_insert_bookmark_tag : ∀ bookmark tag,
  preserves P (insert_bookmark_tag bookmark tag)).
Context (P_delete_bookmark_tags : ∀ bookmark,
  preserves P (delete_bookmark_tags bookmark)).
Context (P_delete_bookmark : ∀ id, preserves P (delete_bookmark id)).
Context (P_insert_tag : ∀ io name color,
  preserves P (insert_tag io name color)).
Context (P_delete_tag : ∀ id, preserves P (delete_tag id)).

Lemma preserves_attachTags_of row : preserves P (attachTags_of row).
Proof.
  destruct row; [|apply preserves_throw].
  apply read_only_preserves, read_only_attachTags.
Qed.

Lemma truthy_Some s : truthy s = true → ∃ v, s = Some v ∧ v ≠ "".
Proof.
  destruct s as [v|]; [|done]. simpl. intros Hv. exists v. split; [done|].
  intros ->. done.
Qed.

Lemma preserves_createBookmark now body :
  preserves P (createBookmark now body).
Proof.
  unfold createBookmark.
  destruct (truthy (CreateBookmarkRequest.title body)) eqn:Ht;
    [|apply preserves_throw].
  destruct (truthy (CreateBookmarkRequest.url body)) eqn:Hu;
    [|apply preserves_throw].
  apply truthy_Some in Ht as (title & -> & ?).
  apply truthy_Some in Hu as (url & -> & ?). simpl.
  apply preserves_bind; [by apply P_insert_bookmark|]. intros newId.
  apply preserves_bind.
  { destruct (CreateBookmarkRequest.tagIds body) as [tagIds|];
      [|apply preserves_ret].
    case_match; [|apply preserves_ret].
    apply preserves_for_of. intros tagId. apply P_insert_bookmark_tag. }
  intros _. apply preserves_bind; [apply preserves_query|].
  apply preserves_attachTags_of.
Qed.

Lemma preserves_deleteBookmark id : preserves P (deleteBookmark id).
Proof.
  unfold deleteBookmark. case_match; [apply preserves_throw|].
  apply preserves_bind; [apply preserves_query|]. intros [row|];
    [|apply preserves_throw].
  apply preserves_bind; [apply P_delete_bookmark|]. intros _.
  apply preserves_ret.
Qed.

Lemma preserves_createTag io body : preserves P (createTag io body).
Proof.
  unfold createTag. case_match; [apply preserves_throw|].
  apply preserves_try_catch; [|intros err; apply preserves_throw].
  apply preserves_bind; [apply P_insert_tag|]. intros newId.
  apply preserves_ret.
Qed.

Lemma preserves_deleteTag id : preserves P (deleteTag id).
Proof.
  unfold deleteTag. case_match; [apply preserves_throw|].
  apply preserves_bind; [apply preserves_query|]. intros [row|];
    [|apply preserves_throw].
  apply preserves_bind; [apply P_delete_tag|]. intros _.
  apply preserves_ret.
Qed.

(** The UPDATE is the one statement whose effect on [P] depends on the
    request, so it is taken for the values the handler gives it. *)
Lemma preserves_updateBookmark now id body :
  (∀ existing db, P db → select_bookmark id db = Some existing →
     P (update_bookmark
          (default (BookmarkRow.title existing)
                   (UpdateBookmarkRequest.title body))
          (default (BookmarkRow.url existing)
                   (UpdateBookmarkRequest.url body))
          (default (BookmarkRow.description existing)
                   (UpdateBookmarkRequest.description body))
          (default (BookmarkRow.favicon existing)
                   (UpdateBookmarkRequest.favicon body))
          now id db).1) →
  preserves P (updateBookmark now id body).
Proof.
  intros Hupd db HP. unfold updateBookmark.
  destruct (Js.isNaN id); [done|]. rewrite bind_query.
  destruct (select_bookmark id db) as [existing|] eqn:Hsel; [|done].
  apply preserves_bind_at; [by eapply Hupd|]. intros _.
  apply preserves_bind.
  { destruct (UpdateBookmarkRequest.tagIds body) as [| |tagIds];
      [apply preserves_ret| |].
    - apply preserves_bind; [apply P_delete_bookmark_tags|]. intros _.
      apply preserves_throw.
    - apply preserves_bind; [apply P_delete_bookmark_tags|]. intros _.
      case_match; [|apply preserves_ret].
      apply preserves_for_of. intros tagId. apply P_insert_bookmark_tag. }
  intros _. apply preserves_bind; [apply preserves_query|].
  apply preserves_attachTags_of.
Qed.
End Handlers.

(** ** Referential integrity in every reachable state *)

Lemma fk_handle r db : fk_ok db → fk_ok (handle r db).
Proof.
  intros Hfk. destruct r; simpl.
  - apply preserves_createBookmark; [|apply fk_insert_bookmark_tag|done].
    intros. apply fk_insert_bookmark.
  - apply preserves_updateBookmark;
      [apply fk_insert_bookmark_tag|apply fk_delete_bookmark_tags| |done].
    intros existing db0 Hfk0 _. by apply fk_update_bookmark.
  - by apply preserves_deleteBookmark; [apply fk_delete_bookmark|].
  - by apply preserves_createTag; [apply fk_insert_tag|].
  - by apply preserves_deleteTag; [apply fk_delete_tag|].
Qed.

Lemma fk_initDatabase : fk_ok initDatabase.
Proof. intros bt Hbt. simpl in Hbt. by apply elem_of_nil in Hbt. Qed.

Lemma reachable_fk_ok db : reachable db → fk_ok db.
Proof.
  induction 1 as [|r db Hreach IH _]; [apply fk_initDatabase|].
  by apply fk_handle.
Qed.

Lemma select_bookmark_Some id db row :
  select_bookmark id db = Some row →
  Js.to_int id = Some (BookmarkRow.id row) ∧ row ∈ bookmarks db.
Proof.
  unfold select_bookmark. destruct (Js.to_int id) as [z|]; [|done].
  intros Hfind. apply find_some in Hfind as [Hin Heq].
  apply Z.eqb_eq in Heq. subst z. split; [done|].
  by apply list_elem_of_In.
Qed.

Lemma select_tag_Some id db t :
  select_tag id db = Some t →
  Js.to_int id = Some (Tag.id t) ∧ t ∈ tags db.
Proof.
  unfold select_tag. destruct (Js.to_int id) as [z|]; [|done].
  intros Hfind. apply find_some in Hfind as [Hin Heq].
  apply Z.eqb_eq in Heq. subst z. split; [done|].
  by apply list_elem_of_In.
Qed.

Lemma deleteBookmark_ok id db db' r :
  deleteBookmark id db = (db', inr r) →
  ∃ row, select_bookmark id db = Some row ∧ r = id
         ∧ db' = (delete_bookmark id db).1.
Proof.
  unfold deleteBookmark. destruct (Js.isNaN id); [done|].
  rewrite bind_query.
  destruct (select_bookmark id db) as [row|]; [|done].
  unfold_M. simpl. intros [= <- <-]. by exists row.
Qed.

Lemma deleteTag_ok id db db' r :
  deleteTag id db = (db', inr r) →
  ∃ t, select_tag id db = Some t ∧ r = id ∧ db' = (delete_tag id db).1.
Proof.
  unfold deleteTag. destruct (Js.isNaN id); [done|].
  rewrite bind_query.
  destruct (select_tag id db) as [t|]; [|done].
  unfold_M. simpl. intros [= <- <-]. by exists t.
Qed.

(** C5.  In every reachable state every row of [bookmark_tags] references a
    bookmark and a tag that exist.  A [deleteBookmark] or [deleteTag] that
    succeeds is the one DELETE statement, which removes the parent together
    with the rows that reference it: afterwards no bookmark (no tag) has the
    deleted id and no row of [bookmark_tags] references it, and the state is
    again one with referential integrity. *)
Theorem referential_integrity (db : Database) :
  reachable db →
  fk_ok db
  ∧ (∀ id db' r, deleteBookmark id db = (db', inr r) →
       ∃ z, Js.to_int id = Some z
         ∧ db' = (delete_bookmark id db).1
         ∧ (z ∉ BookmarkRow.id <$> bookmarks db')
         ∧ (∀ bt, bt ∈ bookmark_tags db' → BookmarkTag.bookmark_id bt ≠ z)
         ∧ fk_ok db')
  ∧ (∀ id db' r, deleteTag id db = (db', inr r) →
       ∃ z, Js.to_int id = Some z
         ∧ db' = (delete_tag id db).1
         ∧ (z ∉ Tag.id <$> tags db')
         ∧ (∀ bt, bt ∈ bookmark_tags db' → BookmarkTag.tag_id bt ≠ z)
         ∧ fk_ok db').
Proof.
  intros Hreach. pose proof (reachable_fk_ok db Hreach) as Hfk.
  split; [done|]. split.
  - intros id db' r Hdel.
    apply deleteBookmark_ok in Hdel as (row & Hsel & _ & ->).
    apply select_bookmark_Some in Hsel as [Hid _].
    exists (BookmarkRow.id row). split; [done|]. split; [done|].
    split; [|split].
    + simpl. intros Hin. apply list_elem_of_fmap in Hin as (r' & Hr' & Hin).
      apply list_elem_of_filter in Hin as [Hne _]. congruence.
    + simpl. intros bt Hbt. apply list_elem_of_filter in Hbt as [Hne _].
      congruence.
    + by apply fk_delete_bookmark.
  - intros id db' r Hdel.
    apply deleteTag_ok in Hdel as (t & Hsel & _ & ->).
    apply select_tag_Some in Hsel as [Hid _].
    exists (Tag.id t). split; [done|]. split; [done|].
    split; [|split].
    + simpl. intros Hin. apply list_elem_of_fmap in Hin as (r' & Hr' & Hin).
      apply list_elem_of_filter in Hin as [Hne _]. congruence.
    + simpl. intros bt Hbt. apply list_elem_of_filter in Hbt as [Hne _].
      congruence.
    + by apply fk_delete_tag.
Qed.

(** ** Deleting a tag *)

Lemma to_int_not_NaN id z : Js.to_int id = Some z → Js.isNaN id = false.
Proof. by destruct id. Qed.

Lemma select_tag_is_Some id z db :
  Js.to_int id = Some z → z ∈ (Tag.id <$> tags db) →
  ∃ t, select_tag id db = Some t.
Proof.
  intros Hid Hin. unfold select_tag. rewrite Hid.
  destruct (find _ (tags db)) as [t|] eqn:Hfind; [by exists t|].
  apply list_elem_of_fmap in Hin as (t & -> & Hin).
  apply list_elem_of_In in Hin.
  pose proof (find_none _ _ Hfind t Hin) as Hne. simpl in Hne.
  by rewrite Z.eqb_refl in Hne.
Qed.


(** The tags of a bookmark, one tag of [tags] at a time. *)
Lemma tags_of_one_tag (x : Tag.t) (bts : list BookmarkTag.t) (b t : Z) :
  filter (λ tag, Tag.id tag ≠ t)
    (bts ≫= λ bt,
       if decide (Tag.id x = BookmarkTag.tag_id bt
                  ∧ BookmarkTag.bookmark_id bt = b)
       then [x] else [])
  = if decide (Tag.id x = t) then []
    else filter (λ bt, BookmarkTag.tag_id bt ≠ t) bts ≫= λ bt,
           if decide (Tag.id x = BookmarkTag.tag_id bt
                      ∧ BookmarkTag.bookmark_id bt = b)
           then [x] else [].
Proof.
  induction bts as [|bt bts IH]; [by case_decide|].
  rewrite bind_cons, filter_app, IH. clear IH.
  destruct (decide (Tag.id x = t)) as [Hx|Hx].
  - case_decide; [|done]. by rewrite filter_cons_False by tauto.
  - destruct (decide (BookmarkTag.tag_id bt = t)) as [Hbt|Hbt].
    + rewrite (filter_cons_False _ bt) by tauto.
      case_decide as Hc; [|done]. destruct Hc. congruence.
    + rewrite (filter_cons_True _ bt) by done. rewrite bind_cons.
      f_equal. case_decide; [|done]. by rewrite filter_cons_True.
Qed.

Lemma select_tags_of_delete_tag id t b db :
  Js.to_int id = Some t →
  select_tags_of b (delete_tag id db).1
  = filter (λ tag, Tag.id tag ≠ t) (select_tags_of b db).
Proof.
  intros Hid. unfold select_tags_of. simpl.
  rewrite (list_filter_iff _ (λ tag, Tag.id tag ≠ t) (tags db))
    by (intros tag; rewrite Hid; split; congruence).
  rewrite (list_filter_iff _ (λ bt, BookmarkTag.tag_id bt ≠ t)
             (bookmark_tags db))
    by (intros bt; rewrite Hid; split; congruence).
  induction (tags db) as [|x l IH]; [done|].
  rewrite bind_cons, filter_app, <- IH, tags_of_one_tag. clear IH.
  destruct (decide (Tag.id x = t)) as [Hx|Hx].
  - by rewrite filter_cons_False by tauto.
  - by rewrite filter_cons_True, bind_cons by done.
Qed.

(** C10.  Deleting an existing tag [t] succeeds and leaves the table
    [bookmarks] as it was, every column of every row, [updated_at] included.
    Of [tags] it removes the rows with id [t] and of [bookmark_tags] the rows
    that reference [t], nothing else; the tags attached to any bookmark are
    afterwards the ones attached before without [t]. *)
Theorem deleteTag_frame (db : Database) (id : Js.number) (t : Z) :
  Js.to_int id = Some t →
  t ∈ (Tag.id <$> tags db) →
  ∃ db',
    deleteTag id db = (db', inr id)
    ∧ bookmarks db' = bookmarks db
    ∧ tags db' = filter (λ tag, Tag.id tag ≠ t) (tags db)
    ∧ bookmark_tags db'
      = filter (λ bt, BookmarkTag.tag_id bt ≠ t) (bookmark_tags db)
    ∧ (∀ row,
         BookmarkWithTags.tags (attach db' row)
         = filter (λ tag, Tag.id tag ≠ t)
             (BookmarkWithTags.tags (attach db row))).
Proof.
  intros Hid Hin. exists (delete_tag id db).1.
  destruct (select_tag_is_Some id t db Hid Hin) as [tag Hsel].
  split; [|split; [done|split; [|split]]].
  - unfold deleteTag. rewrite (to_int_not_NaN id t Hid), bind_query, Hsel.
    done.
  - simpl. apply list_filter_iff. intros x. rewrite Hid. split; congruence.
  - simpl. apply list_filter_iff. intros x. rewrite Hid. split; congruence.
  - intros row. simpl. by apply select_tags_of_delete_tag.
Qed.

(** C10 on the store with one bookmark: deleting tag 1, given as ["1"]. *)
Lemma deleteTag_frame_witness :
  ∃ db',
    deleteTag (Js.Number "1") Examples.one_bookmark = (db', inr (Js.Number "1"))
    ∧ bookmarks db' = bookmarks Examples.one_bookmark.
Proof.
  destruct (deleteTag_frame Examples.one_bookmark (Js.Number "1") 1)
    as (db' & Hrun & Hb & _).
  - reflexivity.
  - vm_compute. apply list_elem_of_In. simpl. by left.
  - exists db'. by split.
Defined.

(** ** Rowids *)

Lemma max_rowid_ge ids z : z ∈ ids → z ≤ max_rowid ids.
Proof.
  induction ids as [|i ids IH]; [by intros ?%elem_of_nil|].
  intros [->|Hin]%elem_of_cons; simpl; [lia|]. specialize (IH Hin). lia.
Qed.

Lemma next_rowid_fresh ids seq : next_rowid ids seq ∉ ids.
Proof.
  intros Hin%max_rowid_ge. unfold next_rowid in Hin. lia.
Qed.

Lemma to_int_of_int z : Js.to_int (Js.of_int z) = Some z.
Proof. simpl. f_equal. lia. Qed.

(** ** The rows of one bookmark in [bookmark_tags] *)

Lemma insert_bookmark_tag_ok id b t db :
  Js.to_int id = Some b →
  b ∈ (BookmarkRow.id <$> bookmarks db) →
  t ∈ (Tag.id <$> tags db) →
  ∃ db',
    insert_bookmark_tag id t db = (db', inr tt)
    ∧ bookmarks db' = bookmarks db
    ∧ tags db' = tags db
    ∧ (∀ bt, bt ∈ bookmark_tags db'
             ↔ bt ∈ bookmark_tags db ∨ bt = BookmarkTag.mk b t).
Proof.
  intros Hid Hb Ht. unfold insert_bookmark_tag.
  destruct id as [| |m e]; [done|done|]. rewrite Hid.
  case_decide as Hdup.
  - exists db. repeat split; try done; [tauto|]. by intros [?| ->].
  - rewrite decide_True by done. eexists. repeat split; simpl.
    + intros Hbt. apply elem_of_app in Hbt as [?|Hbt]; [tauto|].
      apply list_elem_of_singleton in Hbt. tauto.
    + intros [?| ->]; apply elem_of_app; [tauto|].
      right. by apply list_elem_of_singleton.
Qed.

Lemma insert_bookmark_tag_fails id b t db :
  Js.to_int id = Some b →
  BookmarkTag.mk b t ∉ bookmark_tags db →
  t ∉ (Tag.id <$> tags db) →
  insert_bookmark_tag id t db
  = (db, inl (SqliteError SQLITE_CONSTRAINT_FOREIGNKEY)).
Proof.
  intros Hid Hdup Ht. unfold insert_bookmark_tag.
  destruct id as [| |m e]; [done|done|]. rewrite Hid.
  rewrite decide_False by done. rewrite decide_False by tauto. done.
Qed.

Lemma for_of_insert_ok tagIds id b db :
  Js.to_int id = Some b →
  b ∈ (BookmarkRow.id <$> bookmarks db) →
  (∀ t, t ∈ tagIds → t ∈ (Tag.id <$> tags db)) →
  ∃ db',
    for_of tagIds (λ tagId, insert_bookmark_tag id tagId) db = (db', inr tt)
    ∧ bookmarks db' = bookmarks db
    ∧ tags db' = tags db
    ∧ (∀ bt, bt ∈ bookmark_tags db'
             ↔ bt ∈ bookmark_tags db
               ∨ (BookmarkTag.bookmark_id bt = b
                  ∧ BookmarkTag.tag_id bt ∈ tagIds)).
Proof.
  intros Hid. revert db. induction tagIds as [|t tagIds IH]; intros db Hb Ht.
  - exists db. repeat split; try done; [tauto|].
    intros [?|[_ ?%elem_of_nil]]; done.
  - destruct (insert_bookmark_tag_ok id b t db Hid Hb) as
      (db1 & Hrun1 & Hb1 & Ht1 & Hbt1); [apply Ht; by left|].
    destruct (IH db1) as (db2 & Hrun2 & Hb2 & Ht2 & Hbt2).
    { by rewrite Hb1. }
    { intros t' Hin. rewrite Ht1. apply Ht. by right. }
    exists db2. split; [|split; [congruence|split; [congruence|]]].
    + simpl. by rewrite (bind_ok _ _ _ _ _ Hrun1).
    + intros bt. rewrite Hbt2, Hbt1, elem_of_cons.
      destruct bt as [b' t']. simpl. split.
      * intros [[?|[= -> ->]]|[-> ?]]; auto.
      * intros [?|[-> [->|?]]]; auto.
Qed.

Lemma for_of_app {A} (l1 l2 : list A) (body : A → M unit) db :
  for_of (l1 ++ l2) body db
  = (for_of l1 body ≫= λ _, for_of l2 body) db.
Proof.
  revert db. induction l1 as [|x l1 IH]; intros db; simpl; [done|].
  unfold_M. destruct (body x db) as [db' [err|[]]]; [done|]. apply IH.
Qed.

Lemma elem_of_select_tags_of t b db :
  t ∈ select_tags_of b db
  ↔ t ∈ tags db ∧ BookmarkTag.mk b (Tag.id t) ∈ bookmark_tags db.
Proof.
  unfold select_tags_of. rewrite list_elem_of_bind. split.
  - intros (t' & Hin & Ht'). apply list_elem_of_bind in Hin as (bt & Hin & Hbt).
    case_decide as Hc; [|by apply elem_of_nil in Hin].
    apply list_elem_of_singleton in Hin as ->. destruct Hc as [Hc1 Hc2].
    split; [done|]. destruct bt as [b' t'']. simpl in *. by subst.
  - intros [Ht Hbt]. exists t. split; [|done].
    apply list_elem_of_bind. eexists. split; [|done].
    rewrite decide_True by done. by apply list_elem_of_singleton.
Qed.

(** ** Creating a bookmark *)

Lemma guarded_for_of {A} (l : list A) (body : A → M unit) :
  (if 0 <? Z.of_nat (length l) then for_of l body else mret tt)
  = for_of l body.
Proof. by destruct l. Qed.

Lemma find_last_fresh (l : list BookmarkRow.t) row :
  BookmarkRow.id row ∉ (BookmarkRow.id <$> l) →
  find (λ r, BookmarkRow.id r =? BookmarkRow.id row) (l ++ [row]) = Some row.
Proof.
  induction l as [|r l IH]; simpl; intros Hfresh.
  - by rewrite Z.eqb_refl.
  - apply not_elem_of_cons in Hfresh as [Hne Hfresh].
    destruct (Z.eqb_spec (BookmarkRow.id r) (BookmarkRow.id row)); [done|].
    by apply IH.
Qed.

Lemma createBookmark_ok now title url description favicon tagIds db :
  title ≠ "" → url ≠ "" →
  (∀ t, t ∈ default [] tagIds → t ∈ (Tag.id <$> tags db)) →
  let row := new_row now title url (default "" description)
               (default "" favicon) db in
  ∃ db',
    createBookmark now
      (CreateBookmarkRequest.mk (Some title) (Some url) description favicon
         tagIds) db
    = (db', inr (attach db' row))
    ∧ bookmarks db' = bookmarks db ++ [row]
    ∧ tags db' = tags db
    ∧ (∀ bt, bt ∈ bookmark_tags db'
             ↔ bt ∈ bookmark_tags db
               ∨ (BookmarkTag.bookmark_id bt = BookmarkRow.id row
                  ∧ BookmarkTag.tag_id bt ∈ default [] tagIds)).
Proof.
  intros Htitle Hurl Htags row. unfold createBookmark. simpl.
  rewrite (proj2 (String.eqb_neq title "")) by done.
  rewrite (proj2 (String.eqb_neq url "")) by done. simpl.
  set (db1 := (insert_bookmark now title url (default "" description)
                 (default "" favicon) db).1).
  erewrite (bind_ok _ _ db db1 (BookmarkRow.id row)) by done.
  assert (bookmarks db1 = bookmarks db ++ [row]) as Hb1 by done.
  destruct (for_of_insert_ok (default [] tagIds)
              (Js.of_int (BookmarkRow.id row)) (BookmarkRow.id row) db1)
    as (db2 & Hrun & Hb2 & Ht2 & Hbt2).
  { apply to_int_of_int. }
  { rewrite Hb1, fmap_app. apply elem_of_app. right.
    by apply list_elem_of_singleton. }
  { done. }
  exists db2. split; [|split; [congruence|split; [done|done]]].
  erewrite (bind_ok _ _ db1 db2 tt).
  - rewrite bind_query. unfold select_bookmark.
    rewrite to_int_of_int, Hb2, Hb1, find_last_fresh; [done|].
    apply next_rowid_fresh.
  - destruct tagIds as [tagIds|]; [|done]. by rewrite guarded_for_of.
Qed.

Lemma getBookmark_ok id db row :
  select_bookmark id db = Some row →
  getBookmark id db = (db, inr (attach db row)).
Proof.
  intros Hsel. unfold getBookmark.
  rewrite (to_int_not_NaN id (BookmarkRow.id row))
    by by apply select_bookmark_Some in Hsel as [? _].
  by rewrite bind_query, Hsel.
Qed.

(** C9.  In a reachable state where tags 1 and 2 exist, creating a bookmark
    with title A, url http://a and tagIds [1, 2] succeeds, and fetching the
    id it returned succeeds with title A, url http://a, as tags exactly the
    tags whose id is 1 or 2 (both are among them), and createdAt equal to
    updatedAt. *)
Theorem create_then_get (db : Database) (now : string)
    (description favicon : option string) :
  reachable db →
  1 ∈ (Tag.id <$> tags db) →
  2 ∈ (Tag.id <$> tags db) →
  ∃ db' created fetched,
    createBookmark now
      (CreateBookmarkRequest.mk (Some "A") (Some "http://a") description
         favicon (Some [1; 2])) db
    = (db', inr created)
    ∧ getBookmark (Js.of_int (BookmarkWithTags.id created)) db'
      = (db', inr fetched)
    ∧ BookmarkWithTags.title fetched = "A"
    ∧ BookmarkWithTags.url fetched = "http://a"
    ∧ (∀ t, t ∈ BookmarkWithTags.tags fetched
            ↔ t ∈ tags db ∧ (Tag.id t = 1 ∨ Tag.id t = 2))
    ∧ (∃ t1 t2, t1 ∈ BookmarkWithTags.tags fetched ∧ Tag.id t1 = 1
                ∧ t2 ∈ BookmarkWithTags.tags fetched ∧ Tag.id t2 = 2)
    ∧ BookmarkWithTags.createdAt fetched = BookmarkWithTags.updatedAt fetched.
Proof.
  intros Hfk%reachable_fk_ok H1 H2.
  destruct (createBookmark_ok now "A" "http://a" description favicon
              (Some [1; 2]) db) as (db' & Hrun & Hb & Ht & Hbt); [done|done| |].
  { simpl. intros t [->|[->|[]%elem_of_nil]%elem_of_cons]%elem_of_cons; done. }
  set (row := new_row now "A" "http://a" (default "" description)
                (default "" favicon) db) in *.
  assert (∀ t, t ∈ select_tags_of (BookmarkRow.id row) db'
               ↔ t ∈ tags db ∧ (Tag.id t = 1 ∨ Tag.id t = 2)) as Htags.
  { intros t. rewrite elem_of_select_tags_of, Ht, Hbt. simpl.
    rewrite !elem_of_cons, elem_of_nil. split.
    - intros [Hin [Hold|[_ [?|[?|[]]]]]]; [|tauto|tauto].
      apply Hfk in Hold as [Hold _]. simpl in Hold.
      by apply next_rowid_fresh in Hold.
    - intros [Hin Hid]. split; [done|]. right. tauto. }
  exists db', (attach db' row), (attach db' row).
  split; [done|]. split; [|split; [done|split; [done|split; [done|split]]]].
  - apply getBookmark_ok. unfold select_bookmark.
    rewrite to_int_of_int, Hb. apply find_last_fresh, next_rowid_fresh.
  - apply list_elem_of_fmap in H1 as (t1 & Hid1 & Hin1).
    apply list_elem_of_fmap in H2 as (t2 & Hid2 & Hin2).
    exists t1, t2. split; [apply Htags; split; [done|by left]|].
    split; [done|]. split; [apply Htags; split; [done|by right]|done].
  - done.
Qed.

(** ** Updating a bookmark *)

Lemma find_update (l : list BookmarkRow.t) z existing
    (f : BookmarkRow.t → BookmarkRow.t) :
  (∀ r, BookmarkRow.id (f r) = BookmarkRow.id r) →
  find (λ r, BookmarkRow.id r =? z) l = Some existing →
  find (λ r, BookmarkRow.id r =? z)
    ((λ r, if decide (Some z = Some (BookmarkRow.id r)) then f r else r) <$> l)
  = Some (f existing).
Proof.
  intros Hf. induction l as [|r l IH]; simpl; [done|].
  destruct (Z.eqb_spec (BookmarkRow.id r) z) as [Heq|Hne].
  - intros [= ->]. rewrite decide_True by congruence.
    rewrite Hf. by rewrite (proj2 (Z.eqb_eq _ _) Heq).
  - intros Hfind. rewrite decide_False by congruence.
    rewrite (proj2 (Z.eqb_neq _ _) Hne). by apply IH.
Qed.

Lemma filter_other_bookmark id z (bts : list BookmarkTag.t) bt :
  Js.to_int id = Some z →
  bt ∈ filter (λ bt, Js.to_int id ≠ Some (BookmarkTag.bookmark_id bt)) bts
  ↔ bt ∈ bts ∧ BookmarkTag.bookmark_id bt ≠ z.
Proof.
  intros Hid. rewrite list_elem_of_filter, Hid. split.
  - intros [Hne Hin]. split; [done|]. congruence.
  - intros [Hin Hne]. split; [congruence|done].
Qed.

(** The store after a PUT whose statements all ran: [existing] is the row
    the handler read first, [tagIds] the ids it went through. *)
Lemma updateBookmark_run now id body db existing :
  select_bookmark id db = Some existing →
  let z := BookmarkRow.id existing in
  let title :=
    default (BookmarkRow.title existing) (UpdateBookmarkRequest.title body) in
  let url :=
    default (BookmarkRow.url existing) (UpdateBookmarkRequest.url body) in
  let description :=
    default (BookmarkRow.description existing)
            (UpdateBookmarkRequest.description body) in
  let favicon :=
    default (BookmarkRow.favicon existing)
            (UpdateBookmarkRequest.favicon body) in
  let db1 := (update_bookmark title url description favicon now id db).1 in
  select_bookmark id db1
  = Some (BookmarkRow.mk z title url description favicon
            (BookmarkRow.created_at existing) now)
  ∧ updateBookmark now id body db
    = ((match UpdateBookmarkRequest.tagIds body with
        | Undefined => mret tt
        | Null => delete_bookmark_tags id ≫= λ _, throw TypeError
        | Value tagIds =>
            delete_bookmark_tags id ≫= λ _,
            for_of tagIds (λ tagId, insert_bookmark_tag id tagId)
        end) ≫= λ _,
       query (select_bookmark id) ≫= λ row, attachTags_of row) db1.
Proof.
  intros Hsel z title url description favicon db1.
  pose proof (select_bookmark_Some _ _ _ Hsel) as [Hid Hin].
  split.
  - unfold select_bookmark in *. rewrite Hid in *. subst db1. simpl.
    rewrite Hid.
    by rewrite (find_update _ z existing
      (λ r, BookmarkRow.mk (BookmarkRow.id r) title url description favicon
              (BookmarkRow.created_at r) now)).
  - unfold updateBookmark. rewrite (to_int_not_NaN id z Hid).
    rewrite bind_query, Hsel.
    erewrite (bind_ok _ _ db db1 tt) by done.
    destruct (UpdateBookmarkRequest.tagIds body) as [| |tagIds]; [done..|].
    by rewrite guarded_for_of.
Qed.

Lemma for_of_insert_fails pre bad post id b db :
  Js.to_int id = Some b →
  b ∈ (BookmarkRow.id <$> bookmarks db) →
  (∀ t, t ∈ pre → t ∈ (Tag.id <$> tags db)) →
  bad ∉ (Tag.id <$> tags db) →
  BookmarkTag.mk b bad ∉ bookmark_tags db →
  ∃ db',
    for_of (pre ++ bad :: post) (λ tagId, insert_bookmark_tag id tagId) db
    = (db', inl (SqliteError SQLITE_CONSTRAINT_FOREIGNKEY))
    ∧ bookmarks db' = bookmarks db
    ∧ tags db' = tags db
    ∧ (∀ bt, bt ∈ bookmark_tags db'
             ↔ bt ∈ bookmark_tags db
               ∨ (BookmarkTag.bookmark_id bt = b
                  ∧ BookmarkTag.tag_id bt ∈ pre)).
Proof.
  intros Hid Hb Hpre Hbad Hnew.
  destruct (for_of_insert_ok pre id b db Hid Hb Hpre)
    as (db' & Hrun & Hb' & Ht' & Hbt').
  exists db'. split; [|done].
  rewrite for_of_app. rewrite (bind_ok _ _ _ _ _ Hrun). simpl.
  apply bind_throws. apply (insert_bookmark_tag_fails id b); [done| |].
  - rewrite Hbt'. simpl. intros [?|[_ Hin]]; [done|]. by apply Hbad, Hpre.
  - by rewrite Ht'.
Qed.

Lemma select_bookmark_ext id db db' :
  bookmarks db' = bookmarks db →
  select_bookmark id db' = select_bookmark id db.
Proof. unfold select_bookmark. by intros ->. Qed.

Lemma update_bookmark_rows title url description favicon now id z db :
  Js.to_int id = Some z →
  bookmarks (update_bookmark title url description favicon now id db).1
  = (λ r, if decide (BookmarkRow.id r = z)
          then BookmarkRow.mk z title url description favicon
                 (BookmarkRow.created_at r) now
          else r) <$> bookmarks db.
Proof.
  intros Hid. simpl. apply list_fmap_ext. intros i r _. rewrite Hid.
  destruct (decide (BookmarkRow.id r = z)) as [<-|Hne].
  - by rewrite decide_True.
  - rewrite decide_False; [done|congruence].
Qed.

(** C3, amended.  For a bookmark that exists and a patch whose [tagIds], if
    there are any, are ids of existing tags ([null] is no sequence of ids),
    [updateBookmark] succeeds.  The
    row then holds, for each of [title], [url], [description] and [favicon],
    the value of the patch if the patch has one (the empty string too) and
    the stored value otherwise; [updated_at] is the clock of the update and
    [id] and [created_at] are kept; rows with another id are not touched.
    With [tagIds] in the patch (the empty sequence too) the tags of the
    bookmark are afterwards exactly the ids of the sequence, and the rows of
    other bookmarks in [bookmark_tags] are kept; without [tagIds] the table
    [bookmark_tags] is left as it was. *)
Theorem updateBookmark_patch (db : Database) (now : string) (id : Js.number)
    (body : UpdateBookmarkRequest.t) (existing : BookmarkRow.t) :
  select_bookmark id db = Some existing →
  UpdateBookmarkRequest.tagIds body ≠ Null →
  (∀ t, t ∈ value_or [] (UpdateBookmarkRequest.tagIds body) →
        t ∈ (Tag.id <$> tags db)) →
  let z := BookmarkRow.id existing in
  let title :=
    match UpdateBookmarkRequest.title body with
    | Some title => title
    | None => BookmarkRow.title existing
    end in
  let url :=
    match UpdateBookmarkRequest.url body with
    | Some url => url
    | None => BookmarkRow.url existing
    end in
  let description :=
    match UpdateBookmarkRequest.description body with
    | Some description => description
    | None => BookmarkRow.description existing
    end in
  let favicon :=
    match UpdateBookmarkRequest.favicon body with
    | Some favicon => favicon
    | None => BookmarkRow.favicon existing
    end in
  let row :=
    BookmarkRow.mk z title url description favicon
      (BookmarkRow.created_at existing) now in
  ∃ db',
    updateBookmark now id body db = (db', inr (attach db' row))
    ∧ select_bookmark id db' = Some row
    ∧ bookmarks db'
      = (λ r, if decide (BookmarkRow.id r = z)
              then BookmarkRow.mk z title url description favicon
                     (BookmarkRow.created_at r) now
              else r) <$> bookmarks db
    ∧ tags db' = tags db
    ∧ match UpdateBookmarkRequest.tagIds body with
      | Value tagIds =>
          ∀ bt, bt ∈ bookmark_tags db'
                ↔ (bt ∈ bookmark_tags db ∧ BookmarkTag.bookmark_id bt ≠ z)
                  ∨ (BookmarkTag.bookmark_id bt = z
                     ∧ BookmarkTag.tag_id bt ∈ tagIds)
      | _ => bookmark_tags db' = bookmark_tags db
      end.
Proof.
  intros Hsel Hnull Htags z title url description favicon row.
  destruct (updateBookmark_run now id body db existing Hsel) as [Hsel1 Hrun].
  pose proof (select_bookmark_Some _ _ _ Hsel) as [Hid Hin].
  fold z in Hid.
  change (default (BookmarkRow.title existing)
            (UpdateBookmarkRequest.title body)) with title in *.
  change (default (BookmarkRow.url existing)
            (UpdateBookmarkRequest.url body)) with url in *.
  change (default (BookmarkRow.description existing)
            (UpdateBookmarkRequest.description body)) with description in *.
  change (default (BookmarkRow.favicon existing)
            (UpdateBookmarkRequest.favicon body)) with favicon in *.
  set (db1 := (update_bookmark title url description favicon now id db).1) in *.
  assert (bookmarks db1
          = (λ r, if decide (BookmarkRow.id r = z)
                  then BookmarkRow.mk z title url description favicon
                         (BookmarkRow.created_at r) now
                  else r) <$> bookmarks db) as Hrows
    by by apply update_bookmark_rows.
  rewrite Hrun. clear Hrun.
  destruct (UpdateBookmarkRequest.tagIds body) as [| |tagIds]; [|done|].
  - exists db1. split; [|done].
    erewrite (bind_ok _ _ db1 db1 tt) by done. rewrite bind_query.
    fold db1 in Hsel1. by rewrite Hsel1.
  - destruct (for_of_insert_ok tagIds id z (delete_bookmark_tags id db1).1 Hid)
      as (db3 & Hfor & Hb3 & Ht3 & Hbt3).
    { change (z ∈ BookmarkRow.id <$> bookmarks
                (update_bookmark title url description favicon now id db).1).
      rewrite update_bookmark_ids. apply list_elem_of_fmap. by exists existing. }
    { done. }
    exists db3. split; [|split; [|split; [|split]]].
    + erewrite (bind_ok _ _ db1 db3 tt).
      * rewrite bind_query, (select_bookmark_ext id db1 db3) by done.
        fold db1 in Hsel1. by rewrite Hsel1.
      * by erewrite (bind_ok _ _ db1 _ tt).
    + rewrite (select_bookmark_ext id db1 db3) by done. done.
    + by rewrite Hb3.
    + by rewrite Ht3.
    + intros bt. rewrite Hbt3. simpl.
      by rewrite (filter_other_bookmark id z).
Qed.

(** ** A statement that fails after others have run *)

Lemma createBookmark_run now title url description favicon tagIds db :
  title ≠ "" → url ≠ "" →
  let row := new_row now title url (default "" description)
               (default "" favicon) db in
  createBookmark now
    (CreateBookmarkRequest.mk (Some title) (Some url) description favicon
       tagIds) db
  = (for_of (default [] tagIds)
       (λ tagId, insert_bookmark_tag (Js.of_int (BookmarkRow.id row)) tagId)
     ≫= λ _,
     query (select_bookmark (Js.of_int (BookmarkRow.id row))) ≫= λ row,
     attachTags_of row)
      (insert_bookmark now title url (default "" description)
         (default "" favicon) db).1.
Proof.
  intros Htitle Hurl row. unfold createBookmark. simpl.
  rewrite (proj2 (String.eqb_neq title "")) by done.
  rewrite (proj2 (String.eqb_neq url "")) by done. simpl.
  erewrite (bind_ok _ _ db _ (BookmarkRow.id row)) by done.
  destruct tagIds as [tagIds|]; [|done]. by rewrite guarded_for_of.
Qed.

(** C1, amended.  The statements of a create or an update run one after
    another and each stays applied.  Let the [tagIds] be [pre], then an id
    [bad] of no tag, then [post], with every id of [pre] the id of a tag.
    The INSERT for [bad] fails on its foreign key and the request with it,
    and afterwards: for a create, the new row is in [bookmarks] and the new
    bookmark has the tags [pre]; for an update, the row holds the values of
    the request, the old tags of the bookmark are gone and it has the tags
    [pre].  The rows of other bookmarks in [bookmark_tags] are kept. *)
Theorem failed_insert_keeps_earlier_statements (db : Database)
    (pre post : list Z) (bad : Z) :
  reachable db →
  (∀ t, t ∈ pre → t ∈ (Tag.id <$> tags db)) →
  bad ∉ (Tag.id <$> tags db) →
  (∀ now title url description favicon,
     title ≠ "" → url ≠ "" →
     let row := new_row now title url (default "" description)
                  (default "" favicon) db in
     ∃ db',
       createBookmark now
         (CreateBookmarkRequest.mk (Some title) (Some url) description favicon
            (Some (pre ++ bad :: post))) db
       = (db', inl (SqliteError SQLITE_CONSTRAINT_FOREIGNKEY))
       ∧ bookmarks db' = bookmarks db ++ [row]
       ∧ (∀ bt, bt ∈ bookmark_tags db'
                ↔ bt ∈ bookmark_tags db
                  ∨ (BookmarkTag.bookmark_id bt = BookmarkRow.id row
                     ∧ BookmarkTag.tag_id bt ∈ pre)))
  ∧ (∀ now id existing title url description favicon,
       select_bookmark id db = Some existing →
       let z := BookmarkRow.id existing in
       let row :=
         BookmarkRow.mk z
           (default (BookmarkRow.title existing) title)
           (default (BookmarkRow.url existing) url)
           (default (BookmarkRow.description existing) description)
           (default (BookmarkRow.favicon existing) favicon)
           (BookmarkRow.created_at existing) now in
       ∃ db',
         updateBookmark now id
           (UpdateBookmarkRequest.mk title url description favicon
              (Value (pre ++ bad :: post))) db
         = (db', inl (SqliteError SQLITE_CONSTRAINT_FOREIGNKEY))
         ∧ select_bookmark id db' = Some row
         ∧ (∀ bt, bt ∈ bookmark_tags db'
                  ↔ (bt ∈ bookmark_tags db ∧ BookmarkTag.bookmark_id bt ≠ z)
                    ∨ (BookmarkTag.bookmark_id bt = z
                       ∧ BookmarkTag.tag_id bt ∈ pre))).
Proof.
  intros Hfk%reachable_fk_ok Hpre Hbad. split.
  - intros now title url description favicon Htitle Hurl row.
    rewrite createBookmark_run by done. fold row.
    set (db1 := (insert_bookmark now title url (default "" description)
                   (default "" favicon) db).1).
    destruct (for_of_insert_fails pre bad post
                (Js.of_int (BookmarkRow.id row)) (BookmarkRow.id row) db1)
      as (db2 & Hrun & Hb2 & Ht2 & Hbt2).
    { apply to_int_of_int. }
    { simpl. rewrite fmap_app. apply elem_of_app. right.
      by apply list_elem_of_singleton. }
    { done. }
    { done. }
    { intros [Hin _]%Hfk. simpl in Hin. by apply next_rowid_fresh in Hin. }
    exists db2. split; [|split; [done|done]].
    by apply bind_throws.
  - intros now id existing title url description favicon Hsel z row.
    destruct (updateBookmark_run now id
                (UpdateBookmarkRequest.mk title url description favicon
                   (Value (pre ++ bad :: post))) db existing Hsel)
      as [Hsel1 Hrun].
    pose proof (select_bookmark_Some _ _ _ Hsel) as [Hid Hin].
    simpl in Hsel1, Hrun. rewrite Hrun. clear Hrun.
    set (db1 := (update_bookmark
                   (default (BookmarkRow.title existing) title)
                   (default (BookmarkRow.url existing) url)
                   (default (BookmarkRow.description existing) description)
                   (default (BookmarkRow.favicon existing) favicon)
                   now id db).1) in *.
    destruct (for_of_insert_fails pre bad post id z
                (delete_bookmark_tags id db1).1 Hid)
      as (db3 & Hfor & Hb3 & Ht3 & Hbt3).
    { change (z ∈ BookmarkRow.id <$> bookmarks db1). unfold db1.
      rewrite update_bookmark_ids. apply list_elem_of_fmap. by exists existing. }
    { done. }
    { done. }
    { simpl. rewrite (filter_other_bookmark id z) by done. simpl. tauto. }
    exists db3. split; [|split].
    + apply bind_throws. by erewrite (bind_ok _ _ db1 _ tt).
    + by rewrite (select_bookmark_ext id db1 db3).
    + intros bt. rewrite Hbt3. simpl.
      by rewrite (filter_other_bookmark id z).
Qed.

(** ** ORDER BY created_at DESC *)

Lemma string_leb_trans (a b c : string) :
  String.leb a b = true → String.leb b c = true → String.leb a c = true.
Proof.
  unfold String.leb. intros Hab Hbc.
  destruct (String.compare a b) eqn:Cab; [|clear Hab|done].
  - apply String.compare_eq_iff in Cab as ->. done.
  - destruct (String.compare b c) eqn:Cbc; [| |done].
    + apply String.compare_eq_iff in Cbc as <-. by rewrite Cab.
    + apply String_as_OT.cmp_lt in Cab, Cbc.
      pose proof (String_as_OT.lt_trans _ _ _ Cab Cbc) as Hac.
      apply String_as_OT.cmp_lt in Hac. unfold String_as_OT.cmp in Hac.
      by rewrite Hac.
Qed.

#[local] Instance not_older_trans : Transitive not_older.
Proof.
  intros a b c Hab Hbc. unfold not_older in *. by eapply string_leb_trans.
Qed.

Lemma insert_desc_perm r l : insert_desc r l ≡ₚ r :: l.
Proof.
  induction l as [|r' l IH]; simpl; [done|].
  case_match; [done|]. rewrite IH. apply Permutation_swap.
Qed.

Lemma order_by_perm l : order_by_created_at_desc l ≡ₚ l.
Proof.
  induction l as [|r l IH]; simpl; [done|].
  by rewrite insert_desc_perm, IH.
Qed.

Lemma insert_desc_HdRel x r l :
  created_not_before x r →
  HdRel created_not_before x l →
  HdRel created_not_before x (insert_desc r l).
Proof.
  intros Hxr Hhd. destruct l as [|r' l]; simpl; [by constructor|].
  case_match; constructor; [done|]. by inv Hhd.
Qed.

Lemma insert_desc_sorted r l :
  Sorted created_not_before l → Sorted created_not_before (insert_desc r l).
Proof.
  induction 1 as [|r' l Hsorted IH Hhd]; simpl.
  - by repeat constructor.
  - destruct (String.leb (BookmarkRow.created_at r')
                (BookmarkRow.created_at r)) eqn:Hle.
    + constructor; [by constructor|]. by constructor.
    + constructor; [done|]. apply insert_desc_HdRel; [|done].
      unfold created_not_before.
      destruct (String.leb_total (BookmarkRow.created_at r')
                  (BookmarkRow.created_at r)); congruence.
Qed.

Lemma order_by_sorted l :
  Sorted created_not_before (order_by_created_at_desc l).
Proof.
  induction l as [|r l IH]; simpl; [constructor|].
  by apply insert_desc_sorted.
Qed.

Lemma order_by_newest_first db l :
  StronglySorted not_older (attach db <$> order_by_created_at_desc l).
Proof.
  apply Sorted_StronglySorted; [apply _|].
  apply (Sorted_fmap _ created_not_before); [done|]. apply order_by_sorted.
Qed.

(** ** The three cases of [listBookmarks] *)

Lemma listBookmarks_by_tag search c t db :
  listBookmarks search (Some (String c t)) db
  = (db, inr (attach db <$>
                select_bookmarks_by_tag (Js.Number (String c t)) db)).
Proof.
  unfold listBookmarks. simpl. rewrite bind_query. apply map_M_attachTags.
Qed.

Lemma listBookmarks_search c s tagId db :
  truthy tagId = false →
  let pattern := "%" +:+ String c s +:+ "%" in
  listBookmarks (Some (String c s)) tagId db
  = (db, inr (attach db <$> select_bookmarks_like pattern pattern pattern db)).
Proof.
  intros Htag pattern. unfold listBookmarks. rewrite Htag.
  change (truthy (Some (String c s))) with true. cbv iota.
  rewrite bind_query. apply map_M_attachTags.
Qed.

Lemma listBookmarks_all search tagId db :
  truthy tagId = false → truthy search = false →
  listBookmarks search tagId db = (db, inr (attach db <$> select_bookmarks db)).
Proof.
  intros Htag Hsearch. unfold listBookmarks. rewrite Htag, Hsearch.
  rewrite bind_query. apply map_M_attachTags.
Qed.

Lemma elem_of_select_bookmarks_by_tag r tag db :
  r ∈ select_bookmarks_by_tag tag db
  ↔ r ∈ bookmarks db
    ∧ ∃ bt, bt ∈ bookmark_tags db
            ∧ BookmarkTag.bookmark_id bt = BookmarkRow.id r
            ∧ Js.to_int tag = Some (BookmarkTag.tag_id bt).
Proof.
  unfold select_bookmarks_by_tag.
  rewrite order_by_perm, elem_of_remove_dups, list_elem_of_bind. split.
  - intros (bt & Hin & Hbt).
    apply list_elem_of_bind in Hin as (b & Hin & Hb).
    case_decide as Hc; [|by apply elem_of_nil in Hin].
    apply list_elem_of_singleton in Hin as ->. destruct Hc as [Hc1 Hc2].
    split; [done|]. by exists bt.
  - intros (Hin & bt & Hbt & Hc1 & Hc2). exists bt. split; [|done].
    apply list_elem_of_bind. exists r. split; [|done].
    rewrite decide_True by done. by apply list_elem_of_singleton.
Qed.

(** C2.  [listBookmarks] reads only, and what it sends is ordered by
    [createdAt], newest first, in each of its three cases.  With a [tagId]
    (a query parameter that is there and not empty, as every integer is
    when written out) it sends, once each, the bookmarks that have a row in
    [bookmark_tags] for the tag [Number(tagId)], whatever [search] is.
    Otherwise, with a [search] that is not empty, it sends the bookmarks that
    the LIKE filter on [title], [url] and [description] keeps.  Otherwise,
    so too when [search] is the empty string, it sends all bookmarks. *)
Theorem listBookmarks_filter (db : Database) (search tagId : option string) :
  ∃ rows,
    listBookmarks search tagId db = (db, inr (attach db <$> rows))
    ∧ StronglySorted not_older (attach db <$> rows)
    ∧ match tagId, search with
      | Some (String _ _ as tagId), _ =>
          NoDup rows
          ∧ ∀ r, r ∈ rows
                 ↔ r ∈ bookmarks db
                   ∧ ∃ bt, bt ∈ bookmark_tags db
                           ∧ BookmarkTag.bookmark_id bt = BookmarkRow.id r
                           ∧ Js.to_int (Js.Number tagId)
                             = Some (BookmarkTag.tag_id bt)
      | _, Some (String _ _ as search) =>
          let pattern := "%" +:+ search +:+ "%" in
          rows ≡ₚ filter (λ r, like pattern (BookmarkRow.title r)
                               || like pattern (BookmarkRow.url r)
                               || like pattern (BookmarkRow.description r))
                         (bookmarks db)
      | _, _ => rows ≡ₚ bookmarks db
      end.
Proof.
  destruct tagId as [[|c t]|].
  2:{ exists (select_bookmarks_by_tag (Js.Number (String c t)) db).
      split; [apply listBookmarks_by_tag|].
      split; [apply order_by_newest_first|]. split.
      - unfold select_bookmarks_by_tag. rewrite order_by_perm.
        apply NoDup_remove_dups.
      - intros r. apply elem_of_select_bookmarks_by_tag. }
  all: destruct search as [[|c s]|].
  all: try (exists (select_bookmarks db);
            split; [by apply listBookmarks_all|];
            split; [apply order_by_newest_first|apply order_by_perm]).
  all: eexists; (split; [by apply listBookmarks_search|]);
       (split; [apply order_by_newest_first|apply order_by_perm]).
Qed.

(** ** Titles and urls that are not empty *)

Lemma titled_insert_bookmark now title url description favicon :
  title ≠ "" → url ≠ "" →
  preserves titled (insert_bookmark now title url description favicon).
Proof.
  intros Htitle Hurl db Ht r Hr. simpl in Hr.
  apply elem_of_app in Hr as [Hr|Hr]; [by apply Ht|].
  by apply list_elem_of_singleton in Hr as ->.
Qed.

Lemma titled_same_bookmarks {A} (m : M A) :
  (∀ db, bookmarks (m db).1 = bookmarks db) → preserves titled m.
Proof. intros Hm db Ht r Hr. rewrite Hm in Hr. by apply Ht. Qed.

Lemma titled_insert_bookmark_tag bookmark tag :
  preserves titled (insert_bookmark_tag bookmark tag).
Proof.
  apply titled_same_bookmarks. intros db. unfold insert_bookmark_tag.
  destruct bookmark as [| |m e]; [done|done|].
  destruct (Js.to_int (Js.Fin m e)); [|done]. by repeat case_decide.
Qed.

Lemma titled_insert_tag io name color :
  preserves titled (insert_tag io name color).
Proof.
  apply titled_same_bookmarks. intros db. unfold insert_tag.
  destruct io; [done|]. by case_decide.
Qed.

Lemma titled_delete_bookmark id : preserves titled (delete_bookmark id).
Proof.
  intros db Ht r Hr. simpl in Hr. apply list_elem_of_filter in Hr as [_ Hr].
  by apply Ht.
Qed.

Lemma titled_update_bookmark title url description favicon now id :
  title ≠ "" → url ≠ "" →
  preserves titled (update_bookmark title url description favicon now id).
Proof.
  intros Htitle Hurl db Ht r Hr. simpl in Hr.
  apply list_elem_of_fmap in Hr as (r0 & -> & Hr0).
  case_decide; [done|]. by apply Ht.
Qed.

Lemma titled_initDatabase : titled initDatabase.
Proof. intros r Hr. simpl in Hr. by apply elem_of_nil in Hr. Qed.

Lemma titled_createBookmark now body db :
  titled db → titled (createBookmark now body db).1.
Proof.
  apply preserves_createBookmark; [|apply titled_insert_bookmark_tag].
  intros. by apply titled_insert_bookmark.
Qed.

Lemma titled_updateBookmark now id body db :
  UpdateBookmarkRequest.title body ≠ Some "" →
  UpdateBookmarkRequest.url body ≠ Some "" →
  titled db → titled (updateBookmark now id body db).1.
Proof.
  intros Htitle Hurl.
  apply preserves_updateBookmark; [apply titled_insert_bookmark_tag| |].
  - intros bookmark. by apply titled_same_bookmarks.
  - intros existing db0 Ht0 [_ Hin]%select_bookmark_Some.
    destruct (Ht0 existing Hin) as [He1 He2].
    apply titled_update_bookmark; [| |done].
    + destruct (UpdateBookmarkRequest.title body) as [title|]; simpl;
        congruence.
    + destruct (UpdateBookmarkRequest.url body) as [url|]; simpl;
        congruence.
Qed.

Lemma titled_handle r db : sets_no_empty r → titled db → titled (handle r db).
Proof.
  destruct r; simpl; intros Hr Ht.
  - by apply titled_createBookmark.
  - destruct Hr. by apply titled_updateBookmark.
  - by apply preserves_deleteBookmark; [apply titled_delete_bookmark|].
  - by apply preserves_createTag; [apply titled_insert_tag|].
  - apply preserves_deleteTag; [|done].
    intros id'. by apply titled_same_bookmarks.
Qed.

(** C7, amended.  In every state reached by requests of which no update set
    the title or the url to the empty string, every stored bookmark has a
    title and a url that are not empty.  From there a [createBookmark] whose
    title or url is missing or empty fails with status 400 and writes
    nothing, every [createBookmark] leads to a state of the same kind, and
    so does every [updateBookmark] whose patch has no empty title and no
    empty url. *)
Theorem titled_preserved (db : Database) :
  reachable_by sets_no_empty db →
  titled db
  ∧ (∀ now body,
       (truthy (CreateBookmarkRequest.title body) = false
        ∨ truthy (CreateBookmarkRequest.url body) = false →
        createBookmark now body db = (db, inl (AppError 400)))
       ∧ titled (createBookmark now body db).1)
  ∧ (∀ now id body,
       UpdateBookmarkRequest.title body ≠ Some "" →
       UpdateBookmarkRequest.url body ≠ Some "" →
       titled (updateBookmark now id body db).1).
Proof.
  intros Hreach.
  assert (titled db) as Ht.
  { induction Hreach as [|r db Hreach IH Hr]; [apply titled_initDatabase|].
    by apply titled_handle. }
  split; [done|]. split.
  - intros now body. split; [|by apply titled_createBookmark].
    unfold createBookmark. intros [-> | ->]; [done|]. by rewrite orb_true_r.
  - intros now id body Htitle Hurl. by apply titled_updateBookmark.
Qed.

(** ** Identifiers that are not integers *)

(** C8, amended.  For an id that is not an integer the four operations with
    an [:id] fail and write nothing: with status 400 when [Number] makes NaN
    of it, and with status 404 when it makes a number of it, which is then
    looked up and found in no row. *)
Theorem non_integer_id (params_id now : string)
    (body : UpdateBookmarkRequest.t) (db : Database) :
  Js.to_int (Js.Number params_id) = None →
  let err :=
    AppError (if Js.isNaN (Js.Number params_id) then 400 else 404) in
  get_bookmark_route params_id db = (db, inl err)
  ∧ put_bookmark_route now params_id body db = (db, inl err)
  ∧ delete_bookmark_route params_id db = (db, inl err)
  ∧ delete_tag_route params_id db = (db, inl err).
Proof.
  unfold get_bookmark_route, put_bookmark_route, delete_bookmark_route,
    delete_tag_route, getBookmark, updateBookmark, deleteBookmark, deleteTag.
  intros Hid. destruct (Js.isNaN (Js.Number params_id)); [done|].
  rewrite !bind_query. unfold select_bookmark, select_tag. by rewrite Hid.
Qed.

(** ** Storage failures in [createTag] *)

(** What [createTag] does, case by case. *)
Lemma createTag_cases io body db :
  createTag io body db
  = match CreateTagRequest.name body with
    | None | Some "" => (db, inl (AppError 400))
    | Some name =>
        let color := default "#6366f1" (CreateTagRequest.color body) in
        match io with
        | Some _ => (db, inl (AppError 409))
        | None =>
            if decide (name ∈ Tag.name <$> tags db)
            then (db, inl (AppError 409))
            else
              let id := next_rowid (Tag.id <$> tags db) (seq_tags db) in
              ({| bookmarks := bookmarks db;
                  tags := tags db ++ [Tag.mk id name color];
                  bookmark_tags := bookmark_tags db;
                  seq_bookmarks := seq_bookmarks db;
                  seq_tags := id |},
               inr (Tag.mk id name color))
        end
    end.
Proof.
  unfold createTag. destruct (CreateTagRequest.name body) as [[|c name]|];
    [done| |done].
  simpl. unfold_M. unfold insert_tag. destruct io; [done|].
  by case_decide.
Qed.

(** C6.  The storage fails the INSERT of a tag whose name is new with
    SQLITE_FULL: [createTag] throws the [AppError] with status 409, the one
    of a name that exists, where [errorHandler] would have answered the
    error itself with 500. *)
Theorem createTag_full_disk_is_conflict :
  let body := CreateTagRequest.mk (Some "work") None in
  ("work" ∉ Tag.name <$> tags initDatabase)
  ∧ createTag (Some SQLITE_FULL) body initDatabase
    = (initDatabase, inl (AppError 409))
  ∧ errorHandler (AppError 409) = 409
  ∧ errorHandler (SqliteError SQLITE_FULL) = 500.
Proof.
  simpl. split; [|done]. by intros ?%elem_of_nil.
Qed.

(** ** Bytes and characters *)

Ltac decide_Z :=
  repeat match goal with
         | |- context [?a <=? ?b] => destruct (Z.leb_spec a b)
         | |- context [?a <? ?b] => destruct (Z.ltb_spec a b)
         | H : context [?a <=? ?b] |- _ => destruct (Z.leb_spec a b)
         | H : context [?a <? ?b] |- _ => destruct (Z.ltb_spec a b)
         | |- context [?a =? ?b] => destruct (Z.eqb_spec a b)
         | H : context [?a =? ?b] |- _ => destruct (Z.eqb_spec a b)
         | _ => progress simpl in *
         end;
  try done; try lia.

Lemma code_bounds c : 0 ≤ Js.code c < 256.
Proof. by destruct c as [[] [] [] [] [] [] [] []]. Qed.

Lemma code_inj a b : Js.code a = Js.code b → a = b.
Proof.
  unfold Js.code. intros Heq%Nat2Z.inj.
  by rewrite <- (ascii_nat_embedding a), <- (ascii_nat_embedding b), Heq.
Qed.

Lemma code_upper c : Js.code (upper c) = toupper (Js.code c).
Proof. by destruct c as [[] [] [] [] [] [] [] []]. Qed.

Lemma code_percent c : (Js.code c =? 37) = (c =? "%")%char.
Proof. by destruct c as [[] [] [] [] [] [] [] []]. Qed.

Lemma code_underscore c : (Js.code c =? 95) = (c =? "_")%char.
Proof. by destruct c as [[] [] [] [] [] [] [] []]. Qed.

Lemma utf8_char_ge c : 128 ≤ utf8_char c.
Proof. unfold utf8_char. destruct (Z.ltb_spec c 128); simpl; [lia|]. case_match; lia. Qed.

Lemma utf8_chars_cons b s :
  utf8_chars None (String b s)
  = if Js.code b =? 0 then []
    else if 192 <=? Js.code b
         then utf8_chars (Some (utf8_lead (Js.code b))) s
         else Js.code b :: utf8_chars None s.
Proof. simpl. decide_Z. Qed.

Lemma utf8_chars_pending c s :
  ∃ x l, utf8_chars (Some c) s = x :: l ∧ 128 ≤ x.
Proof.
  revert c. induction s as [|b s IH]; intros c; simpl.
  - eexists _, _. split; [done|]. apply utf8_char_ge.
  - destruct ((128 <=? Js.code b) && (Js.code b <? 192)); [apply IH|].
    eexists _, _. split; [done|]. apply utf8_char_ge.
Qed.

Lemma same_char_ascii a b :
  Js.code a < 128 →
  same_char (Js.code a) (Js.code b) = (upper a =? upper b)%char.
Proof.
  intros Ha. pose proof (code_bounds a). pose proof (code_bounds b).
  destruct (Ascii.eqb_spec (upper a) (upper b)) as [Heq|Hne].
  - apply (f_equal Js.code) in Heq. rewrite !code_upper in Heq.
    unfold same_char, tolower, toupper in *. revert Heq. decide_Z.
  - assert (toupper (Js.code a) ≠ toupper (Js.code b)) as Hcode.
    { rewrite <- !code_upper. by intros ?%code_inj. }
    unfold same_char, tolower, toupper in *. revert Hcode. decide_Z.
Qed.

Lemma same_char_other p x : p < 128 → 128 ≤ x → same_char p x = false.
Proof. intros Hp Hx. unfold same_char. decide_Z. Qed.

(** ** LIKE and substrings *)

Lemma like_chars_percent_cons p x l :
  like_chars (37 :: p) (x :: l) = like_chars p (x :: l) || like_chars (37 :: p) l.
Proof. done. Qed.

Lemma like_chars_percent_nil p : like_chars (37 :: p) [] = like_chars p [].
Proof. simpl. apply orb_false_r. Qed.

Lemma like_chars_percent l : like_chars [37] l = true.
Proof.
  induction l as [|x l IH]; [done|].
  by rewrite like_chars_percent_cons, IH, orb_true_r.
Qed.

Lemma like_percent text : like "%" text = true.
Proof. apply like_chars_percent. Qed.

Lemma ascii_text_cons a s :
  ascii_text (String a s) = true →
  0 < Js.code a < 128 ∧ ascii_text s = true.
Proof.
  simpl. intros [[H1 H2]%andb_true_iff Hs]%andb_true_iff.
  split; [lia|done].
Qed.

Lemma wildcard_free_cons a s :
  wildcard_free (String a s) = true →
  (Js.code a =? 37) = false ∧ (Js.code a =? 95) = false
  ∧ wildcard_free s = true.
Proof.
  simpl. intros [[H1 H2]%andb_true_iff Hs]%andb_true_iff.
  rewrite code_percent, code_underscore.
  by apply negb_true_iff in H1, H2.
Qed.

Lemma utf8_chars_ascii a s :
  0 < Js.code a < 128 →
  utf8_chars None (String a s) = Js.code a :: utf8_chars None s.
Proof. intros Ha. rewrite utf8_chars_cons. decide_Z. Qed.

(** A pattern that begins with a character of ASCII other than a wildcard
    matches no text that begins with a character beyond ASCII. *)
Lemma like_chars_other a p x l :
  a < 128 → (a =? 37) = false → (a =? 95) = false → 128 ≤ x →
  like_chars (a :: p) (x :: l) = false.
Proof.
  intros Ha H37 H95 Hx. simpl. rewrite H37, H95.
  by rewrite same_char_other.
Qed.

Lemma like_prefix s text :
  ascii_text s = true → wildcard_free s = true →
  like (s +:+ "%") text = prefix_ci s (c_string text).
Proof.
  revert text. induction s as [|a s IH]; intros text Hascii Hfree.
  - apply like_percent.
  - apply ascii_text_cons in Hascii as [Ha Hascii].
    apply wildcard_free_cons in Hfree as (H37 & H95 & Hfree).
    unfold like. change (String a s +:+ "%") with (String a (s +:+ "%")).
    rewrite (utf8_chars_ascii a) by done.
    destruct text as [|b text]; [by simpl; rewrite H37|].
    rewrite utf8_chars_cons. simpl c_string.
    destruct (Z.eqb_spec (Js.code b) 0) as [|Hnul]; [by simpl; rewrite H37|].
    destruct (Z.leb_spec 192 (Js.code b)) as [Hlead|Hbyte].
    + destruct (utf8_chars_pending (utf8_lead (Js.code b)) text)
        as (x & l & -> & Hx).
      rewrite like_chars_other by (done || lia).
      simpl. rewrite <- same_char_ascii by lia.
      rewrite same_char_other by lia. done.
    + simpl. rewrite H37, H95, same_char_ascii by lia. simpl.
      f_equal. by apply IH.
Qed.

(** For a search of ASCII characters without wildcards, the pattern [%s%]
    is the substring test of the specification on the text up to its first
    NUL byte. *)
Lemma like_contains s text :
  s ≠ "" → ascii_text s = true → wildcard_free s = true →
  like ("%" +:+ s +:+ "%") text = contains_ci s (c_string text).
Proof.
  intros Hne Hascii Hfree. unfold like.
  change ("%" +:+ s +:+ "%") with (String "%" (s +:+ "%")).
  rewrite (utf8_chars_ascii "%") by done. change (Js.code "%") with 37.
  assert (like_chars (utf8_chars None (s +:+ "%")) [] = false) as Hnil.
  { destruct s as [|a s]; [done|].
    apply ascii_text_cons in Hascii as [Ha _].
    apply wildcard_free_cons in Hfree as (H37 & _).
    change (String a s +:+ "%") with (String a (s +:+ "%")).
    rewrite (utf8_chars_ascii a) by done. simpl. by rewrite H37. }
  assert (∀ x l, 128 ≤ x →
            like_chars (utf8_chars None (s +:+ "%")) (x :: l) = false)
    as Hother.
  { intros x l Hx. destruct s as [|a s]; [done|].
    apply ascii_text_cons in Hascii as [Ha _].
    apply wildcard_free_cons in Hfree as (H37 & H95 & _).
    change (String a s +:+ "%") with (String a (s +:+ "%")).
    rewrite (utf8_chars_ascii a) by done.
    apply like_chars_other; done || lia. }
  assert (∀ b t, 128 ≤ Js.code b → prefix_ci s (String b t) = false)
    as Hbyte.
  { intros b t Hb. destruct s as [|a s]; [done|].
    apply ascii_text_cons in Hascii as [Ha _]. simpl.
    rewrite <- same_char_ascii by lia. by rewrite same_char_other by lia. }
  assert (prefix_ci s "" = false) as Hempty by (by destruct s).
  assert (∀ pending,
            like_chars (37 :: utf8_chars None (s +:+ "%"))
              (match pending with Some c => [utf8_char c] | None => [] end)
            = false) as Hflush.
  { intros [c|].
    - rewrite like_chars_percent_cons, like_chars_percent_nil, Hnil.
      rewrite Hother by apply utf8_char_ge. done.
    - by rewrite like_chars_percent_nil. }
  assert (∀ t, like_chars (utf8_chars None (s +:+ "%")) (utf8_chars None t)
               = prefix_ci s (c_string t)) as Hprefix
    by (intros t; by apply like_prefix).
  set (pattern := utf8_chars None (s +:+ "%")) in *.
  generalize (@None Z) as pending.
  induction text as [|b text IH]; intros pending.
  { simpl c_string. simpl contains_ci. rewrite Hempty. apply Hflush. }
  assert (∀ l, like_chars (37 :: pattern)
                 (match pending with Some c => [utf8_char c] | None => [] end
                  ++ l)
               = like_chars (37 :: pattern) l) as Hskip.
  { intros l. destruct pending as [c|]; [|done]. simpl app.
    rewrite like_chars_percent_cons, Hother by apply utf8_char_ge. done. }
  simpl c_string. simpl utf8_chars.
  pose proof (code_bounds b) as Hb.
  destruct (Z.eqb_spec (Js.code b) 0) as [Hnul|Hnul].
  { rewrite Hnul. cbn -[like_chars prefix_ci].
    rewrite app_nil_r, Hempty. apply Hflush. }
  simpl contains_ci.
  destruct (Z.leb_spec 128 (Js.code b)) as [Hhigh|Hlow];
    cbn -[like_chars prefix_ci contains_ci].
  - rewrite Hbyte by done. cbn -[like_chars prefix_ci contains_ci].
    destruct (Z.ltb_spec (Js.code b) 192) as [Hcont|Hlead].
    + destruct pending as [c|]; [apply IH|].
      rewrite like_chars_percent_cons, Hother by done. apply IH.
    + rewrite Hskip. destruct (Z.leb_spec 192 (Js.code b)); [|lia]. apply IH.
  - rewrite Hskip. destruct (Z.leb_spec 192 (Js.code b)); [lia|].
    rewrite like_chars_percent_cons, IH. f_equal.
    rewrite <- (utf8_chars_ascii b) by lia. rewrite Hprefix. simpl c_string.
    by destruct (Z.eqb_spec (Js.code b) 0).
Qed.

(** For a [search] of ASCII characters without wildcards [listBookmarks]
    sends the bookmarks that contain it in their title, url or description,
    each read up to its first NUL byte. *)
Lemma search_without_wildcards c s db :
  ascii_text (String c s) = true →
  wildcard_free (String c s) = true →
  ∃ rows,
    listBookmarks (Some (String c s)) None db = (db, inr (attach db <$> rows))
    ∧ rows ≡ₚ filter (λ r, contains_ci (String c s)
                             (c_string (BookmarkRow.title r))
                           || contains_ci (String c s)
                                (c_string (BookmarkRow.url r))
                           || contains_ci (String c s)
                                (c_string (BookmarkRow.description r)))
                     (bookmarks db).
Proof.
  intros Hascii Hfree. eexists. split; [by apply listBookmarks_search|].
  unfold select_bookmarks_like. rewrite order_by_perm.
  erewrite list_filter_iff; [done|]. intros r.
  by rewrite !like_contains.
Qed.

(** C4.  The store has the bookmarks GitHub and Example, and none of their
    titles, urls and descriptions contains an underscore; the search for an
    underscore sends both. *)
Theorem search_underscore_sends_all :
  Forall (λ r, contains_ci "_" (BookmarkRow.title r) = false
               ∧ contains_ci "_" (BookmarkRow.url r) = false
               ∧ contains_ci "_" (BookmarkRow.description r) = false)
         (bookmarks Examples.github)
  ∧ ∃ example github,
      BookmarkWithTags.title example = "Example"
      ∧ BookmarkWithTags.title github = "GitHub"
      ∧ listBookmarks (Some "_") None Examples.github
        = (Examples.github, inr [example; github]).
Proof.
  split.
  - vm_compute. by repeat constructor.
  - eexists _, _. split; [|split]; [| |vm_compute; reflexivity]; done.
Qed.

(** ** The claims on the example stores *)

Lemma reachable_two_tags allowed :
  (∀ io body, allowed (CreateTag io body)) →
  reachable_by allowed Examples.two_tags.
Proof.
  intros Hallowed.
  apply (reachable_step _ (CreateTag None _)); [|done].
  apply (reachable_step _ (CreateTag None _)); [|done].
  apply reachable_init.
Qed.

Lemma reachable_one_bookmark allowed :
  (∀ io body, allowed (CreateTag io body)) →
  (∀ now body, allowed (CreateBookmark now body)) →
  reachable_by allowed Examples.one_bookmark.
Proof.
  intros Htag Hbookmark.
  apply (reachable_step _ (CreateBookmark Examples.t0 _)); [|done].
  by apply reachable_two_tags.
Qed.

Lemma tag_ids_two_tags : Tag.id <$> tags Examples.two_tags = [1; 2].
Proof. reflexivity. Qed.

Lemma tag_ids_one_bookmark : Tag.id <$> tags Examples.one_bookmark = [1; 2].
Proof. reflexivity. Qed.

(** C1, as stated, fails: tag 1 exists and tag 99 does not.  The create with
    tagIds [1, 99] fails, and the store has the new bookmark with tag 1; the
    update of bookmark 1 with tagIds [2, 99] fails, and the bookmark has its
    new title and tag 2 in place of tag 1. *)
Lemma failed_request_leaves_its_writes :
  (let r := createBookmark Examples.t0
              (CreateBookmarkRequest.mk (Some "A") (Some "http://a") None None
                 (Some [1; 99]))
              Examples.two_tags in
   r.2 = inl (SqliteError SQLITE_CONSTRAINT_FOREIGNKEY)
   ∧ r.1 ≠ Examples.two_tags
   ∧ BookmarkRow.title <$> bookmarks r.1 = ["A"]
   ∧ bookmark_tags r.1 = [BookmarkTag.mk 1 1])
  ∧ (let r := updateBookmark Examples.t2 (Js.of_int 1)
                (UpdateBookmarkRequest.mk (Some "B") None None None
                   (Value [2; 99]))
                Examples.one_bookmark in
     r.2 = inl (SqliteError SQLITE_CONSTRAINT_FOREIGNKEY)
     ∧ r.1 ≠ Examples.one_bookmark
     ∧ BookmarkRow.title <$> bookmarks r.1 = ["B"]
     ∧ bookmark_tags r.1 = [BookmarkTag.mk 1 2]).
Proof.
  split; vm_compute; (split; [reflexivity|split; [discriminate|done]]).
Qed.

(** C1, amended, on the store with two tags: a create with tagIds [1, 99]. *)
Lemma failed_insert_keeps_earlier_statements_witness :
  ∃ db',
    createBookmark Examples.t0
      (CreateBookmarkRequest.mk (Some "A") (Some "http://a") None None
         (Some ([1] ++ 99 :: [])))
      Examples.two_tags
    = (db', inl (SqliteError SQLITE_CONSTRAINT_FOREIGNKEY))
    ∧ length (bookmarks db') = 1%nat.
Proof.
  destruct (failed_insert_keeps_earlier_statements Examples.two_tags [1] [] 99)
    as [Hcreate _].
  - by apply reachable_two_tags.
  - rewrite tag_ids_two_tags. intros t Ht.
    apply list_elem_of_singleton in Ht as ->. apply elem_of_cons. by left.
  - rewrite tag_ids_two_tags. intros Hin.
    apply elem_of_cons in Hin as [Hin|Hin]; [lia|].
    apply elem_of_cons in Hin as [Hin|Hin]; [lia|].
    by apply elem_of_nil in Hin.
  - destruct (Hcreate Examples.t0 "A" "http://a" None None)
      as (db' & Hrun & Hb & _); [done|done|].
    exists db'. split; [done|]. by rewrite Hb.
Defined.

(** C3, as stated, fails: bookmark 1 has tag 1 and no tag has id 99.  The
    update with tagIds [99] fails; bookmark 1 does not have tag 99
    afterwards, it has no tag at all. *)
Lemma update_with_unknown_tag :
  let r := updateBookmark Examples.t2 (Js.of_int 1)
             (UpdateBookmarkRequest.mk None None None None (Value [99]))
             Examples.one_bookmark in
  bookmark_tags Examples.one_bookmark = [BookmarkTag.mk 1 1]
  ∧ r.2 = inl (SqliteError SQLITE_CONSTRAINT_FOREIGNKEY)
  ∧ bookmark_tags r.1 = [].
Proof. vm_compute. done. Qed.

(** C3, amended, on the store with one bookmark: a patch with an empty
    title, a description and tagIds [2]. *)
Lemma updateBookmark_patch_witness :
  ∃ db' sent,
    updateBookmark Examples.t2 (Js.of_int 1)
      (UpdateBookmarkRequest.mk (Some "") None (Some "notes") None (Value [2]))
      Examples.one_bookmark
    = (db', inr sent)
    ∧ BookmarkWithTags.title sent = ""
    ∧ BookmarkWithTags.url sent = "http://a"
    ∧ BookmarkWithTags.updatedAt sent = Examples.t2.
Proof.
  destruct (updateBookmark_patch Examples.one_bookmark Examples.t2
              (Js.of_int 1)
              (UpdateBookmarkRequest.mk (Some "") None (Some "notes") None
                 (Value [2]))
              (BookmarkRow.mk 1 "A" "http://a" "" "" Examples.t0 Examples.t0))
    as (db' & Hrun & _).
  - reflexivity.
  - done.
  - rewrite tag_ids_one_bookmark. simpl. intros t Ht.
    apply list_elem_of_singleton in Ht as ->.
    apply elem_of_cons. right. apply elem_of_cons. by left.
  - eexists db', _. split; [exact Hrun|]. done.
Defined.

(** C5 on the store with one bookmark. *)
Lemma referential_integrity_witness : fk_ok Examples.one_bookmark.
Proof.
  apply (referential_integrity Examples.one_bookmark).
  by apply reachable_one_bookmark.
Defined.

(** C7, as stated, fails: the update of bookmark 1 with the title [""] leads
    to a reachable store whose bookmark has the empty title. *)
Lemma empty_title_is_reachable :
  let db := (updateBookmark Examples.t2 (Js.of_int 1)
               (UpdateBookmarkRequest.mk (Some "") None None None Undefined)
               Examples.one_bookmark).1 in
  reachable db
  ∧ BookmarkRow.title <$> bookmarks db = [""]
  ∧ ¬ titled db.
Proof.
  split; [|split].
  - apply (reachable_step _ (UpdateBookmark Examples.t2 (Js.of_int 1) _));
      [|done].
    by apply reachable_one_bookmark.
  - reflexivity.
  - intros Ht.
    destruct (Ht (BookmarkRow.mk 1 "" "http://a" "" "" Examples.t0 Examples.t2))
      as [Htitle _]; [|done].
    vm_compute. by left.
Qed.

(** C7, amended, on the store with one bookmark: a patch with the title B. *)
Lemma titled_preserved_witness :
  titled (updateBookmark Examples.t2 (Js.of_int 1)
            (UpdateBookmarkRequest.mk (Some "B") None None None Undefined)
            Examples.one_bookmark).1.
Proof.
  destruct (titled_preserved Examples.one_bookmark) as (_ & _ & Hupdate).
  - by apply reachable_one_bookmark.
  - by apply Hupdate.
Defined.

(** C8, as stated, fails: 1.5 is not an integer and is no NaN either; the
    four operations look it up and throw the [AppError] with status 404,
    not 400. *)
Lemma one_and_a_half_is_not_found :
  let body := UpdateBookmarkRequest.mk None None None None Undefined in
  let db := Examples.one_bookmark in
  Js.to_int (Js.Number "1.5") = None
  ∧ get_bookmark_route "1.5" db = (db, inl (AppError 404))
  ∧ put_bookmark_route Examples.t2 "1.5" body db = (db, inl (AppError 404))
  ∧ delete_bookmark_route "1.5" db = (db, inl (AppError 404))
  ∧ delete_tag_route "1.5" db = (db, inl (AppError 404))
  ∧ errorHandler (AppError 404) = 404.
Proof. vm_compute. done. Qed.

(** C8, amended, for the id [abc], of which [Number] makes NaN. *)
Lemma non_integer_id_witness :
  get_bookmark_route "abc" Examples.one_bookmark
  = (Examples.one_bookmark, inl (AppError 400))
  ∧ delete_tag_route "abc" Examples.one_bookmark
    = (Examples.one_bookmark, inl (AppError 400)).
Proof.
  destruct (non_integer_id "abc" Examples.t2
              (UpdateBookmarkRequest.mk None None None None Undefined)
              Examples.one_bookmark) as (Hget & _ & _ & Hdel).
  - reflexivity.
  - by split.
Defined.

(** C9 on the store with two tags. *)
Lemma create_then_get_witness :
  ∃ db' created fetched,
    createBookmark Examples.t0
      (CreateBookmarkRequest.mk (Some "A") (Some "http://a") None None
         (Some [1; 2]))
      Examples.two_tags
    = (db', inr created)
    ∧ getBookmark (Js.of_int (BookmarkWithTags.id created)) db'
      = (db', inr fetched)
    ∧ BookmarkWithTags.title fetched = "A"
    ∧ BookmarkWithTags.createdAt fetched = BookmarkWithTags.updatedAt fetched.
Proof.
  destruct (create_then_get Examples.two_tags Examples.t0 None None)
    as (db' & created & fetched & Hcreate & Hget & Htitle & _ & _ & _ & Hat).
  - by apply reachable_two_tags.
  - rewrite tag_ids_two_tags. apply elem_of_cons. by left.
  - rewrite tag_ids_two_tags. apply elem_of_cons. right.
    apply elem_of_cons. by left.
  - by exists db', created, fetched.
Defined.

(** * More of the server *)

(** ** GET /api/tags *)

Lemma insert_name_asc_perm t l : insert_name_asc t l ≡ₚ t :: l.
Proof.
  induction l as [|t' l IH]; simpl; [done|].
  case_match; [done|]. rewrite IH. apply Permutation_swap.
Qed.

Lemma order_by_name_perm l : order_by_name_asc l ≡ₚ l.
Proof.
  induction l as [|t l IH]; simpl; [done|].
  by rewrite insert_name_asc_perm, IH.
Qed.

Lemma insert_name_asc_HdRel x t l :
  name_not_after x t →
  HdRel name_not_after x l →
  HdRel name_not_after x (insert_name_asc t l).
Proof.
  intros Hxt Hhd. destruct l as [|t' l]; simpl; [by constructor|].
  case_match; constructor; [done|]. by inv Hhd.
Qed.

Lemma insert_name_asc_sorted t l :
  Sorted name_not_after l → Sorted name_not_after (insert_name_asc t l).
Proof.
  induction 1 as [|t' l Hsorted IH Hhd]; simpl.
  - by repeat constructor.
  - destruct (String.leb (Tag.name t) (Tag.name t')) eqn:Hle.
    + constructor; [by constructor|]. by constructor.
    + constructor; [done|]. apply insert_name_asc_HdRel; [|done].
      unfold name_not_after.
      destruct (String.leb_total (Tag.name t) (Tag.name t')); congruence.
Qed.

#[local] Instance name_not_after_trans : Transitive name_not_after.
Proof.
  intros a b c Hab Hbc. unfold name_not_after in *.
  by eapply string_leb_trans.
Qed.

(** X1.  [listTags] reads only and always succeeds; it sends every row of
    [tags], each as often as it is stored, in ascending order of the name. *)
Theorem listTags_sorted (db : Database) :
  ∃ sent,
    listTags db = (db, inr sent)
    ∧ sent ≡ₚ tags db
    ∧ StronglySorted name_not_after sent.
Proof.
  exists (select_tags db). split; [done|]. split.
  - apply order_by_name_perm.
  - apply Sorted_StronglySorted; [apply _|]. unfold select_tags.
    induction (tags db) as [|t l IH]; simpl; [constructor|].
    by apply insert_name_asc_sorted.
Qed.

(** ** An invariant of every statement is one of every request *)

Lemma preserves_handle (P : Database → Prop) :
  (∀ now title url description favicon,
     preserves P (insert_bookmark now title url description favicon)) →
  (∀ bookmark tag, preserves P (insert_bookmark_tag bookmark tag)) →
  (∀ bookmark, preserves P (delete_bookmark_tags bookmark)) →
  (∀ title url description favicon now id,
     preserves P (update_bookmark title url description favicon now id)) →
  (∀ id, preserves P (delete_bookmark id)) →
  (∀ io name color, preserves P (insert_tag io name color)) →
  (∀ id, preserves P (delete_tag id)) →
  ∀ r db, P db → P (handle r db).
Proof.
  intros H1 H2 H3 H4 H5 H6 H7 r db HP. destruct r; simpl.
  - apply preserves_createBookmark; [|apply H2|done]. intros. apply H1.
  - apply preserves_updateBookmark; [apply H2|apply H3| |done].
    intros existing db0 HP0 _. by apply H4.
  - by apply preserves_deleteBookmark; [apply H5|].
  - by apply preserves_createTag; [apply H6|].
  - by apply preserves_deleteTag; [apply H7|].
Qed.

Lemma preserves_handle_all (P : Database → Prop) :
  (∀ r db, P db → P (handle r db)) →
  ∀ rs db, P db → P (handle_all rs db).
Proof.
  intros Hstep rs. induction rs as [|r rs IH]; intros db HP; [done|].
  simpl. by apply IH, Hstep.
Qed.

Lemma reachable_handle_all rs db :
  reachable db → reachable (handle_all rs db).
Proof.
  apply (preserves_handle_all reachable). intros r db' Hreach.
  by apply reachable_step.
Qed.

(** ** The keys of the schema *)

Lemma NoDup_fmap_filter {A B} (f : A → B) (P : A → Prop)
    `{∀ x, Decision (P x)} (l : list A) :
  NoDup (f <$> l) → NoDup (f <$> filter P l).
Proof.
  intros Hl. eapply sublist_NoDup; [exact Hl|].
  apply fmap_sublist, sublist_filter.
Qed.

Lemma NoDup_snoc_fresh {A} (l : list A) x : NoDup l → x ∉ l → NoDup (l ++ [x]).
Proof.
  intros Hl Hx. apply NoDup_app. split; [done|]. split; [|apply NoDup_singleton].
  intros y Hy ->%list_elem_of_singleton. done.
Qed.

Lemma keys_insert_bookmark now title url description favicon :
  preserves keys_ok (insert_bookmark now title url description favicon).
Proof.
  intros db (Hb & Ht & Hn & Hbt). split; [|done]. simpl.
  rewrite fmap_app. apply NoDup_snoc_fresh; [done|]. apply next_rowid_fresh.
Qed.

Lemma keys_insert_bookmark_tag bookmark tag :
  preserves keys_ok (insert_bookmark_tag bookmark tag).
Proof.
  intros db Hk. unfold insert_bookmark_tag.
  destruct bookmark as [| |m e]; [done|done|].
  destruct (Js.to_int (Js.Fin m e)) as [b|]; [|done].
  repeat case_decide; [done| |done].
  destruct Hk as (Hb & Ht & Hn & Hbt). repeat split; [done..|]. simpl.
  by apply NoDup_snoc_fresh.
Qed.

Lemma keys_delete_bookmark_tags bookmark :
  preserves keys_ok (delete_bookmark_tags bookmark).
Proof.
  intros db (Hb & Ht & Hn & Hbt). repeat split; [done..|]. simpl.
  by apply NoDup_filter.
Qed.

Lemma keys_update_bookmark title url description favicon now id :
  preserves keys_ok (update_bookmark title url description favicon now id).
Proof.
  intros db (Hb & Ht & Hn & Hbt). split; [|done].
  by rewrite update_bookmark_ids.
Qed.

Lemma keys_delete_bookmark id : preserves keys_ok (delete_bookmark id).
Proof.
  intros db (Hb & Ht & Hn & Hbt). repeat split; simpl; [|done|done|].
  - by apply NoDup_fmap_filter.
  - by apply NoDup_filter.
Qed.

Lemma keys_insert_tag io name color :
  preserves keys_ok (insert_tag io name color).
Proof.
  intros db Hk. unfold insert_tag. destruct io; [done|].
  case_decide; [done|]. destruct Hk as (Hb & Ht & Hn & Hbt).
  repeat split; simpl; [done| | |done]; rewrite fmap_app;
    (apply NoDup_snoc_fresh; [done|]); [apply next_rowid_fresh|done].
Qed.

Lemma keys_delete_tag id : preserves keys_ok (delete_tag id).
Proof.
  intros db (Hb & Ht & Hn & Hbt). repeat split; simpl; [done| | |].
  - by apply NoDup_fmap_filter.
  - by apply NoDup_fmap_filter.
  - by apply NoDup_filter.
Qed.

Lemma keys_handle r db : keys_ok db → keys_ok (handle r db).
Proof.
  apply preserves_handle;
    auto using keys_insert_bookmark, keys_insert_bookmark_tag,
      keys_delete_bookmark_tags, keys_update_bookmark, keys_delete_bookmark,
      keys_insert_tag, keys_delete_tag.
Qed.

Lemma reachable_keys_ok db : reachable db → keys_ok db.
Proof.
  induction 1 as [|r db Hreach IH _]; [|by apply keys_handle].
  repeat split; simpl; apply NoDup_nil_2.
Qed.

(** X2.  In every reachable state no two bookmarks have the same id, no two
    tags have the same id or the same name, and no bookmark has the same
    tag twice. *)
Theorem keys_unique (db : Database) :
  reachable db →
  NoDup (BookmarkRow.id <$> bookmarks db)
  ∧ NoDup (Tag.id <$> tags db)
  ∧ NoDup (Tag.name <$> tags db)
  ∧ (∀ b, NoDup (Tag.id <$> select_tags_of b db)).
Proof.
  intros (Hb & Ht & Hn & Hbt)%reachable_keys_ok.
  split; [done|]. split; [done|]. split; [done|]. intros b.
  unfold select_tags_of. clear Hb Hn.
  induction (tags db) as [|t l IH]; [apply NoDup_nil_2|].
  apply NoDup_cons in Ht as [Hnew Ht]. rewrite bind_cons, fmap_app.
  apply NoDup_app. split; [|split; [|by apply IH]].
  - clear IH Hnew Ht. induction Hbt as [|bt bts Hfresh Hbts IH];
      [apply NoDup_nil_2|].
    rewrite bind_cons, fmap_app. case_decide as Hc; [|done]. simpl.
    apply NoDup_cons. split; [|done].
    intros (t' & Hid & Hin)%list_elem_of_fmap.
    apply list_elem_of_bind in Hin as (bt' & Hin & Hbt').
    case_decide as Hc'; [|by apply elem_of_nil in Hin].
    assert (bt = bt') as ->; [|done].
    destruct bt as [b1 t1], bt' as [b2 t2]. simpl in *. f_equal; lia.
  - intros z (t1 & -> & Hin1)%list_elem_of_fmap
             (t2 & Hid & Hin2)%list_elem_of_fmap.
    apply list_elem_of_bind in Hin1 as (bt1 & Hin1 & _).
    case_decide; [|by apply elem_of_nil in Hin1].
    apply list_elem_of_singleton in Hin1 as ->.
    apply list_elem_of_bind in Hin2 as (t3 & Hin2 & Ht3).
    apply list_elem_of_bind in Hin2 as (bt2 & Hin2 & _).
    case_decide; [|by apply elem_of_nil in Hin2].
    apply list_elem_of_singleton in Hin2 as ->.
    apply Hnew. apply list_elem_of_fmap. by exists t3.
Qed.

(** ** AUTOINCREMENT *)

Lemma next_rowid_gt_seq ids seq : seq < next_rowid ids seq.
Proof. unfold next_rowid. lia. Qed.

Lemma next_rowid_gt ids seq z : z ∈ ids → z < next_rowid ids seq.
Proof. intros Hz%max_rowid_ge. unfold next_rowid. lia. Qed.

Lemma elem_of_fmap_snoc {A B} (f : A → B) (l : list A) x y :
  y ∈ f <$> (l ++ [x]) ↔ y ∈ f <$> l ∨ y = f x.
Proof.
  rewrite fmap_app, elem_of_app. simpl. by rewrite list_elem_of_singleton.
Qed.

Lemma seq_ok_handle r db : seq_ok db → seq_ok (handle r db).
Proof.
  apply preserves_handle; clear r db.
  - intros now title url description favicon db [Hb Ht]. split; [|done].
    simpl. intros z. rewrite elem_of_fmap_snoc.
    intros [Hz%(next_rowid_gt _ (seq_bookmarks db))| ->];
      unfold next_rowid in *; simpl; lia.
  - intros bookmark tag db Hs. unfold insert_bookmark_tag.
    destruct bookmark as [| |m e]; [done|done|].
    destruct (Js.to_int (Js.Fin m e)) as [b|]; [|done].
    by repeat case_decide.
  - unfold preserves. intros. assumption.
  - intros title url description favicon now id db [Hb Ht]. split; [|done].
    intros z. rewrite update_bookmark_ids. apply Hb.
  - intros id db [Hb Ht]. split; [|done]. simpl.
    intros z (r & -> & [_ Hr]%list_elem_of_filter)%list_elem_of_fmap.
    apply Hb, list_elem_of_fmap. by exists r.
  - intros io name color db Hs. unfold insert_tag. destruct io; [done|].
    case_decide; [done|]. destruct Hs as [Hb Ht]. split; [done|].
    simpl. intros z. rewrite elem_of_fmap_snoc.
    intros [Hz%(next_rowid_gt _ (seq_tags db))| ->];
      unfold next_rowid in *; simpl; lia.
  - intros id db [Hb Ht]. split; [done|]. simpl.
    intros z (r & -> & [_ Hr]%list_elem_of_filter)%list_elem_of_fmap.
    apply Ht, list_elem_of_fmap. by exists r.
Qed.

Lemma reachable_seq_ok db : reachable db → seq_ok db.
Proof.
  induction 1 as [|r db Hreach IH _]; [|by apply seq_ok_handle].
  split; simpl; by intros z ?%elem_of_nil.
Qed.

(** A rowid that [sqlite_sequence] has passed and that no bookmark has is
    not handed out again. *)
Lemma bookmark_id_gone_handle z r db :
  z ≤ seq_bookmarks db ∧ z ∉ (BookmarkRow.id <$> bookmarks db) →
  z ≤ seq_bookmarks (handle r db)
  ∧ z ∉ (BookmarkRow.id <$> bookmarks (handle r db)).
Proof.
  apply (preserves_handle
           (λ db, z ≤ seq_bookmarks db
                  ∧ z ∉ (BookmarkRow.id <$> bookmarks db))); clear r db.
  - intros now title url description favicon db [Hseq Hz]. simpl.
    pose proof (next_rowid_gt_seq (BookmarkRow.id <$> bookmarks db)
                  (seq_bookmarks db)).
    unfold next_rowid in *. split; [lia|]. rewrite elem_of_fmap_snoc.
    intros [?|Heq]; [done|simpl in Heq; lia].
  - intros bookmark tag db Hs. unfold insert_bookmark_tag.
    destruct bookmark as [| |m e]; [done|done|].
    destruct (Js.to_int (Js.Fin m e)) as [b|]; [|done].
    by repeat case_decide.
  - unfold preserves. intros. assumption.
  - intros title url description favicon now id db [Hseq Hz].
    split; [done|]. by rewrite update_bookmark_ids.
  - intros id db [Hseq Hz]. split; [done|]. simpl.
    intros (r & -> & [_ Hr]%list_elem_of_filter)%list_elem_of_fmap.
    apply Hz, list_elem_of_fmap. by exists r.
  - intros io name color db Hs. unfold insert_tag. destruct io; [done|].
    by case_decide.
  - unfold preserves. intros. assumption.
Qed.

Lemma tag_id_gone_handle z r db :
  z ≤ seq_tags db ∧ z ∉ (Tag.id <$> tags db) →
  z ≤ seq_tags (handle r db) ∧ z ∉ (Tag.id <$> tags (handle r db)).
Proof.
  apply (preserves_handle
           (λ db, z ≤ seq_tags db ∧ z ∉ (Tag.id <$> tags db))); clear r db.
  - unfold preserves. intros. assumption.
  - intros bookmark tag db Hs. unfold insert_bookmark_tag.
    destruct bookmark as [| |m e]; [done|done|].
    destruct (Js.to_int (Js.Fin m e)) as [b|]; [|done].
    by repeat case_decide.
  - unfold preserves. intros. assumption.
  - unfold preserves. intros. assumption.
  - unfold preserves. intros. assumption.
  - intros io name color db Hs. unfold insert_tag. destruct io; [done|].
    case_decide; [done|]. destruct Hs as [Hseq Hz]. simpl.
    pose proof (next_rowid_gt_seq (Tag.id <$> tags db) (seq_tags db)).
    unfold next_rowid in *. split; [lia|]. rewrite elem_of_fmap_snoc.
    intros [?|Heq]; [done|simpl in Heq; lia].
  - intros id db [Hseq Hz]. split; [done|]. simpl.
    intros (r & -> & [_ Hr]%list_elem_of_filter)%list_elem_of_fmap.
    apply Hz, list_elem_of_fmap. by exists r.
Qed.

Lemma select_bookmark_None id z db :
  Js.to_int id = Some z → z ∉ (BookmarkRow.id <$> bookmarks db) →
  select_bookmark id db = None.
Proof.
  intros Hid Hz. destruct (select_bookmark id db) as [row|] eqn:Hsel; [|done].
  apply select_bookmark_Some in Hsel as [Hid' Hin]. destruct Hz.
  apply list_elem_of_fmap. exists row. split; [congruence|done].
Qed.

Lemma select_tag_None id z db :
  Js.to_int id = Some z → z ∉ (Tag.id <$> tags db) →
  select_tag id db = None.
Proof.
  intros Hid Hz. destruct (select_tag id db) as [t|] eqn:Hsel; [|done].
  apply select_tag_Some in Hsel as [Hid' Hin]. destruct Hz.
  apply list_elem_of_fmap. exists t. split; [congruence|done].
Qed.

(** X3.  An id is not given twice: once a bookmark of a reachable state has
    been deleted, whatever requests follow, no bookmark has its id again,
    and getting, updating or deleting that id answers 404.  The same holds
    for the id of a deleted tag. *)
Theorem deleted_id_is_not_reused (db : Database) (id : Js.number)
    (rs : list Request) :
  reachable db →
  (∀ db1 r, deleteBookmark id db = (db1, inr r) →
     let db2 := handle_all rs db1 in
     (∀ row, row ∈ bookmarks db2 → Js.to_int id ≠ Some (BookmarkRow.id row))
     ∧ getBookmark id db2 = (db2, inl (AppError 404))
     ∧ (∀ now body, updateBookmark now id body db2 = (db2, inl (AppError 404)))
     ∧ deleteBookmark id db2 = (db2, inl (AppError 404)))
  ∧ (∀ db1 r, deleteTag id db = (db1, inr r) →
       let db2 := handle_all rs db1 in
       (∀ t, t ∈ tags db2 → Js.to_int id ≠ Some (Tag.id t))
       ∧ (∀ row, Forall (λ t, Js.to_int id ≠ Some (Tag.id t))
                   (BookmarkWithTags.tags (attach db2 row)))
       ∧ deleteTag id db2 = (db2, inl (AppError 404))).
Proof.
  intros [Hsb Hst]%reachable_seq_ok. split.
  - intros db1 r Hdel db2.
    apply deleteBookmark_ok in Hdel as (row & Hsel & _ & ->).
    apply select_bookmark_Some in Hsel as [Hid Hin].
    set (z := BookmarkRow.id row) in *.
    assert (z ≤ seq_bookmarks db2
            ∧ z ∉ (BookmarkRow.id <$> bookmarks db2)) as [_ Hgone].
    { apply (preserves_handle_all
               (λ db, z ≤ seq_bookmarks db
                      ∧ z ∉ (BookmarkRow.id <$> bookmarks db))).
      - intros. by apply bookmark_id_gone_handle.
      - split; simpl.
        + apply Hsb, list_elem_of_fmap. by exists row.
        + intros (r' & Hr' & [Hne _]%list_elem_of_filter)%list_elem_of_fmap.
          congruence. }
    pose proof (select_bookmark_None id z db2 Hid Hgone) as Hnone.
    pose proof (to_int_not_NaN id z Hid) as Hnan.
    split; [|split; [|split]].
    + intros row' Hin' Heq. apply Hgone, list_elem_of_fmap. exists row'.
      split; [congruence|done].
    + unfold getBookmark. by rewrite Hnan, bind_query, Hnone.
    + intros now body. unfold updateBookmark.
      by rewrite Hnan, bind_query, Hnone.
    + unfold deleteBookmark. by rewrite Hnan, bind_query, Hnone.
  - intros db1 r Hdel db2.
    apply deleteTag_ok in Hdel as (t & Hsel & _ & ->).
    apply select_tag_Some in Hsel as [Hid Hin].
    set (z := Tag.id t) in *.
    assert (z ≤ seq_tags db2 ∧ z ∉ (Tag.id <$> tags db2)) as [_ Hgone].
    { apply (preserves_handle_all
               (λ db, z ≤ seq_tags db ∧ z ∉ (Tag.id <$> tags db))).
      - intros. by apply tag_id_gone_handle.
      - split; simpl.
        + apply Hst, list_elem_of_fmap. by exists t.
        + intros (r' & Hr' & [Hne _]%list_elem_of_filter)%list_elem_of_fmap.
          congruence. }
    assert (∀ t', t' ∈ tags db2 → Js.to_int id ≠ Some (Tag.id t')) as Htags.
    { intros t' Hin' Heq. apply Hgone, list_elem_of_fmap. exists t'.
      split; [congruence|done]. }
    split; [done|]. split.
    + intros row. apply Forall_forall. intros t' Hin'.
      apply elem_of_select_tags_of in Hin' as [Hin' _]. by apply Htags.
    + unfold deleteTag.
      by rewrite (to_int_not_NaN id z Hid), bind_query,
        (select_tag_None id z db2 Hid Hgone).
Qed.

(** ** Deleting a bookmark *)

Lemma bind_filter_nil {A B} (P : A → Prop) `{∀ x, Decision (P x)}
    (f : A → list B) (l : list A) :
  (∀ x, x ∈ l → ¬ P x → f x = []) →
  filter P l ≫= f = l ≫= f.
Proof.
  induction l as [|x l IH]; intros Hf; [done|].
  rewrite bind_cons, <- IH by (intros y Hy; apply Hf; by right).
  destruct (decide (P x)) as [HP|HP].
  - by rewrite filter_cons_True, bind_cons.
  - rewrite filter_cons_False by done. rewrite (Hf x); [done|by left|done].
Qed.

(** The tags of a bookmark depend on its own rows of [bookmark_tags] only. *)
Lemma select_tags_of_ext b db db' :
  tags db' = tags db →
  filter (λ bt, BookmarkTag.bookmark_id bt = b) (bookmark_tags db')
  = filter (λ bt, BookmarkTag.bookmark_id bt = b) (bookmark_tags db) →
  select_tags_of b db' = select_tags_of b db.
Proof.
  intros Ht Hbt. unfold select_tags_of. rewrite Ht. clear Ht.
  induction (tags db) as [|t l IH]; [done|].
  rewrite !bind_cons, IH. f_equal.
  assert (∀ bts : list BookmarkTag.t,
            bts ≫= (λ bt, if decide (Tag.id t = BookmarkTag.tag_id bt
                                      ∧ BookmarkTag.bookmark_id bt = b)
                           then [t] else [])
            = filter (λ bt, BookmarkTag.bookmark_id bt = b) bts
              ≫= (λ bt, if decide (Tag.id t = BookmarkTag.tag_id bt
                                    ∧ BookmarkTag.bookmark_id bt = b)
                         then [t] else [])) as Hown.
  { intros bts. symmetry. apply bind_filter_nil.
    intros bt _ Hne. rewrite decide_False; [done|tauto]. }
  by rewrite (Hown (bookmark_tags db')), (Hown (bookmark_tags db)), Hbt.
Qed.

Lemma attach_ext row db db' :
  tags db' = tags db →
  filter (λ bt, BookmarkTag.bookmark_id bt = BookmarkRow.id row)
    (bookmark_tags db')
  = filter (λ bt, BookmarkTag.bookmark_id bt = BookmarkRow.id row)
      (bookmark_tags db) →
  attach db' row = attach db row.
Proof.
  intros Ht Hbt. unfold attach. by rewrite (select_tags_of_ext _ db db').
Qed.

Lemma filter_filter_other z b (bts : list BookmarkTag.t) :
  b ≠ z →
  filter (λ bt, BookmarkTag.bookmark_id bt = b)
    (filter (λ bt, BookmarkTag.bookmark_id bt ≠ z) bts)
  = filter (λ bt, BookmarkTag.bookmark_id bt = b) bts.
Proof.
  intros Hne. rewrite list_filter_filter. apply list_filter_iff.
  intros bt. split; [tauto|]. intros ->. done.
Qed.

Lemma delete_bookmark_tables id z db :
  Js.to_int id = Some z →
  bookmarks (delete_bookmark id db).1
  = filter (λ r, BookmarkRow.id r ≠ z) (bookmarks db)
  ∧ bookmark_tags (delete_bookmark id db).1
    = filter (λ bt, BookmarkTag.bookmark_id bt ≠ z) (bookmark_tags db).
Proof.
  intros Hid. simpl. split; apply list_filter_iff; intros x; rewrite Hid;
    split; congruence.
Qed.

Lemma select_bookmark_is_Some id z db :
  Js.to_int id = Some z → z ∈ (BookmarkRow.id <$> bookmarks db) →
  ∃ row, select_bookmark id db = Some row.
Proof.
  intros Hid Hin. unfold select_bookmark. rewrite Hid.
  destruct (find _ (bookmarks db)) as [row|] eqn:Hfind; [by exists row|].
  apply list_elem_of_fmap in Hin as (row & -> & Hin).
  apply list_elem_of_In in Hin.
  pose proof (find_none _ _ Hfind row Hin) as Hne. simpl in Hne.
  by rewrite Z.eqb_refl in Hne.
Qed.

Lemma deleteBookmark_existing id z db :
  Js.to_int id = Some z →
  z ∈ (BookmarkRow.id <$> bookmarks db) →
  deleteBookmark id db = ((delete_bookmark id db).1, inr id).
Proof.
  intros Hid Hin. unfold deleteBookmark.
  rewrite (to_int_not_NaN id z Hid), bind_query.
  by destruct (select_bookmark_is_Some id z db Hid Hin) as [row ->].
Qed.

(** X4.  Deleting an existing bookmark [z] succeeds.  It removes the rows
    with id [z] from [bookmarks] and the rows of [z] from [bookmark_tags],
    nothing else: the table [tags] is as it was, and every other bookmark is
    sent afterwards as it was sent before, with the same tags in the same
    order. *)
Theorem deleteBookmark_frame (db : Database) (id : Js.number) (z : Z) :
  Js.to_int id = Some z →
  z ∈ (BookmarkRow.id <$> bookmarks db) →
  ∃ db',
    deleteBookmark id db = (db', inr id)
    ∧ tags db' = tags db
    ∧ bookmarks db' = filter (λ r, BookmarkRow.id r ≠ z) (bookmarks db)
    ∧ bookmark_tags db'
      = filter (λ bt, BookmarkTag.bookmark_id bt ≠ z) (bookmark_tags db)
    ∧ (∀ row, BookmarkRow.id row ≠ z → attach db' row = attach db row).
Proof.
  intros Hid Hin. exists (delete_bookmark id db).1.
  destruct (delete_bookmark_tables id z db Hid) as [Hb Hbt].
  split; [by apply (deleteBookmark_existing id z)|]. split; [done|].
  split; [done|]. split; [done|]. intros row Hne.
  apply attach_ext; [done|]. rewrite Hbt. by apply filter_filter_other.
Qed.

(** ** What is listed is what is fetched *)

Lemma select_bookmark_unique db row :
  NoDup (BookmarkRow.id <$> bookmarks db) →
  row ∈ bookmarks db →
  select_bookmark (Js.of_int (BookmarkRow.id row)) db = Some row.
Proof.
  intros Hdup Hin. unfold select_bookmark. rewrite to_int_of_int.
  induction (bookmarks db) as [|r l IH]; [by apply elem_of_nil in Hin|].
  rewrite fmap_cons in Hdup. apply NoDup_cons in Hdup as [Hfresh Hdup].
  simpl. apply elem_of_cons in Hin as [->|Hin].
  - by rewrite Z.eqb_refl.
  - destruct (Z.eqb_spec (BookmarkRow.id r) (BookmarkRow.id row)) as [Heq|_];
      [|by apply IH].
    destruct Hfresh. rewrite Heq. apply list_elem_of_fmap. by exists row.
Qed.

(** The rows [listBookmarks] sends are rows of [bookmarks]. *)
Lemma listBookmarks_rows search tagId db :
  ∃ rows,
    listBookmarks search tagId db = (db, inr (attach db <$> rows))
    ∧ ∀ r, r ∈ rows → r ∈ bookmarks db.
Proof.
  destruct (truthy tagId) eqn:Htag.
  - apply truthy_Some in Htag as ([|c t] & -> & Hne); [done|].
    eexists. split; [apply listBookmarks_by_tag|].
    intros r Hr. by apply elem_of_select_bookmarks_by_tag in Hr as [? _].
  - destruct (truthy search) eqn:Hsearch.
    + apply truthy_Some in Hsearch as ([|c s] & -> & Hne); [done|].
      eexists. split; [by apply listBookmarks_search|].
      intros r. unfold select_bookmarks_like.
      rewrite order_by_perm, list_elem_of_filter. tauto.
    + eexists. split; [by apply listBookmarks_all|].
      intros r. unfold select_bookmarks. by rewrite order_by_perm.
Qed.

(** X5.  In a reachable state every bookmark that [listBookmarks] sends,
    under whatever filter, is what [getBookmark] sends for its id. *)
Theorem listed_is_fetched (db : Database) (search tagId : option string)
    (sent : list BookmarkWithTags.t) (b : BookmarkWithTags.t) :
  reachable db →
  listBookmarks search tagId db = (db, inr sent) →
  b ∈ sent →
  getBookmark (Js.of_int (BookmarkWithTags.id b)) db = (db, inr b).
Proof.
  intros (Hdup & _)%reachable_keys_ok Hlist Hb.
  destruct (listBookmarks_rows search tagId db) as (rows & Hrun & Hrows).
  rewrite Hrun in Hlist. injection Hlist as <-.
  apply list_elem_of_fmap in Hb as (row & -> & Hrow).
  apply getBookmark_ok. simpl. apply select_bookmark_unique; [done|].
  by apply Hrows.
Qed.

(** ** Creating a tag *)

Lemma count_name_snoc name (l : list Tag.t) t :
  filter (λ t, Tag.name t = name) (l ++ [t])
  = filter (λ t, Tag.name t = name) l
    ++ (if decide (Tag.name t = name) then [t] else []).
Proof. rewrite filter_app. f_equal. Qed.

Lemma filter_name_nil name (l : list Tag.t) :
  name ∉ (Tag.name <$> l) → filter (λ t, Tag.name t = name) l = [].
Proof.
  intros Hn. induction l as [|t l IH]; [done|].
  rewrite fmap_cons in Hn. apply not_elem_of_cons in Hn as [Hne Hn].
  rewrite filter_cons_False by done. by apply IH.
Qed.

Lemma filter_name_one name (l : list Tag.t) :
  NoDup (Tag.name <$> l) → name ∈ (Tag.name <$> l) →
  length (filter (λ t, Tag.name t = name) l) = 1%nat.
Proof.
  induction l as [|t l IH]; [by intros _ ?%elem_of_nil|].
  rewrite fmap_cons. intros [Hfresh Hdup]%NoDup_cons Hin.
  destruct (decide (Tag.name t = name)) as [Heq|Hne].
  - rewrite filter_cons_True by done. simpl.
    rewrite filter_name_nil; [done|]. by rewrite <- Heq.
  - rewrite filter_cons_False by done. apply IH; [done|].
    by apply elem_of_cons in Hin as [?|?].
Qed.

(** X6.  In a reachable state, with a storage that does not fail, a
    [createTag] with a name that is not empty answers 409 and writes
    nothing when a tag has the name, and otherwise appends the tag it sends,
    with a new id, the name, and the color of the request or [#6366f1];
    either way exactly one tag has the name afterwards. *)
Theorem createTag_once (db : Database) (name : string)
    (color : option string) :
  reachable db →
  name ≠ "" →
  let run := createTag None (CreateTagRequest.mk (Some name) color) db in
  (if decide (name ∈ Tag.name <$> tags db)
   then run = (db, inl (AppError 409))
   else ∃ tag,
          run.2 = inr tag
          ∧ tags run.1 = tags db ++ [tag]
          ∧ (Tag.id tag ∉ Tag.id <$> tags db)
          ∧ Tag.name tag = name
          ∧ Tag.color tag = default "#6366f1" color
          ∧ bookmarks run.1 = bookmarks db
          ∧ bookmark_tags run.1 = bookmark_tags db)
  ∧ length (filter (λ t, Tag.name t = name) (tags run.1)) = 1%nat.
Proof.
  intros (_ & _ & Hnames & _)%reachable_keys_ok Hname run.
  unfold run. rewrite createTag_cases. simpl.
  destruct name as [|c name]; [done|].
  case_decide as Hin.
  - split; [done|]. simpl. by apply filter_name_one.
  - split.
    + eexists. repeat split. simpl. apply next_rowid_fresh.
    + simpl. rewrite count_name_snoc, filter_name_nil by done. simpl.
      by rewrite decide_True.
Qed.

(** ** The case of the search string *)

Lemma toupper_other x : ¬ (97 ≤ x ≤ 122) → toupper x = x.
Proof. intros Hx. unfold toupper. decide_Z. Qed.

Lemma toupper_flush (pending : option Z) :
  toupper <$> match pending with Some c => [utf8_char c] | None => [] end
  = match pending with Some c => [utf8_char c] | None => [] end.
Proof.
  destruct pending as [c|]; [|done]. simpl.
  pose proof (utf8_char_ge c). rewrite toupper_other by lia. done.
Qed.

Lemma utf8_chars_upper pending s :
  utf8_chars pending (upper_string s) = toupper <$> utf8_chars pending s.
Proof.
  revert pending. induction s as [|b s IH]; intros pending.
  { symmetry. apply toupper_flush. }
  simpl. rewrite code_upper. pose proof (code_bounds b) as Hb.
  destruct (decide (97 ≤ Js.code b ≤ 122)) as [Hletter|Hother].
  - assert (toupper (Js.code b) = Js.code b - 32) as ->
      by (unfold toupper; decide_Z).
    replace ((128 <=? Js.code b - 32) && (Js.code b - 32 <? 192)) with false
      by decide_Z.
    replace ((128 <=? Js.code b) && (Js.code b <? 192)) with false
      by decide_Z.
    replace (Js.code b - 32 =? 0) with false by decide_Z.
    replace (Js.code b =? 0) with false by decide_Z.
    replace (192 <=? Js.code b - 32) with false by decide_Z.
    replace (192 <=? Js.code b) with false by decide_Z.
    rewrite fmap_app, toupper_flush, fmap_cons, IH. do 2 f_equal.
    unfold toupper. decide_Z.
  - rewrite (toupper_other (Js.code b)) by done.
    destruct ((128 <=? Js.code b) && (Js.code b <? 192)) eqn:Hcont.
    + destruct pending as [c|]; [apply IH|].
      rewrite fmap_cons, IH. f_equal.
      apply andb_true_iff in Hcont as [H1 H2]. rewrite toupper_other; lia.
    + rewrite fmap_app, toupper_flush. f_equal.
      destruct (Js.code b =? 0); [done|].
      destruct (192 <=? Js.code b); [apply IH|].
      rewrite fmap_cons, IH, toupper_other by done. done.
Qed.

Lemma toupper_percent x : (toupper x =? 37) = (x =? 37).
Proof. unfold toupper. decide_Z. Qed.

Lemma toupper_underscore x : (toupper x =? 95) = (x =? 95).
Proof. unfold toupper. decide_Z. Qed.

Lemma same_char_toupper p c : same_char (toupper p) c = same_char p c.
Proof. unfold same_char, tolower, toupper. decide_Z. Qed.

Lemma like_chars_toupper pattern text :
  like_chars (toupper <$> pattern) text = like_chars pattern text.
Proof.
  revert text. induction pattern as [|p pattern IH]; intros text; [done|].
  rewrite fmap_cons. simpl.
  rewrite toupper_percent, toupper_underscore.
  destruct (p =? 37).
  - induction text as [|c text IHt]; by rewrite IH, ?IHt.
  - destruct text as [|c text]; [done|].
    by rewrite IH, same_char_toupper.
Qed.

Lemma like_upper pattern text :
  like (upper_string pattern) text = like pattern text.
Proof. unfold like. by rewrite utf8_chars_upper, like_chars_toupper. Qed.

Lemma upper_string_app s1 s2 :
  upper_string (s1 +:+ s2) = upper_string s1 +:+ upper_string s2.
Proof. induction s1 as [|c s1 IH]; simpl; [done|]. by rewrite IH. Qed.

Lemma truthy_upper_string s :
  truthy (Some (upper_string s)) = truthy (Some s).
Proof. by destruct s. Qed.

Lemma pattern_upper s :
  "%" +:+ upper_string s +:+ "%" = upper_string ("%" +:+ s +:+ "%").
Proof. by rewrite !upper_string_app. Qed.

Lemma listBookmarks_upper s tagId db :
  listBookmarks (Some (upper_string s)) tagId db
  = listBookmarks (Some s) tagId db.
Proof.
  destruct (truthy tagId) eqn:Htag.
  - unfold listBookmarks. by rewrite Htag.
  - destruct s as [|c s]; [done|].
    change (upper_string (String c s))
      with (String (upper c) (upper_string s)).
    rewrite !listBookmarks_search by done. cbv zeta. do 3 f_equal.
    unfold select_bookmarks_like. f_equal. apply list_filter_iff. intros r.
    change (String (upper c) (upper_string s))
      with (upper_string (String c s)).
    by rewrite pattern_upper, !like_upper.
Qed.

(** X7.  The search does not look at the case of the ASCII letters of the
    search string: two strings that differ in it only are answered with the
    same bookmarks. *)
Theorem search_ignores_case (db : Database) (s1 s2 : string)
    (tagId : option string) :
  upper_string s1 = upper_string s2 →
  listBookmarks (Some s1) tagId db = listBookmarks (Some s2) tagId db.
Proof.
  intros Heq.
  by rewrite <- (listBookmarks_upper s1), <- (listBookmarks_upper s2), Heq.
Qed.

(** ** The list after a request *)

Lemma listBookmarks_listed search tagId db :
  listBookmarks search tagId db
  = (db, inr (attach db <$> listed_rows search tagId db)).
Proof.
  unfold listBookmarks, listed_rows.
  destruct (truthy tagId).
  - rewrite bind_query. apply map_M_attachTags.
  - destruct (truthy search).
    + cbv zeta. rewrite bind_query. apply map_M_attachTags.
    + rewrite bind_query. apply map_M_attachTags.
Qed.

Lemma string_ltb_not_leb a b :
  String.ltb a b = true → String.leb b a = false.
Proof.
  unfold String.ltb, String.leb. rewrite (String.compare_antisym b a).
  by destruct (String.compare a b).
Qed.

(** A row newer than all the others is listed first. *)
Lemma order_by_snoc_newest l row :
  (∀ r, r ∈ l →
     String.ltb (BookmarkRow.created_at r) (BookmarkRow.created_at row)
     = true) →
  order_by_created_at_desc (l ++ [row]) = row :: order_by_created_at_desc l.
Proof.
  induction l as [|r l IH]; intros Hnew; [done|].
  simpl. rewrite IH by (intros r' Hr'; apply Hnew; by right). simpl.
  rewrite string_ltb_not_leb; [done|]. apply Hnew. by left.
Qed.

#[local] Instance created_not_before_trans : Transitive created_not_before.
Proof.
  intros a b c Hab Hbc. unfold created_not_before in *.
  by eapply string_leb_trans.
Qed.

Lemma order_by_strongly_sorted l :
  StronglySorted created_not_before (order_by_created_at_desc l).
Proof. apply Sorted_StronglySorted; [apply _|]. apply order_by_sorted. Qed.

Lemma insert_desc_head r l :
  Forall (created_not_before r) l → insert_desc r l = r :: l.
Proof.
  destruct l as [|r' l]; [done|]. intros [Hr' _]%Forall_cons. simpl.
  unfold created_not_before in Hr'. by rewrite Hr'.
Qed.

(** Sorting and then dropping rows is dropping them and then sorting. *)
Lemma insert_desc_filter (P : BookmarkRow.t → Prop) `{∀ r, Decision (P r)}
    r l :
  StronglySorted created_not_before l →
  filter P (insert_desc r l)
  = if decide (P r) then insert_desc r (filter P l) else filter P l.
Proof.
  induction 1 as [|r' l Hsorted IH Hall]; simpl.
  - rewrite filter_cons, filter_nil. by case_decide.
  - destruct (String.leb (BookmarkRow.created_at r')
                (BookmarkRow.created_at r)) eqn:Hle.
    + rewrite (filter_cons _ r (r' :: l)).
      destruct (decide (P r)) as [Hr|Hr]; [|done].
      symmetry. apply insert_desc_head.
      apply Forall_forall. intros x [_ Hx]%list_elem_of_filter.
      apply elem_of_cons in Hx as [->|Hx]; [done|].
      rewrite Forall_forall in Hall. by trans r'; [|apply Hall].
    + rewrite (filter_cons _ r' (insert_desc r l)), IH.
      rewrite (filter_cons _ r' l).
      destruct (decide (P r')), (decide (P r)); try done.
      simpl. by rewrite Hle.
Qed.

Lemma order_by_filter (P : BookmarkRow.t → Prop) `{∀ r, Decision (P r)} l :
  order_by_created_at_desc (filter P l)
  = filter P (order_by_created_at_desc l).
Proof.
  induction l as [|r l IH]; [done|]. simpl.
  rewrite insert_desc_filter by apply order_by_strongly_sorted.
  rewrite filter_cons. case_decide; simpl; by rewrite IH.
Qed.

Lemma order_by_fmap (f : BookmarkRow.t → BookmarkRow.t) l :
  (∀ r, BookmarkRow.created_at (f r) = BookmarkRow.created_at r) →
  order_by_created_at_desc (f <$> l) = f <$> order_by_created_at_desc l.
Proof.
  intros Hf. induction l as [|r l IH]; [done|]. csimpl. rewrite IH.
  generalize (order_by_created_at_desc l). intros k.
  induction k as [|r' k IHk]; [done|]. csimpl. rewrite !Hf.
  case_match; [done|]. csimpl. by rewrite IHk.
Qed.

Lemma remove_dups_filter {A} `{EqDecision A} (P : A → Prop)
    `{∀ x, Decision (P x)} (l : list A) :
  remove_dups (filter P l) = filter P (remove_dups l).
Proof.
  induction l as [|x l IH]; [done|]. simpl.
  destruct (decide (P x)) as [Hx|Hx].
  - rewrite filter_cons_True by done. simpl.
    destruct (decide_rel (∈) x l) as [Hin|Hin],
      (decide_rel (∈) x (filter P l)) as [Hin'|Hin'].
    + done.
    + destruct Hin'. by apply list_elem_of_filter.
    + by apply list_elem_of_filter in Hin' as [_ ?].
    + rewrite filter_cons_True by done. by rewrite IH.
  - rewrite filter_cons_False by done.
    destruct (decide_rel (∈) x l); [done|].
    by rewrite filter_cons_False.
Qed.

Lemma insert_bookmark_tag_other id b b' tag db0 db :
  Js.to_int id = Some b → b' ≠ b →
  tags db = tags db0
  ∧ bookmarks db = bookmarks db0
  ∧ filter (λ bt, BookmarkTag.bookmark_id bt = b') (bookmark_tags db)
    = filter (λ bt, BookmarkTag.bookmark_id bt = b') (bookmark_tags db0) →
  let db' := (insert_bookmark_tag id tag db).1 in
  tags db' = tags db0
  ∧ bookmarks db' = bookmarks db0
  ∧ filter (λ bt, BookmarkTag.bookmark_id bt = b') (bookmark_tags db')
    = filter (λ bt, BookmarkTag.bookmark_id bt = b') (bookmark_tags db0).
Proof.
  intros Hid Hne (Ht & Hb & Hbt). unfold insert_bookmark_tag.
  destruct id as [| |m e]; [done|done|]. rewrite Hid.
  repeat case_decide; [done| |done]. simpl. split; [done|]. split; [done|].
  rewrite filter_app, Hbt, filter_cons_False, filter_nil by (simpl; congruence).
  apply app_nil_r.
Qed.

(** The inserts for one bookmark leave the rows of the others. *)
Lemma for_of_insert_other id b b' tagIds db :
  Js.to_int id = Some b → b' ≠ b →
  let db' := (for_of tagIds (λ tagId, insert_bookmark_tag id tagId) db).1 in
  tags db' = tags db
  ∧ bookmarks db' = bookmarks db
  ∧ filter (λ bt, BookmarkTag.bookmark_id bt = b') (bookmark_tags db')
    = filter (λ bt, BookmarkTag.bookmark_id bt = b') (bookmark_tags db).
Proof.
  intros Hid Hne.
  apply (preserves_for_of
           (λ d, tags d = tags db
                 ∧ bookmarks d = bookmarks db
                 ∧ filter (λ bt, BookmarkTag.bookmark_id bt = b')
                     (bookmark_tags d)
                   = filter (λ bt, BookmarkTag.bookmark_id bt = b')
                       (bookmark_tags db))); [|done].
  intros tag d Hd. by apply (insert_bookmark_tag_other id b).
Qed.

Lemma fmap_attach_ext db db' (rows : list BookmarkRow.t) :
  (∀ r, r ∈ rows → attach db' r = attach db r) →
  attach db' <$> rows = attach db <$> rows.
Proof.
  intros Hext. apply list_fmap_ext. intros i r Hr.
  by apply Hext, list_elem_of_lookup_2 with i.
Qed.

(** X8.  With no filter, the list after a create whose clock is later than
    the [created_at] of every bookmark is the bookmark sent by the create
    followed by the list before it: what [handleSave] makes of the list on
    the client, with [addBookmark], is what the server lists. *)
Theorem list_after_create (db : Database) (now title url : string)
    (description favicon : option string) (tagIds : option (list Z)) :
  title ≠ "" → url ≠ "" →
  (∀ t, t ∈ default [] tagIds → t ∈ (Tag.id <$> tags db)) →
  (∀ r, r ∈ bookmarks db →
     String.ltb (BookmarkRow.created_at r) now = true) →
  ∃ db' created before,
    createBookmark now
      (CreateBookmarkRequest.mk (Some title) (Some url) description favicon
         tagIds) db
    = (db', inr created)
    ∧ listBookmarks None None db = (db, inr before)
    ∧ listBookmarks None None db'
      = (db', inr (handleSave None created before)).
Proof.
  intros Htitle Hurl Htags Hnew.
  set (row := new_row now title url (default "" description)
                (default "" favicon) db).
  set (db1 := (insert_bookmark now title url (default "" description)
                 (default "" favicon) db).1).
  destruct (for_of_insert_ok (default [] tagIds)
              (Js.of_int (BookmarkRow.id row)) (BookmarkRow.id row) db1)
    as (db2 & Hrun & Hb2 & Ht2 & _).
  { apply to_int_of_int. }
  { simpl. rewrite elem_of_fmap_snoc. by right. }
  { done. }
  assert (bookmarks db2 = bookmarks db ++ [row]) as Hrows by done.
  assert (∀ r, r ∈ bookmarks db → attach db2 r = attach db r) as Hold.
  { intros r Hr. apply attach_ext; [done|].
    assert (BookmarkRow.id r ≠ BookmarkRow.id row) as Hne.
    { intros Heq. apply (next_rowid_fresh (BookmarkRow.id <$> bookmarks db)
                           (seq_bookmarks db)).
      apply list_elem_of_fmap. exists r. by split. }
    destruct (for_of_insert_other (Js.of_int (BookmarkRow.id row))
                (BookmarkRow.id row) (BookmarkRow.id r) (default [] tagIds)
                db1 (to_int_of_int _) Hne) as (_ & _ & Hown).
    by rewrite Hrun in Hown. }
  exists db2, (attach db2 row), (attach db <$> select_bookmarks db).
  split; [|split].
  - rewrite createBookmark_run by done. fold row db1.
    rewrite (bind_ok _ _ _ _ _ Hrun), bind_query. unfold select_bookmark.
    rewrite to_int_of_int, Hrows, find_last_fresh; [done|].
    apply next_rowid_fresh.
  - by apply listBookmarks_all.
  - rewrite listBookmarks_all by done.
    unfold select_bookmarks, handleSave, addBookmark.
    rewrite Hrows, order_by_snoc_newest by done. rewrite fmap_cons.
    do 3 f_equal. apply fmap_attach_ext. intros r Hr. apply Hold.
    by rewrite order_by_perm in Hr.
Qed.

Lemma filter_bind_guard {A} (Q C : A → Prop) `{∀ x, Decision (Q x)}
    `{∀ x, Decision (C x)} (l : list A) :
  filter Q (l ≫= λ x, if decide (C x) then [x] else [])
  = filter Q l ≫= λ x, if decide (C x) then [x] else [].
Proof.
  induction l as [|x l IH]; [done|].
  rewrite bind_cons, filter_app, IH. clear IH.
  destruct (decide (Q x)) as [HQ|HQ].
  - rewrite (filter_cons_True Q) by done. rewrite bind_cons. f_equal.
    case_decide; [|done]. by rewrite filter_cons_True.
  - rewrite (filter_cons_False Q) by done.
    case_decide; [|done]. by rewrite filter_cons_False.
Qed.

Lemma listed_rows_delete id z search tagId db :
  Js.to_int id = Some z →
  listed_rows search tagId (delete_bookmark id db).1
  = filter (λ r, BookmarkRow.id r ≠ z) (listed_rows search tagId db).
Proof.
  intros Hid. destruct (delete_bookmark_tables id z db Hid) as [Hb Hbt].
  unfold listed_rows. destruct (truthy tagId); [|destruct (truthy search)].
  - unfold select_bookmarks_by_tag. rewrite Hb, Hbt. clear Hb Hbt.
    rewrite <- order_by_filter, <- remove_dups_filter. do 2 f_equal.
    generalize (Js.Number (default "" tagId)). intros tag.
    induction (bookmark_tags db) as [|bt l IH]; [done|].
    rewrite bind_cons, filter_app, <- IH. clear IH.
    rewrite filter_bind_guard.
    destruct (decide (BookmarkTag.bookmark_id bt ≠ z)) as [Hne|Heq].
    + by rewrite filter_cons_True, bind_cons by done.
    + rewrite filter_cons_False by done.
      assert (filter (λ r, BookmarkRow.id r ≠ z) (bookmarks db)
              ≫= (λ b, if decide (BookmarkRow.id b
                                  = BookmarkTag.bookmark_id bt
                                  ∧ Js.to_int tag
                                    = Some (BookmarkTag.tag_id bt))
                       then [b] else [])
              = []) as ->; [|done].
      induction (bookmarks db) as [|b k IHk]; [done|].
      destruct (decide (BookmarkRow.id b ≠ z)) as [Hb|Hb].
      * rewrite filter_cons_True, bind_cons, IHk by done.
        rewrite decide_False; [done|].
        intros [Hc _]. apply Hb. apply dec_stable in Heq. congruence.
      * by rewrite filter_cons_False.
  - cbv zeta. unfold select_bookmarks_like. rewrite Hb, <- order_by_filter.
    f_equal. rewrite !list_filter_filter. apply list_filter_iff.
    intros r. tauto.
  - unfold select_bookmarks. by rewrite Hb, order_by_filter.
Qed.

(** X9.  Under whatever filter, the list after an existing bookmark has
    been deleted is the list before it without the bookmarks of that id:
    what [removeBookmark] and [handleDelete] make of the list on the client
    is what the server lists. *)
Theorem list_after_delete (db : Database) (id : Js.number) (z : Z)
    (search tagId : option string) :
  Js.to_int id = Some z →
  z ∈ (BookmarkRow.id <$> bookmarks db) →
  ∃ db' before,
    deleteBookmark id db = (db', inr id)
    ∧ listBookmarks search tagId db = (db, inr before)
    ∧ listBookmarks search tagId db' = (db', inr (removeBookmark z before)).
Proof.
  intros Hid Hin.
  exists (delete_bookmark id db).1, (attach db <$> listed_rows search tagId db).
  split; [by apply (deleteBookmark_existing id z)|].
  split; [apply listBookmarks_listed|].
  rewrite listBookmarks_listed, (listed_rows_delete id z) by done.
  do 2 f_equal. unfold removeBookmark.
  destruct (delete_bookmark_tables id z db Hid) as [Hb Hbt].
  induction (listed_rows search tagId db) as [|r l IH]; [done|].
  rewrite fmap_cons.
  rewrite (filter_cons (λ b, BookmarkWithTags.id b ≠ z)), filter_cons.
  simpl BookmarkWithTags.id.
  destruct (decide (BookmarkRow.id r ≠ z)) as [Hne|Heq]; [|done].
  rewrite fmap_cons, IH. f_equal.
  apply attach_ext; [done|]. rewrite Hbt. by apply filter_filter_other.
Qed.

(** ** The store after an update *)

Lemma updateBookmark_effect now id body db existing :
  select_bookmark id db = Some existing →
  UpdateBookmarkRequest.tagIds body ≠ Null →
  (∀ t, t ∈ value_or [] (UpdateBookmarkRequest.tagIds body) →
        t ∈ (Tag.id <$> tags db)) →
  let z := BookmarkRow.id existing in
  let row := patched_row now body existing existing in
  ∃ db',
    updateBookmark now id body db = (db', inr (attach db' row))
    ∧ bookmarks db'
      = (λ r, if decide (BookmarkRow.id r = z)
              then patched_row now body existing r else r) <$> bookmarks db
    ∧ tags db' = tags db
    ∧ (∀ b, b ≠ z →
         filter (λ bt, BookmarkTag.bookmark_id bt = b) (bookmark_tags db')
         = filter (λ bt, BookmarkTag.bookmark_id bt = b) (bookmark_tags db))
    ∧ match UpdateBookmarkRequest.tagIds body with
      | Value tagIds =>
          ∀ t, BookmarkTag.mk z t ∈ bookmark_tags db' ↔ t ∈ tagIds
      | _ => bookmark_tags db' = bookmark_tags db
      end.
Proof.
  intros Hsel Hnull Htags z row.
  destruct (updateBookmark_run now id body db existing Hsel) as [Hsel1 Hrun].
  pose proof (select_bookmark_Some _ _ _ Hsel) as [Hid Hin]. fold z in Hid.
  set (db1 := (update_bookmark
                 (default (BookmarkRow.title existing)
                    (UpdateBookmarkRequest.title body))
                 (default (BookmarkRow.url existing)
                    (UpdateBookmarkRequest.url body))
                 (default (BookmarkRow.description existing)
                    (UpdateBookmarkRequest.description body))
                 (default (BookmarkRow.favicon existing)
                    (UpdateBookmarkRequest.favicon body))
                 now id db).1) in *.
  assert (bookmarks db1
          = (λ r, if decide (BookmarkRow.id r = z)
                  then patched_row now body existing r else r)
              <$> bookmarks db) as Hrows.
  { unfold db1. rewrite (update_bookmark_rows _ _ _ _ _ id z) by done.
    apply list_fmap_ext. intros i r Hr. case_decide as Hz; [|done].
    unfold patched_row. by rewrite Hz. }
  rewrite Hrun. clear Hrun.
  destruct (UpdateBookmarkRequest.tagIds body) as [| |tagIds]; [|done|].
  - exists db1. split; [|done].
    erewrite (bind_ok _ _ db1 db1 tt) by done. rewrite bind_query.
    by rewrite Hsel1.
  - destruct (for_of_insert_ok tagIds id z (delete_bookmark_tags id db1).1 Hid)
      as (db3 & Hfor & Hb3 & Ht3 & Hbt3).
    { change (z ∈ BookmarkRow.id <$> bookmarks
                (update_bookmark
                   (default (BookmarkRow.title existing)
                      (UpdateBookmarkRequest.title body))
                   (default (BookmarkRow.url existing)
                      (UpdateBookmarkRequest.url body))
                   (default (BookmarkRow.description existing)
                      (UpdateBookmarkRequest.description body))
                   (default (BookmarkRow.favicon existing)
                      (UpdateBookmarkRequest.favicon body))
                   now id db).1).
      rewrite update_bookmark_ids. apply list_elem_of_fmap. by exists existing. }
    { done. }
    exists db3. split; [|split; [by rewrite Hb3|split; [by rewrite Ht3|split]]].
    + erewrite (bind_ok _ _ db1 db3 tt).
      * rewrite bind_query, (select_bookmark_ext id db1 db3) by done.
        by rewrite Hsel1.
      * by erewrite (bind_ok _ _ db1 _ tt).
    + intros b Hb.
      destruct (for_of_insert_other id z b tagIds
                  (delete_bookmark_tags id db1).1 Hid Hb) as (_ & _ & Hown).
      rewrite Hfor in Hown. simpl in Hown. rewrite Hown.
      rewrite list_filter_filter. apply list_filter_iff. intros bt.
      rewrite Hid. split; [tauto|]. intros ->. split; [done|congruence].
    + intros t. rewrite Hbt3. simpl.
      rewrite (filter_other_bookmark id z) by done. simpl. split.
      * intros [[_ ?]|[_ ?]]; done.
      * intros Ht. by right.
Qed.

Lemma select_bookmark_same_id id db existing r :
  NoDup (BookmarkRow.id <$> bookmarks db) →
  select_bookmark id db = Some existing →
  r ∈ bookmarks db →
  BookmarkRow.id r = BookmarkRow.id existing →
  r = existing.
Proof.
  intros Hdup Hsel Hr Heq.
  apply select_bookmark_Some in Hsel as [_ Hin].
  pose proof (select_bookmark_unique db r Hdup Hr) as H1.
  pose proof (select_bookmark_unique db existing Hdup Hin) as H2.
  rewrite Heq in H1. congruence.
Qed.

(** X10.  With no filter, in a reachable state, the list after an update
    that succeeds is the list before it with the bookmark sent by the
    update in the place of the one with its id: what [updateBookmarkInList]
    and [handleSave] make of the list on the client is what the server
    lists. *)
Theorem list_after_update (db : Database) (now : string) (id : Js.number)
    (body : UpdateBookmarkRequest.t) (existing : BookmarkRow.t) :
  reachable db →
  select_bookmark id db = Some existing →
  UpdateBookmarkRequest.tagIds body ≠ Null →
  (∀ t, t ∈ value_or [] (UpdateBookmarkRequest.tagIds body) →
        t ∈ (Tag.id <$> tags db)) →
  ∃ db' sent before,
    updateBookmark now id body db = (db', inr sent)
    ∧ listBookmarks None None db = (db, inr before)
    ∧ listBookmarks None None db'
      = (db', inr (handleSave (Some (attach db existing)) sent before)).
Proof.
  intros (Hdup & _)%reachable_keys_ok Hsel Hnull Htags.
  destruct (updateBookmark_effect now id body db existing Hsel Hnull Htags)
    as (db' & Hrun & Hrows & Ht & Hother & _).
  exists db', (attach db' (patched_row now body existing existing)),
    (attach db <$> select_bookmarks db).
  split; [done|]. split; [by apply listBookmarks_all|].
  rewrite listBookmarks_all by done. do 2 f_equal.
  unfold select_bookmarks, handleSave, updateBookmarkInList.
  rewrite Hrows, order_by_fmap by (intros r; by case_decide).
  rewrite <- !list_fmap_compose. apply list_fmap_ext. intros i r Hr.
  apply list_elem_of_lookup_2 in Hr. rewrite order_by_perm in Hr.
  simpl. destruct (decide (BookmarkRow.id r = BookmarkRow.id existing))
    as [Heq|Hne].
  - by rewrite (select_bookmark_same_id id db existing r).
  - apply attach_ext; [done|]. by apply Hother.
Qed.

(** * The client *)

(** ** Choosing tags *)

Lemma elem_of_toggle_self tagId prev :
  tagId ∈ toggle tagId prev ↔ tagId ∉ prev.
Proof.
  unfold toggle. case_decide as Hin.
  - rewrite list_elem_of_filter. tauto.
  - rewrite elem_of_app, list_elem_of_singleton. tauto.
Qed.

Lemma elem_of_toggle_other tagId prev id :
  id ≠ tagId → id ∈ toggle tagId prev ↔ id ∈ prev.
Proof.
  intros Hne. unfold toggle. case_decide.
  - rewrite list_elem_of_filter. tauto.
  - rewrite elem_of_app, list_elem_of_singleton. tauto.
Qed.

(** X11.  Toggling a tag puts it among the chosen tags when it was not
    there and takes it out when it was, and changes nothing about the other
    tags; chosen tags that were without repetition stay so, and toggling
    twice gives the tags there were, in the same order when the tag was not
    chosen at first. *)
Theorem toggle_flips (tagId : Z) (prev : list Z) :
  (tagId ∈ toggle tagId prev ↔ tagId ∉ prev)
  ∧ (∀ id, id ≠ tagId → (id ∈ toggle tagId prev ↔ id ∈ prev))
  ∧ (NoDup prev → NoDup (toggle tagId prev))
  ∧ (tagId ∉ prev → toggle tagId (toggle tagId prev) = prev)
  ∧ (NoDup prev → toggle tagId (toggle tagId prev) ≡ₚ prev).
Proof.
  assert (tagId ∉ prev → toggle tagId (toggle tagId prev) = prev) as Hback.
  { intros Hnot. unfold toggle at 2. rewrite decide_False by done.
    unfold toggle. rewrite decide_True by (apply elem_of_app; right; by left).
    rewrite filter_app, filter_cons_False, filter_nil, app_nil_r by tauto.
    induction prev as [|x l IH]; [done|].
    apply not_elem_of_cons in Hnot as [Hne Hnot].
    rewrite filter_cons_True by done. by rewrite IH. }
  split; [|split; [|split; [|split; [done|]]]].
  - apply elem_of_toggle_self.
  - intros id Hne. by apply elem_of_toggle_other.
  - intros Hdup. unfold toggle. case_decide.
    + by apply NoDup_filter.
    + apply NoDup_app. split; [done|]. split; [|apply NoDup_singleton].
      by intros x Hx ->%list_elem_of_singleton.
  - intros Hdup. destruct (decide (tagId ∈ prev)) as [Hin|Hnot];
      [|by rewrite Hback].
    unfold toggle at 2. rewrite decide_True by done.
    unfold toggle. rewrite decide_False by (rewrite list_elem_of_filter; tauto).
    apply NoDup_Permutation; [|done|].
    + apply NoDup_app. split; [by apply NoDup_filter|].
      split; [|apply NoDup_singleton].
      intros x [Hx _]%list_elem_of_filter ->%list_elem_of_singleton. done.
    + intros x. rewrite elem_of_app, list_elem_of_filter,
        list_elem_of_singleton.
      destruct (decide (x = tagId)) as [->|]; tauto.
Qed.

(** ** The quick tag menu of a card *)

Lemma elem_of_tag_ids_of b db x :
  x ∈ Tag.id <$> select_tags_of b db
  ↔ x ∈ (Tag.id <$> tags db) ∧ BookmarkTag.mk b x ∈ bookmark_tags db.
Proof.
  rewrite !list_elem_of_fmap. split.
  - intros (t & -> & [Ht Hbt]%elem_of_select_tags_of). split; [|done].
    by exists t.
  - intros [(t & -> & Ht) Hbt]. exists t. split; [done|].
    by apply elem_of_select_tags_of.
Qed.

(** X12.  A click in the quick tag menu of a card that shows a stored
    bookmark, on a tag that exists, is answered with a bookmark that has the
    clicked tag exactly when the card did not have it, that has every other
    tag exactly when the card had it, and whose other fields are those of
    the card, the time of the update apart. *)
Theorem quick_tag_toggles (db : Database) (now : string) (id : Js.number)
    (existing : BookmarkRow.t) (tagId : Z) :
  select_bookmark id db = Some existing →
  tagId ∈ Tag.id <$> tags db →
  let shown := attach db existing in
  ∃ db' sent,
    updateBookmark now id (quick_tag_request shown tagId) db = (db', inr sent)
    ∧ (tagId ∈ Tag.id <$> BookmarkWithTags.tags sent
       ↔ tagId ∉ Tag.id <$> BookmarkWithTags.tags shown)
    ∧ (∀ t, Tag.id t ≠ tagId →
         t ∈ BookmarkWithTags.tags sent ↔ t ∈ BookmarkWithTags.tags shown)
    ∧ BookmarkWithTags.id sent = BookmarkWithTags.id shown
    ∧ BookmarkWithTags.title sent = BookmarkWithTags.title shown
    ∧ BookmarkWithTags.url sent = BookmarkWithTags.url shown
    ∧ BookmarkWithTags.description sent = BookmarkWithTags.description shown
    ∧ BookmarkWithTags.favicon sent = BookmarkWithTags.favicon shown
    ∧ BookmarkWithTags.createdAt sent = BookmarkWithTags.createdAt shown
    ∧ BookmarkWithTags.updatedAt sent = now.
Proof.
  intros Hsel Htag shown.
  set (z := BookmarkRow.id existing).
  set (current := Tag.id <$> select_tags_of z db).
  destruct (updateBookmark_effect now id (quick_tag_request shown tagId) db
              existing Hsel) as (db' & Hrun & _ & Htags & _ & Hown).
  { done. }
  { simpl. intros t Ht. destruct (decide (t = tagId)) as [->|Hne]; [done|].
    apply elem_of_toggle_other in Ht; [|done].
    by apply elem_of_tag_ids_of in Ht as [Ht _]. }
  simpl in Hown. fold z current in Hown.
  eexists db', _. split; [exact Hrun|]. simpl. fold z current.
  assert (∀ x, x ∈ Tag.id <$> select_tags_of z db'
               ↔ x ∈ (Tag.id <$> tags db) ∧ x ∈ toggle tagId current) as Hids.
  { intros x. rewrite elem_of_tag_ids_of, Htags, Hown. done. }
  split; [|split; [|done]].
  - rewrite Hids, elem_of_toggle_self. tauto.
  - intros t Hne. rewrite !elem_of_select_tags_of, Htags, Hown.
    rewrite elem_of_toggle_other by done. unfold current.
    rewrite elem_of_tag_ids_of. split; [tauto|].
    intros [Ht Hbt]. split; [done|]. split; [|done].
    apply list_elem_of_fmap. by exists t.
Qed.

(** ** The form *)

Lemma form_data_Some title url description selectedTagIds data :
  form_data title url description selectedTagIds = Some data →
  trim title ≠ "" ∧ trim url ≠ ""
  ∧ data = CreateBookmarkRequest.mk
             (Some (trim title)) (Some (trim url))
             (if (trim description =? "")%string then None
              else Some (trim description))
             None
             (if 0 <? Z.of_nat (length selectedTagIds)
              then Some selectedTagIds else None).
Proof.
  unfold form_data.
  destruct (String.eqb_spec (trim title) "") as [|Ht]; [done|].
  destruct (String.eqb_spec (trim url) "") as [|Hu]; [done|].
  simpl. by intros [= <-].
Qed.

Lemma selected_or_nothing (selectedTagIds : list Z) :
  default [] (if 0 <? Z.of_nat (length selectedTagIds)
              then Some selectedTagIds else None)
  = selectedTagIds.
Proof. by destruct selectedTagIds. Qed.

(** X13.  The form sends nothing exactly when the title or the url is
    blank.  What it sends for a new bookmark, the chosen tags existing, is
    stored: the answer has the trimmed title, url and description, no
    favicon, and exactly the chosen tags; its title and url are not
    empty. *)
Theorem form_create (db : Database) (now title url description : string)
    (selectedTagIds : list Z) :
  reachable db →
  (∀ t, t ∈ selectedTagIds → t ∈ Tag.id <$> tags db) →
  match form_data title url description selectedTagIds with
  | None => trim title = "" ∨ trim url = ""
  | Some data =>
      ∃ db' sent,
        createBookmark now data db = (db', inr sent)
        ∧ BookmarkWithTags.title sent = trim title
        ∧ BookmarkWithTags.url sent = trim url
        ∧ BookmarkWithTags.description sent = trim description
        ∧ BookmarkWithTags.favicon sent = ""
        ∧ (∀ t, t ∈ BookmarkWithTags.tags sent
                ↔ t ∈ tags db ∧ Tag.id t ∈ selectedTagIds)
        ∧ BookmarkWithTags.title sent ≠ ""
        ∧ BookmarkWithTags.url sent ≠ ""
  end.
Proof.
  intros Hreach Hsel.
  destruct (form_data title url description selectedTagIds) as [data|] eqn:Hf.
  - apply form_data_Some in Hf as (Ht & Hu & ->).
    destruct (createBookmark_ok now (trim title) (trim url)
                (if (trim description =? "")%string then None
                 else Some (trim description))
                None
                (if 0 <? Z.of_nat (length selectedTagIds)
                 then Some selectedTagIds else None) db Ht Hu)
      as (db' & Hrun & _ & Htags & Hbt).
    { by rewrite selected_or_nothing. }
    eexists db', _. split; [exact Hrun|]. simpl.
    split; [done|]. split; [done|]. split.
    { by destruct (String.eqb_spec (trim description) "") as [->|]. }
    split; [done|]. split; [|done].
    intros t. rewrite elem_of_select_tags_of, Htags, Hbt. simpl.
    rewrite selected_or_nothing. split; [|tauto].
    intros [Hin [Hold|[_ Hnew]]]; [|done].
    apply (reachable_fk_ok _ Hreach) in Hold as [Hold _]. simpl in Hold.
    by apply next_rowid_fresh in Hold.
  - unfold form_data in Hf.
    destruct (String.eqb_spec (trim title) "") as [|_]; [by left|].
    destruct (String.eqb_spec (trim url) "") as [|_]; [by right|].
    done.
Qed.

(** X14.  What the form sends for a bookmark that is edited, the chosen
    tags existing, is stored: the answer has the trimmed title and url and
    the favicon there was; a description left blank in the form keeps the
    description there was, and with no tag chosen the bookmark keeps the tags
    it had. *)
Theorem form_edit (db : Database) (now : string) (id : Js.number)
    (existing : BookmarkRow.t) (title url description : string)
    (selectedTagIds : list Z) (data : CreateBookmarkRequest.t) :
  select_bookmark id db = Some existing →
  (∀ t, t ∈ selectedTagIds → t ∈ Tag.id <$> tags db) →
  form_data title url description selectedTagIds = Some data →
  ∃ db' sent,
    updateBookmark now id (as_update data) db = (db', inr sent)
    ∧ BookmarkWithTags.title sent = trim title
    ∧ BookmarkWithTags.url sent = trim url
    ∧ BookmarkWithTags.title sent ≠ ""
    ∧ BookmarkWithTags.url sent ≠ ""
    ∧ BookmarkWithTags.description sent
      = (if (trim description =? "")%string then BookmarkRow.description existing
         else trim description)
    ∧ BookmarkWithTags.favicon sent = BookmarkRow.favicon existing
    ∧ match selectedTagIds with
      | [] => BookmarkWithTags.tags sent
              = BookmarkWithTags.tags (attach db existing)
      | _ => ∀ t, t ∈ BookmarkWithTags.tags sent
                  ↔ t ∈ tags db ∧ Tag.id t ∈ selectedTagIds
      end.
Proof.
  intros Hsel Hchosen Hf. apply form_data_Some in Hf as (Ht & Hu & ->).
  destruct (updateBookmark_effect now id
              (as_update
                 (CreateBookmarkRequest.mk
                    (Some (trim title)) (Some (trim url))
                    (if (trim description =? "")%string then None
                     else Some (trim description))
                    None
                    (if 0 <? Z.of_nat (length selectedTagIds)
                     then Some selectedTagIds else None))) db existing Hsel)
    as (db' & Hrun & _ & Htags & _ & Hown).
  { simpl. by destruct selectedTagIds. }
  { simpl. by destruct selectedTagIds. }
  eexists db', _. split; [exact Hrun|]. simpl.
  split; [done|]. split; [done|]. split; [done|]. split; [done|]. split.
  { by destruct (String.eqb_spec (trim description) ""). }
  split; [done|]. simpl in Hown.
  destruct selectedTagIds as [|t0 l]; simpl in Hown.
  - unfold select_tags_of. by rewrite Htags, Hown.
  - intros t. rewrite elem_of_select_tags_of, Htags, Hown. done.
Qed.

(** ** An id from the client to the server *)

Lemma digit_char_code d : 0 ≤ d < 10 → Js.code (digit_char d) = 48 + d.
Proof.
  intros Hd. unfold Js.code, digit_char.
  rewrite nat_ascii_embedding by lia. lia.
Qed.

Lemma digit_of_digit_char d : 0 ≤ d < 10 → Js.digit_of 10 (digit_char d) = Some d.
Proof.
  intros Hd. unfold Js.digit_of. rewrite digit_char_code by done.
  replace ((48 <=? 48 + d) && (48 + d <=? 57)) with true
    by (symmetry; apply andb_true_iff; split; lia).
  replace (48 + d - 48 <? 10) with true by (symmetry; lia).
  f_equal. lia.
Qed.

Lemma digits_decimal fuel n tail :
  0 ≤ n < 10 ^ Z.of_nat (S fuel) →
  ∃ k, 0 < k ∧ ∀ acc count,
    Js.digits 10 (decimal (S fuel) n tail) acc count
    = Js.digits 10 tail (acc * 10 ^ k + n) (count + k).
Proof.
  revert n tail. induction fuel as [|fuel IH]; intros n tail Hn.
  - change (Z.of_nat 1) with 1 in Hn. rewrite Z.pow_1_r in Hn.
    assert (0 ≤ n mod 10 < 10) as Hd by (apply Z.mod_pos_bound; lia).
    exists 1. split; [lia|]. intros acc count. simpl decimal.
    destruct (Z.ltb_spec n 10) as [_|]; [|lia]. simpl.
    rewrite digit_of_digit_char by done. rewrite Z.mod_small by lia.
    f_equal; lia.
  - change (decimal (S (S fuel)) n tail)
      with (if n <? 10 then String (digit_char (n mod 10)) tail
            else decimal (S fuel) (n / 10) (String (digit_char (n mod 10)) tail)).
    assert (0 ≤ n mod 10 < 10) as Hd by (apply Z.mod_pos_bound; lia).
    destruct (Z.ltb_spec n 10) as [Hlt|Hge].
    + exists 1. split; [lia|]. intros acc count. simpl.
      rewrite digit_of_digit_char by done. rewrite Z.mod_small by lia.
      f_equal; lia.
    + destruct (IH (n / 10) (String (digit_char (n mod 10)) tail))
        as (k & Hk & Hrun).
      { split; [apply Z.div_pos; lia|]. apply Z.div_lt_upper_bound; [lia|].
        rewrite (Nat2Z.inj_succ (S fuel)), Z.pow_succ_r in Hn by lia. lia. }
      exists (k + 1). split; [lia|]. intros acc count. rewrite Hrun. simpl.
      rewrite digit_of_digit_char by done. f_equal; [|lia].
      rewrite Z.pow_add_r by lia. pose proof (Z.div_mod n 10). lia.
Qed.

Lemma all_digits_decimal fuel n tail :
  0 ≤ n → all_digits tail = true → all_digits (decimal fuel n tail) = true.
Proof.
  revert n tail. induction fuel as [|fuel IH]; intros n tail Hn Htail; [done|].
  simpl decimal. assert (0 ≤ n mod 10 < 10) as Hd by (apply Z.mod_pos_bound; lia).
  assert (all_digits (String (digit_char (n mod 10)) tail) = true) as Htail'.
  { simpl. rewrite digit_char_code, Htail by done.
    rewrite andb_true_r. apply andb_true_iff. split; lia. }
  destruct (n <? 10); [done|]. apply IH; [|done]. apply Z.div_pos; lia.
Qed.

Lemma decimal_not_empty fuel n tail : decimal (S fuel) n tail ≠ "".
Proof.
  revert n tail. induction fuel as [|fuel IH]; intros n tail.
  - simpl. by destruct (n <? 10).
  - change (decimal (S (S fuel)) n tail)
      with (if n <? 10 then String (digit_char (n mod 10)) tail
            else decimal (S fuel) (n / 10) (String (digit_char (n mod 10)) tail)).
    destruct (n <? 10); [done|]. apply IH.
Qed.

Lemma trim_left_ascii c s :
  Js.code c < 128 → Js.is_white1 c = false →
  Js.trim_left (String c s) = String c s.
Proof.
  intros Hc Hwhite. simpl. rewrite Hwhite.
  destruct s as [|c2 s]; [done|].
  assert (Js.is_white2 c c2 = false) as ->.
  { unfold Js.is_white2. destruct (Z.eqb_spec (Js.code c) 194); [lia|done]. }
  destruct s as [|c3 s]; [done|].
  assert (Js.is_white3 c c2 c3 = false) as ->; [|done].
  unfold Js.is_white3. cbv zeta.
  repeat match goal with
         | |- context [Js.code c =? ?k] =>
             replace (Js.code c =? k) with false
               by (symmetry; apply Z.eqb_neq; lia)
         end.
  reflexivity.
Qed.

Lemma trim_right_cons c s :
  Js.trim_right (String c s)
  = match Js.trim_left (String c s) with
    | EmptyString => EmptyString
    | _ => String c (Js.trim_right s)
    end.
Proof. done. Qed.

Lemma is_white_digit c :
  (48 <=? Js.code c) && (Js.code c <=? 57) = true →
  Js.code c < 128 ∧ Js.is_white1 c = false.
Proof.
  intros [H1 H2]%andb_true_iff. split; [lia|]. unfold Js.is_white1.
  apply orb_false_iff. split; [|lia].
  apply andb_false_iff. right. lia.
Qed.

Lemma trim_left_digits s : all_digits s = true → Js.trim_left s = s.
Proof.
  destruct s as [|c s]; [done|]. simpl all_digits.
  intros [[Hc Hwhite]%is_white_digit _]%andb_true_iff.
  by apply trim_left_ascii.
Qed.

Lemma trim_right_digits s : all_digits s = true → Js.trim_right s = s.
Proof.
  induction s as [|c s IH]; [done|]. simpl all_digits.
  intros [[Hc Hwhite]%is_white_digit Hs]%andb_true_iff.
  rewrite trim_right_cons, trim_left_ascii, IH by done. done.
Qed.

Lemma round_half_even_one x : Js.round_half_even x 1 = x.
Proof.
  unfold Js.round_half_even. rewrite Z.mod_1_r, Z.div_1_r. done.
Qed.

Lemma round_binary64_int negative n :
  0 < n < 2 ^ 53 →
  Js.to_int (Js.round_binary64 negative n 1)
  = Some (if negative then - n else n).
Proof.
  intros Hn. unfold Js.round_binary64.
  destruct (Z.eqb_spec n 0) as [|_]; [lia|].
  assert (0 ≤ Z.log2 n < 53) as He.
  { split; [apply Z.log2_nonneg|]. apply Z.log2_lt_pow2; lia. }
  assert (Js.floor_log2 n 1 = Z.log2 n) as ->.
  { unfold Js.floor_log2, Js.ge_pow2. change (Z.log2 1) with 0.
    rewrite Z.sub_0_r. destruct (Z.leb_spec 0 (Z.log2 n)) as [_|]; [|lia].
    pose proof (Z.log2_spec n) as Hspec.
    destruct (Z.leb_spec (1 * 2 ^ Z.log2 n) n) as [|]; [done|lia]. }
  cbv zeta. rewrite Z.max_l by lia.
  set (e := Z.log2 n) in *.
  destruct (Z.leb_spec 0 (e - 52)) as [Hq|Hq].
  - assert (e - 52 = 0) as -> by lia. change (1 * 2 ^ 0) with 1.
    rewrite round_half_even_one.
    destruct (Z.eqb_spec n 0) as [|_]; [lia|]. rewrite Z.add_0_r. fold e.
    destruct (Z.leb_spec 1024 e) as [|_]; [lia|]. simpl.
    f_equal. destruct negative; lia.
  - rewrite round_half_even_one.
    assert (0 < 2 ^ (- (e - 52))) as Hpos by (apply Z.pow_pos_nonneg; lia).
    destruct (Z.eqb_spec (n * 2 ^ (- (e - 52))) 0) as [|_]; [nia|].
    rewrite Z.log2_mul_pow2 by lia. fold e.
    match goal with
    | |- context [1024 <=? ?x] => destruct (Z.leb_spec 1024 x) as [|_]; [lia|]
    end.
    unfold Js.to_int. destruct (Z.leb_spec 0 (e - 52)) as [|_]; [lia|].
    assert ((if negative then - (n * 2 ^ (- (e - 52)))
             else n * 2 ^ (- (e - 52)))
            = (if negative then - n else n) * 2 ^ (- (e - 52))) as ->
      by (destruct negative; lia).
    rewrite Z.mod_mul, Z.div_mul by lia. done.
Qed.

Lemma unsigned_decimal_digits negative s n k :
  Js.digits 10 s 0 0 = (n, k, "") → 0 < k →
  Js.unsigned_decimal negative s = Js.round_binary64 negative n 1.
Proof.
  intros Hd Hk. unfold Js.unsigned_decimal. rewrite Hd.
  rewrite Z.add_0_r. destruct (Z.eqb_spec k 0) as [|_]; [lia|].
  unfold Js.of_decimal. simpl. by rewrite Z.mul_1_r.
Qed.

Lemma signed_decimal_digits negative s n k :
  all_digits s = true →
  Js.digits 10 s 0 0 = (n, k, "") → 0 < k →
  Js.signed_decimal negative s = Js.round_binary64 negative n 1.
Proof.
  intros Hall Hd Hk. unfold Js.signed_decimal.
  destruct (String.eqb_spec s "Infinity") as [->|_]; [done|].
  by apply (unsigned_decimal_digits _ _ _ k).
Qed.

Lemma Number_digits s :
  all_digits s = true → s ≠ "" → Js.Number s = Js.signed_decimal false s.
Proof.
  intros Hall Hne. unfold Js.Number.
  rewrite trim_left_digits, trim_right_digits by done.
  destruct s as [|c t]; [done|]. simpl in Hall.
  apply andb_true_iff in Hall as [Hc Ht].
  destruct c as [[] [] [] [] [] [] [] []]; vm_compute in Hc; try done.
  destruct t as [|c' t']; [done|]. simpl in Ht.
  apply andb_true_iff in Ht as [Hc' _].
  destruct c' as [[] [] [] [] [] [] [] []]; vm_compute in Hc'; done.
Qed.

Lemma Number_minus_digits s :
  all_digits s = true → s ≠ "" →
  Js.Number (String "-" s) = Js.signed_decimal true s.
Proof.
  intros Hall Hne. unfold Js.Number.
  rewrite (trim_left_ascii "-" s) by (vm_compute; done).
  rewrite trim_right_cons, (trim_left_ascii "-" s) by (vm_compute; done).
  by rewrite trim_right_digits.
Qed.

Lemma Number_String_of_int z :
  - 2 ^ 53 < z < 2 ^ 53 → Js.to_int (Js.Number (String_of_int z)) = Some z.
Proof.
  intros Hz. unfold String_of_int.
  destruct (Z.ltb_spec z 0) as [Hneg|Hpos].
  - destruct (digits_decimal 20 (- z) "") as (k & Hk & Hd).
    { change (10 ^ Z.of_nat 21) with 1000000000000000000000.
      change (2 ^ 53) with 9007199254740992 in Hz. lia. }
    rewrite Number_minus_digits;
      [|apply all_digits_decimal; [lia|done]|apply (decimal_not_empty 20)].
    rewrite (signed_decimal_digits true _ (- z) k); [| |by rewrite Hd|done].
    + rewrite round_binary64_int by lia. f_equal. lia.
    + apply all_digits_decimal; [lia|done].
  - destruct (Z.eq_dec z 0) as [->|Hnz]; [done|].
    destruct (digits_decimal 20 z "") as (k & Hk & Hd).
    { change (10 ^ Z.of_nat 21) with 1000000000000000000000.
      change (2 ^ 53) with 9007199254740992 in Hz. lia. }
    rewrite Number_digits;
      [|apply all_digits_decimal; [lia|done]|apply (decimal_not_empty 20)].
    rewrite (signed_decimal_digits false _ z k); [| |by rewrite Hd|done].
    + rewrite round_binary64_int by lia. done.
    + apply all_digits_decimal; [lia|done].
Qed.

Lemma String_of_int_not_empty z : String_of_int z ≠ "".
Proof.
  unfold String_of_int. destruct (z <? 0); [done|].
  apply (decimal_not_empty 20).
Qed.

Lemma getBookmark_same id id' z db :
  Js.to_int id = Some z → Js.to_int id' = Some z →
  getBookmark id db = getBookmark id' db.
Proof.
  intros Hid Hid'. unfold getBookmark, select_bookmark.
  rewrite (to_int_not_NaN id z), (to_int_not_NaN id' z) by done.
  by rewrite Hid, Hid'.
Qed.

Lemma insert_bookmark_tag_same id id' z :
  Js.to_int id = Some z → Js.to_int id' = Some z →
  insert_bookmark_tag id = insert_bookmark_tag id'.
Proof.
  intros Hid Hid'. unfold insert_bookmark_tag.
  destruct id as [| |m e]; [done..|]. destruct id' as [| |m' e']; [done..|].
  by rewrite Hid, Hid'.
Qed.

Lemma updateBookmark_same now id id' z body db :
  Js.to_int id = Some z → Js.to_int id' = Some z →
  updateBookmark now id body db = updateBookmark now id' body db.
Proof.
  intros Hid Hid'. unfold updateBookmark.
  rewrite (insert_bookmark_tag_same id id' z) by done.
  unfold select_bookmark, update_bookmark, delete_bookmark_tags.
  rewrite (to_int_not_NaN id z), (to_int_not_NaN id' z) by done.
  by rewrite Hid, Hid'.
Qed.

Lemma deleteBookmark_same n n' z db :
  Js.to_int n = Some z → Js.to_int n' = Some z →
  prod_map id (sum_map id Js.to_int) (deleteBookmark n db)
  = prod_map id (sum_map id Js.to_int) (deleteBookmark n' db).
Proof.
  intros Hid Hid'. unfold deleteBookmark, select_bookmark, delete_bookmark.
  rewrite (to_int_not_NaN n z), (to_int_not_NaN n' z) by done.
  rewrite !bind_query, Hid, Hid'.
  destruct (find _ (bookmarks db)); [|done].
  unfold_M. simpl. by rewrite Hid, Hid'.
Qed.

Lemma deleteTag_same n n' z db :
  Js.to_int n = Some z → Js.to_int n' = Some z →
  prod_map id (sum_map id Js.to_int) (deleteTag n db)
  = prod_map id (sum_map id Js.to_int) (deleteTag n' db).
Proof.
  intros Hid Hid'. unfold deleteTag, select_tag, delete_tag.
  rewrite (to_int_not_NaN n z), (to_int_not_NaN n' z) by done.
  rewrite !bind_query, Hid, Hid'.
  destruct (find _ (tags db)); [|done].
  unfold_M. simpl. by rewrite Hid, Hid'.
Qed.

(** X15.  An id that is an integer between [-2^53] and [2^53], written by
    the client into the path of a request, is read by the server as that
    integer: each route with an [:id] runs its handler at the id the client
    meant, and a deletion answers with that id. *)
Theorem id_round_trip (z : Z) (now : string) (body : UpdateBookmarkRequest.t)
    (db : Database) :
  - 2 ^ 53 < z < 2 ^ 53 →
  get_bookmark_route (String_of_int z) db = getBookmark (Js.of_int z) db
  ∧ put_bookmark_route now (String_of_int z) body db
    = updateBookmark now (Js.of_int z) body db
  ∧ prod_map id (sum_map id Js.to_int)
      (delete_bookmark_route (String_of_int z) db)
    = prod_map id (sum_map id Js.to_int) (deleteBookmark (Js.of_int z) db)
  ∧ prod_map id (sum_map id Js.to_int)
      (delete_tag_route (String_of_int z) db)
    = prod_map id (sum_map id Js.to_int) (deleteTag (Js.of_int z) db).
Proof.
  intros Hz. pose proof (Number_String_of_int z Hz) as Hid.
  pose proof (to_int_of_int z) as Hid'.
  split; [by apply (getBookmark_same _ _ z)|].
  split; [by apply (updateBookmark_same _ _ _ z)|].
  split; [by apply (deleteBookmark_same _ _ z)|].
  by apply (deleteTag_same _ _ z).
Qed.

Lemma listBookmarks_no_tag search db :
  listBookmarks (if truthy search then search else None) None db
  = listBookmarks search None db.
Proof. unfold listBookmarks. simpl. by destruct (truthy search) eqn:Hs; rewrite ?Hs. Qed.

(** X16.  The list the client fetches for a tag whose id is an integer
    between [-2^53] and [2^53] other than 0 has exactly the stored bookmarks
    that carry this tag, whatever it searches for; with the tag id 0, as
    with none, it is the list of the search alone. *)
Theorem fetch_by_tag (search : option string) (z : Z) (db : Database) :
  - 2 ^ 53 < z < 2 ^ 53 →
  let q := fetchBookmarks_query search (Some z) in
  if decide (z = 0) then listBookmarks q.1 q.2 db = listBookmarks search None db
  else
    ∃ rows,
      listBookmarks q.1 q.2 db = (db, inr (attach db <$> rows))
      ∧ ∀ r, r ∈ rows
             ↔ r ∈ bookmarks db
               ∧ BookmarkTag.mk (BookmarkRow.id r) z ∈ bookmark_tags db.
Proof.
  intros Hz q. unfold q, fetchBookmarks_query. simpl.
  case_decide as Hnz.
  - subst z. simpl. apply listBookmarks_no_tag.
  - destruct (Z.eqb_spec z 0) as [|_]; [done|].
    pose proof (Number_String_of_int z Hz) as Hid.
    pose proof (String_of_int_not_empty z) as Hne.
    destruct (String_of_int z) as [|c t]; [done|].
    eexists. split; [apply listBookmarks_by_tag|].
    intros r. rewrite elem_of_select_bookmarks_by_tag, Hid. split.
    + intros (Hin & [b t'] & Hbt & Hb & [= ->]). simpl in Hb. by subst b.
    + intros [Hin Hbt]. split; [done|]. by eexists.
Qed.

(** ** A tag made in the form *)

Lemma insert_name_asc_snoc t l last :
  name_not_after t last →
  insert_name_asc t (l ++ [last]) = insert_name_asc t l ++ [last].
Proof.
  intros Hle. induction l as [|t' l IH]; simpl.
  - by rewrite Hle.
  - case_match; [done|]. by rewrite IH.
Qed.

Lemma order_by_name_snoc l last :
  (∀ t, t ∈ l → name_not_after t last) →
  order_by_name_asc (l ++ [last]) = order_by_name_asc l ++ [last].
Proof.
  induction l as [|t l IH]; intros Hle; [done|].
  simpl. rewrite IH by (intros t' Ht'; apply Hle; by right).
  apply insert_name_asc_snoc. apply Hle. by left.
Qed.

Lemma order_by_name_sorted l : StronglySorted name_not_after (order_by_name_asc l).
Proof.
  apply Sorted_StronglySorted; [apply _|].
  induction l as [|t l IH]; simpl; [constructor|].
  by apply insert_name_asc_sorted.
Qed.

Lemma StronglySorted_snoc_inv {A} (R : A → A → Prop) l x :
  StronglySorted R (l ++ [x]) → ∀ y, y ∈ l → R y x.
Proof.
  induction l as [|a l IH]; intros Hs y Hy; [by apply elem_of_nil in Hy|].
  simpl in Hs. apply StronglySorted_inv in Hs as [Hs Hall].
  apply elem_of_cons in Hy as [->|Hy]; [|by apply IH].
  rewrite Forall_forall in Hall. apply Hall, elem_of_app. right. by left.
Qed.

(** X17.  What the form sends for a new tag whose trimmed name no tag has is
    stored, with a new id, the trimmed name and the chosen color.  The list
    of tags the client keeps after it, the tags it had fetched with the new
    tag at the end, has the tags the server lists from then on; it has them
    in the order of the server exactly when no stored name comes after the
    new one. *)
Theorem tags_after_create (db : Database) (newTagName newTagColor : string)
    (data : CreateTagRequest.t) :
  tag_data newTagName newTagColor = Some data →
  (trim newTagName ∉ Tag.name <$> tags db) →
  ∃ db' tag before after,
    createTag None data db = (db', inr tag)
    ∧ (Tag.id tag ∉ Tag.id <$> tags db)
    ∧ Tag.name tag = trim newTagName
    ∧ Tag.color tag = newTagColor
    ∧ listTags db = (db, inr before)
    ∧ listTags db' = (db', inr after)
    ∧ after ≡ₚ addTag tag before
    ∧ (after = addTag tag before
       ↔ ∀ t, t ∈ tags db →
              String.leb (Tag.name t) (trim newTagName) = true).
Proof.
  unfold tag_data. intros Hdata Hnew.
  destruct (String.eqb_spec (trim newTagName) "") as [|Hne]; [done|].
  injection Hdata as <-. rewrite createTag_cases. simpl.
  destruct (trim newTagName) as [|c name] eqn:Hname; [done|].
  rewrite decide_False by done.
  set (tag := Tag.mk (next_rowid (Tag.id <$> tags db) (seq_tags db))
                (String c name) newTagColor).
  eexists _, tag, (select_tags db), _.
  split; [done|]. split; [apply next_rowid_fresh|].
  split; [done|]. split; [done|]. split; [done|]. split; [done|].
  unfold select_tags, addTag. simpl. split.
  - by rewrite !order_by_name_perm.
  - split.
    + intros Heq t Ht.
      apply (StronglySorted_snoc_inv name_not_after
               (order_by_name_asc (tags db)) tag).
      * rewrite <- Heq. apply order_by_name_sorted.
      * by rewrite order_by_name_perm.
    + intros Hle. by apply order_by_name_snoc.
Qed.

(** * What the handlers throw *)






(** * A search without wildcards *)

(** X18.  With no tag given, a search that is not empty and is made of
    characters of ASCII other than NUL, [%] and [_] sends the stored
    bookmarks whose title, url or description contains it before its first
    NUL byte, if it has one, up to the case of ASCII letters; it sends them
    the newest first. *)
Theorem search_contains (db : Database) (search : string)
    (tagId : option string) :
  search ≠ "" →
  ascii_text search = true →
  wildcard_free search = true →
  truthy tagId = false →
  listBookmarks (Some search) tagId db
  = (db, inr (attach db <$>
                order_by_created_at_desc
                  (filter (λ r, contains_ci search
                                  (c_string (BookmarkRow.title r))
                                || contains_ci search
                                     (c_string (BookmarkRow.url r))
                                || contains_ci search
                                     (c_string (BookmarkRow.description r)))
                          (bookmarks db)))).
Proof.
  intros Hne Hascii Hfree Htag. destruct search as [|c s]; [done|].
  rewrite listBookmarks_search by done. unfold select_bookmarks_like.
  do 4 f_equal. apply list_filter_iff. intros r.
  by rewrite !like_contains.
Qed.

(** X18 on the bookmarks titled GitHub and Example: the search [HUB]. *)
Lemma search_contains_witness :
  ∃ sent,
    listBookmarks (Some "HUB") None Examples.github
    = (Examples.github, inr sent)
    ∧ BookmarkWithTags.title <$> sent = ["GitHub"].
Proof.
  eexists. split.
  - apply (search_contains Examples.github "HUB" None); done.
  - reflexivity.
Defined.

(** * The properties above on the stores of the examples *)

(** X2 on the store with one bookmark. *)
Lemma keys_unique_witness : NoDup (Tag.name <$> tags Examples.one_bookmark).
Proof.
  destruct (keys_unique Examples.one_bookmark) as (_ & _ & Hnames & _).
  - by apply reachable_one_bookmark.
  - exact Hnames.
Defined.

(** X3 on the store with one bookmark: bookmark 1 is deleted, and the next
    create does not get its id. *)
Lemma deleted_id_is_not_reused_witness :
  let db1 := (deleteBookmark (Js.of_int 1) Examples.one_bookmark).1 in
  let db2 :=
    handle_all
      [CreateBookmark Examples.t1
         (CreateBookmarkRequest.mk (Some "B") (Some "http://b") None None None)]
      db1 in
  getBookmark (Js.of_int 1) db2 = (db2, inl (AppError 404)).
Proof.
  destruct (deleted_id_is_not_reused Examples.one_bookmark (Js.of_int 1)
              [CreateBookmark Examples.t1
                 (CreateBookmarkRequest.mk (Some "B") (Some "http://b")
                    None None None)]) as [Hbookmark _].
  - by apply reachable_one_bookmark.
  - destruct (Hbookmark
                (deleteBookmark (Js.of_int 1) Examples.one_bookmark).1
                (Js.of_int 1)) as (_ & Hget & _).
    + reflexivity.
    + exact Hget.
Defined.

(** X4 on the store with one bookmark. *)
Lemma deleteBookmark_frame_witness :
  ∃ db',
    deleteBookmark (Js.of_int 1) Examples.one_bookmark = (db', inr (Js.of_int 1))
    ∧ tags db' = tags Examples.one_bookmark
    ∧ bookmarks db' = [].
Proof.
  destruct (deleteBookmark_frame Examples.one_bookmark (Js.of_int 1) 1)
    as (db' & Hrun & Htags & Hrows & _).
  - reflexivity.
  - vm_compute. apply list_elem_of_In. simpl. by left.
  - exists db'. split; [done|]. split; [done|]. by rewrite Hrows.
Defined.

(** X5 on the store with one bookmark. *)
Lemma listed_is_fetched_witness :
  ∃ b,
    getBookmark (Js.of_int 1) Examples.one_bookmark
    = (Examples.one_bookmark, inr b)
    ∧ BookmarkWithTags.title b = "A".
Proof.
  set (b := attach Examples.one_bookmark
              (BookmarkRow.mk 1 "A" "http://a" "" "" Examples.t0 Examples.t0)).
  exists b. split; [|done].
  apply (listed_is_fetched Examples.one_bookmark None None [b] b).
  - by apply reachable_one_bookmark.
  - reflexivity.
  - apply elem_of_cons. by left.
Defined.

(** X6 on the store with two tags: a second tag [work]. *)
Lemma createTag_once_witness :
  let run := createTag None (CreateTagRequest.mk (Some "work") None)
               Examples.two_tags in
  length (filter (λ t, Tag.name t = "work") (tags run.1)) = 1%nat.
Proof.
  destruct (createTag_once Examples.two_tags "work" None) as [_ Hone].
  - by apply reachable_two_tags.
  - done.
  - exact Hone.
Defined.

(** X7 on the bookmarks titled GitHub and Example. *)
Lemma search_ignores_case_witness :
  listBookmarks (Some "git") None Examples.github
  = listBookmarks (Some "GIT") None Examples.github.
Proof.
  apply (search_ignores_case Examples.github "git" "GIT" None). reflexivity.
Defined.

(** X8 on the store with one bookmark: a second bookmark, five seconds
    later. *)
Lemma list_after_create_witness :
  ∃ db' created before,
    createBookmark Examples.t1
      (CreateBookmarkRequest.mk (Some "B") (Some "http://b") None None
         (Some [2]))
      Examples.one_bookmark
    = (db', inr created)
    ∧ listBookmarks None None Examples.one_bookmark
      = (Examples.one_bookmark, inr before)
    ∧ listBookmarks None None db' = (db', inr (created :: before)).
Proof.
  destruct (list_after_create Examples.one_bookmark Examples.t1 "B" "http://b"
              None None (Some [2]))
    as (db' & created & before & Hrun & Hbefore & Hafter).
  - done.
  - done.
  - rewrite tag_ids_one_bookmark. simpl. intros t Ht.
    apply list_elem_of_singleton in Ht as ->.
    apply elem_of_cons. right. apply elem_of_cons. by left.
  - intros r Hr. vm_compute in Hr. apply list_elem_of_In in Hr.
    destruct Hr as [<-|[]]. reflexivity.
  - by exists db', created, before.
Defined.

(** X9 on the store with one bookmark, listed by the tag 1. *)
Lemma list_after_delete_witness :
  ∃ db' before,
    deleteBookmark (Js.of_int 1) Examples.one_bookmark = (db', inr (Js.of_int 1))
    ∧ listBookmarks None (Some "1") Examples.one_bookmark
      = (Examples.one_bookmark, inr before)
    ∧ listBookmarks None (Some "1") db' = (db', inr (removeBookmark 1 before)).
Proof.
  apply (list_after_delete Examples.one_bookmark (Js.of_int 1) 1 None
           (Some "1")).
  - reflexivity.
  - vm_compute. apply list_elem_of_In. simpl. by left.
Defined.

(** X10 on the store with one bookmark: a new title and the tag 2. *)
Lemma list_after_update_witness :
  ∃ db' sent before,
    updateBookmark Examples.t2 (Js.of_int 1)
      (UpdateBookmarkRequest.mk (Some "B") None None None (Value [2]))
      Examples.one_bookmark
    = (db', inr sent)
    ∧ listBookmarks None None Examples.one_bookmark
      = (Examples.one_bookmark, inr before)
    ∧ listBookmarks None None db'
      = (db', inr (updateBookmarkInList sent before)).
Proof.
  destruct (list_after_update Examples.one_bookmark Examples.t2 (Js.of_int 1)
              (UpdateBookmarkRequest.mk (Some "B") None None None (Value [2]))
              (BookmarkRow.mk 1 "A" "http://a" "" "" Examples.t0 Examples.t0))
    as (db' & sent & before & Hrun & Hbefore & Hafter).
  - by apply reachable_one_bookmark.
  - reflexivity.
  - done.
  - rewrite tag_ids_one_bookmark. simpl. intros t Ht.
    apply list_elem_of_singleton in Ht as ->.
    apply elem_of_cons. right. apply elem_of_cons. by left.
  - by exists db', sent, before.
Defined.

(** X12 on the store with one bookmark: a click on the tag 2, which the
    bookmark does not have. *)
Lemma quick_tag_toggles_witness :
  let row := BookmarkRow.mk 1 "A" "http://a" "" "" Examples.t0 Examples.t0 in
  let shown := attach Examples.one_bookmark row in
  ∃ db' sent,
    updateBookmark Examples.t2 (Js.of_int 1) (quick_tag_request shown 2)
      Examples.one_bookmark
    = (db', inr sent)
    ∧ BookmarkWithTags.title sent = "A"
    ∧ BookmarkWithTags.updatedAt sent = Examples.t2.
Proof.
  intros row shown.
  destruct (quick_tag_toggles Examples.one_bookmark Examples.t2 (Js.of_int 1)
              row 2)
    as (db' & sent & Hrun & _ & _ & _ & Htitle & _ & _ & _ & _ & Hat).
  - reflexivity.
  - rewrite tag_ids_one_bookmark.
    apply elem_of_cons. right. apply elem_of_cons. by left.
  - by exists db', sent.
Defined.

(** X13 on the store with two tags: a form with blanks around the title and
    the tag 1 chosen. *)
Lemma form_create_witness :
  ∃ db' sent,
    createBookmark Examples.t0
      (CreateBookmarkRequest.mk (Some "A") (Some "http://a") None None
         (Some [1]))
      Examples.two_tags
    = (db', inr sent)
    ∧ BookmarkWithTags.title sent = "A"
    ∧ BookmarkWithTags.description sent = "".
Proof.
  pose proof (form_create Examples.two_tags Examples.t0 "  A " "http://a"
                "   " [1]) as Hform.
  destruct Hform as (db' & sent & Hrun & Htitle & _ & Hdescription & _).
  - by apply reachable_two_tags.
  - rewrite tag_ids_two_tags. intros t Ht.
    apply list_elem_of_singleton in Ht as ->. apply elem_of_cons. by left.
  - by exists db', sent.
Defined.

(** X14 on the store with one bookmark: the form with a new title, a blank
    description and no tag chosen. *)
Lemma form_edit_witness :
  ∃ db' sent,
    updateBookmark Examples.t2 (Js.of_int 1)
      (UpdateBookmarkRequest.mk (Some "B") (Some "http://a") None None Undefined)
      Examples.one_bookmark
    = (db', inr sent)
    ∧ BookmarkWithTags.title sent = "B"
    ∧ BookmarkWithTags.tags sent = [Tag.mk 1 "work" "#ff0000"].
Proof.
  destruct (form_edit Examples.one_bookmark Examples.t2 (Js.of_int 1)
              (BookmarkRow.mk 1 "A" "http://a" "" "" Examples.t0 Examples.t0)
              " B" "http://a " "" []
              (CreateBookmarkRequest.mk (Some "B") (Some "http://a") None None
                 None))
    as (db' & sent & Hrun & Htitle & _ & _ & _ & _ & _ & Htags).
  - reflexivity.
  - intros t Ht. by apply elem_of_nil in Ht.
  - reflexivity.
  - by exists db', sent.
Defined.

(** X15 for the id 42. *)
Lemma id_round_trip_witness :
  get_bookmark_route "42" Examples.one_bookmark
  = getBookmark (Js.of_int 42) Examples.one_bookmark.
Proof.
  destruct (id_round_trip 42 Examples.t2
              (UpdateBookmarkRequest.mk None None None None Undefined)
              Examples.one_bookmark) as [Hget _].
  - change (2 ^ 53) with 9007199254740992. lia.
  - exact Hget.
Defined.

(** X16 on the store with one bookmark: the list for the tag 1. *)
Lemma fetch_by_tag_witness :
  ∃ rows,
    listBookmarks None (Some "1") Examples.one_bookmark
    = (Examples.one_bookmark, inr (attach Examples.one_bookmark <$> rows))
    ∧ ∀ r, r ∈ rows
           ↔ r ∈ bookmarks Examples.one_bookmark
             ∧ BookmarkTag.mk (BookmarkRow.id r) 1
               ∈ bookmark_tags Examples.one_bookmark.
Proof.
  apply (fetch_by_tag None 1 Examples.one_bookmark).
  change (2 ^ 53) with 9007199254740992. lia.
Defined.

(** X17 on the store with two tags, [play] and [work]: a tag [zoo], typed
    with blanks around it. *)
Lemma tags_after_create_witness :
  ∃ db' tag before after,
    createTag None (CreateTagRequest.mk (Some "zoo") (Some "#00ff00"))
      Examples.two_tags
    = (db', inr tag)
    ∧ listTags Examples.two_tags = (Examples.two_tags, inr before)
    ∧ listTags db' = (db', inr after)
    ∧ after ≡ₚ addTag tag before.
Proof.
  destruct (tags_after_create Examples.two_tags " zoo " "#00ff00"
              (CreateTagRequest.mk (Some "zoo") (Some "#00ff00")))
    as (db' & tag & before & after & Hrun & _ & _ & _ & Hb & Ha & Hperm & _).
  - reflexivity.
  - vm_compute. intros Hin. apply list_elem_of_In in Hin. simpl in Hin.
    destruct Hin as [Hin|[Hin|[]]]; discriminate Hin.
  - by exists db', tag, before, after.
Defined.
